(** * ged2dot: GEDCOM to Graphviz conversion, a shallow embedding

    The development follows [ged2dot.py]: the entity classes ([Individual],
    [Family]), the line parser ([GedcomImport]), the resolver ([load]), the
    breadth-first traversal ([bfs]), the writers of [DotExport] and
    [convert].

    Conventions of the embedding.
    - A Python [str] is a list of Unicode code points ([list N]); [bytes] is a
      list of byte values.  String literals of the source are written
      [lit "..."].
    - Python objects live in the graph list; a reference to a node is its
      position in that list, so two references are the same object exactly
      when they are the same position (the [in] test of [bfs] is identity).
    - A raised exception is the [Raise] outcome of the [result] type.
    - Built-ins that rest on the Unicode character database ([int], the case
      mappings outside ASCII) and the file system are parameters.
    - A file is the byte string it holds: [tokenize], [store] and [convert]
      take what the input holds and what the output held when it was opened;
      a failure to open a file is not part of the embedding. *)

From Stdlib Require Import ZArith NArith Ascii String.
From stdpp Require Import base decidable option numbers list gmap.

Local Open Scope N_scope.

(** ** Exceptions and results *)

Inductive exn : Set :=
| ValueError | UnicodeDecodeError | UnicodeEncodeError | AssertionError | KeyError.

Inductive result (A : Type) : Type :=
| Ok (a : A)
| Raise (e : exn).
Arguments Ok {A} a.
Arguments Raise {A} e.

Definition result_bind {A B} (f : A → result B) (m : result A) : result B :=
  match m with Ok a => f a | Raise e => Raise e end.

#[export] Instance result_mbind : MBind result := @result_bind.
#[export] Instance result_mret : MRet result := @Ok.

(** [for x in xs: st = body st x], where the body may raise. *)
Fixpoint for_each {S A} (body : S → A → result S) (xs : list A) (st : S) : result S :=
  match xs with
  | [] => Ok st
  | x :: xs' => st' ← body st x; for_each body xs' st'
  end.

(** ** Strings and bytes *)

Definition str := list N.
Definition bytes := list N.

Definition lit (s : string) : str := map N_of_ascii (list_ascii_of_string s).
Arguments lit : simpl never.

Definition str_eqb (a b : str) : bool := bool_decide (a = b).

(** [s.startswith(p)] and [s.endswith(p)]. *)
Fixpoint startswith (s p : str) : bool :=
  match p, s with
  | [], _ => true
  | c :: p', d :: s' => (c =? d) && startswith s' p'
  | _ :: _, [] => false
  end.

Definition endswith (s p : str) : bool := startswith (rev s) (rev p).

(** Index normalisation of a slice bound: [None] is an omitted bound. *)
Definition slice_bound (n : nat) (dflt : nat) (i : option Z) : nat :=
  match i with
  | None => dflt
  | Some z =>
      if (z <? 0)%Z then Z.to_nat (Z.max 0 (z + Z.of_nat n))
      else Nat.min (Z.to_nat z) n
  end.

(** [l[a:b]] with Python's treatment of negative and out-of-range bounds. *)
Definition slice {A} (l : list A) (a b : option Z) : list A :=
  let n := length l in
  let lo := slice_bound n 0%nat a in
  let hi := slice_bound n n b in
  take (hi - lo)%nat (drop lo l).

(** [s.split(sep)] for a one-character separator: never empty. *)
Fixpoint split_on (sep : N) (s : str) : list str :=
  match s with
  | [] => [[]]
  | c :: s' =>
      if c =? sep then [] :: split_on sep s'
      else match split_on sep s' with
           | [] => [[c]]
           | w :: ws => (c :: w) :: ws
           end
  end.

(** [sep.join(parts)]. *)
Fixpoint join (sep : str) (parts : list str) : str :=
  match parts with
  | [] => []
  | [p] => p
  | p :: ps => p ++ sep ++ join sep ps
  end.

(** [l[0]] of a list known to be non-empty ([split] results), [l[-1]]. *)
Definition first_of (l : list str) : str := hd [] l.
Definition last_of (l : list str) : str := List.last l [].

(** Whitespace of [str.strip()]: the code points whose [isspace()] holds. *)
Definition isspace (c : N) : bool :=
  ((9 <=? c) && (c <=? 13)) || ((28 <=? c) && (c <=? 32))
  || (c =? 133) || (c =? 160) || (c =? 5760)
  || ((8192 <=? c) && (c <=? 8202)) || (c =? 8232) || (c =? 8233)
  || (c =? 8239) || (c =? 8287) || (c =? 12288).

(** Whitespace of [bytes.strip()]: space, tab, LF, VT, FF, CR. *)
Definition bytes_isspace (b : N) : bool :=
  (b =? 32) || ((9 <=? b) && (b <=? 13)).

Fixpoint lstrip_with (sp : N → bool) (s : list N) : list N :=
  match s with
  | c :: s' => if sp c then lstrip_with sp s' else s
  | [] => []
  end.

Definition strip_with (sp : N → bool) (s : list N) : list N :=
  rev (lstrip_with sp (rev (lstrip_with sp s))).

Definition strip (s : str) : str := strip_with isspace s.
Definition bytes_strip (s : bytes) : bytes := strip_with bytes_isspace s.

(** [data.split(b"\r\n")]; [cur] is the piece being read. *)
Fixpoint bytes_split_crlf (s cur : bytes) : list bytes :=
  match s with
  | [] => [cur]
  | b :: rest =>
      match rest with
      | c :: rest' =>
          if (b =? 13) && (c =? 10) then cur :: bytes_split_crlf rest' []
          else bytes_split_crlf rest (cur ++ [b])
      | [] => [cur ++ [b]]
      end
  end.

(** Strict UTF-8, as [bytes.decode("utf-8")]: overlong forms, surrogates and
    values above U+10FFFF are rejected. *)
Definition is_cont (b : N) : bool := (128 <=? b) && (b <=? 191).
Definition in_range (lo hi b : N) : bool := (lo <=? b) && (b <=? hi).

Fixpoint utf8_code_points (bs : bytes) : option str :=
  match bs with
  | [] => Some []
  | b0 :: r0 =>
      if b0 <? 128 then cons b0 <$> utf8_code_points r0
      else if in_range 194 223 b0 then
        match r0 with
        | b1 :: r1 =>
            if is_cont b1
            then cons ((b0 - 192) * 64 + (b1 - 128)) <$> utf8_code_points r1
            else None
        | _ => None
        end
      else if in_range 224 239 b0 then
        match r0 with
        | b1 :: b2 :: r2 =>
            if in_range (if b0 =? 224 then 160 else 128)
                        (if b0 =? 237 then 159 else 191) b1 && is_cont b2
            then cons ((b0 - 224) * 4096 + (b1 - 128) * 64 + (b2 - 128))
                   <$> utf8_code_points r2
            else None
        | _ => None
        end
      else if in_range 240 244 b0 then
        match r0 with
        | b1 :: b2 :: b3 :: r3 =>
            if in_range (if b0 =? 240 then 144 else 128)
                        (if b0 =? 244 then 143 else 191) b1
               && is_cont b2 && is_cont b3
            then cons ((b0 - 240) * 262144 + (b1 - 128) * 4096
                       + (b2 - 128) * 64 + (b3 - 128))
                   <$> utf8_code_points r3
            else None
        | _ => None
        end
      else None
  end.

Definition decode_utf8 (bs : bytes) : result str :=
  match utf8_code_points bs with
  | Some s => Ok s
  | None => Raise UnicodeDecodeError
  end.

(** [to_bytes]: [string.encode("utf-8")]; a surrogate cannot be encoded. *)
Definition encode_char (c : N) : option bytes :=
  if c <? 128 then Some [c]
  else if c <? 2048 then Some [192 + c / 64; 128 + c mod 64]
  else if in_range 55296 57343 c then None
  else if c <? 65536 then
    Some [224 + c / 4096; 128 + (c / 64) mod 64; 128 + c mod 64]
  else if c <? 1114112 then
    Some [240 + c / 262144; 128 + (c / 4096) mod 64;
          128 + (c / 64) mod 64; 128 + c mod 64]
  else None.

Fixpoint to_bytes (s : str) : result bytes :=
  match s with
  | [] => Ok []
  | c :: s' =>
      match encode_char c with
      | Some bs => rest ← to_bytes s'; Ok (bs ++ rest)
      | None => Raise UnicodeEncodeError
      end
  end.

(** ASCII case mappings; outside ASCII the mapping is the parameter of the
    sections that use it. *)
Definition ascii_upper (c : N) : N := if in_range 97 122 c then c - 32 else c.
Definition ascii_lower (c : N) : N := if in_range 65 90 c then c + 32 else c.
Definition isascii (s : str) : bool := forallb (λ c, c <? 128) s.

(** [int] restricted to what GEDCOM level numbers use: optional sign and
    ASCII decimal digits, surrounded by optional ASCII white space.  It
    instantiates the [int] parameter in the worked examples, whose tokens
    are plain digits; underscores between digits and digits outside ASCII,
    which [int] reads as well, are outside this restriction. *)
Fixpoint digits_value (acc : Z) (s : str) : option Z :=
  match s with
  | [] => Some acc
  | c :: s' =>
      if in_range 48 57 c
      then digits_value (acc * 10 + Z.of_N (c - 48))%Z s'
      else None
  end.

Definition int_ascii (s : str) : option Z :=
  match strip_with bytes_isspace s with
  | [] => None
  | 45 :: d :: ds => Z.opp <$> digits_value 0 (d :: ds)
  | 43 :: d :: ds => digits_value 0 (d :: ds)
  | ds => digits_value 0 ds
  end.

(** ** Graph entities *)

(** A reference to a node object: its position in the graph. *)
Abbreviation ref := nat (only parsing).

(** [IndividualConfig]: key-value pairs on an individual. *)
Record IndividualConfig : Type := mkIndividualConfig {
  note : str;
  birth : str;
  death : str;
}.

Definition set_note (c : IndividualConfig) (v : str) : IndividualConfig :=
  {| note := v; birth := birth c; death := death c |}.
Definition set_birth (c : IndividualConfig) (v : str) : IndividualConfig :=
  {| note := note c; birth := v; death := death c |}.
Definition set_death (c : IndividualConfig) (v : str) : IndividualConfig :=
  {| note := note c; birth := birth c; death := v |}.

(** [Individual]: the string fields of its [__dict], the resolved references
    and the traversal depth. *)
Record Individual : Type := mkIndividual {
  ind_identifier : str;
  famc_id : str;
  famc : option ref;
  fams_ids : list str;
  fams_list : list ref;
  ind_depth : Z;
  forename : str;
  surname : str;
  sex : str;
  config : IndividualConfig;
}.

(** [Individual()]. *)
Definition Individual_init : Individual :=
  {| ind_identifier := []; famc_id := []; famc := None; fams_ids := [];
     fams_list := []; ind_depth := 0%Z; forename := []; surname := [];
     sex := []; config := {| note := []; birth := []; death := [] |} |}.

Definition ind_set_identifier (i : Individual) (v : str) : Individual :=
  mkIndividual v (famc_id i) (famc i) (fams_ids i) (fams_list i) (ind_depth i)
               (forename i) (surname i) (sex i) (config i).
Definition set_famc_id (i : Individual) (v : str) : Individual :=
  mkIndividual (ind_identifier i) v (famc i) (fams_ids i) (fams_list i)
               (ind_depth i) (forename i) (surname i) (sex i) (config i).
Definition set_famc (i : Individual) (v : option ref) : Individual :=
  mkIndividual (ind_identifier i) (famc_id i) v (fams_ids i) (fams_list i)
               (ind_depth i) (forename i) (surname i) (sex i) (config i).
Definition set_fams_ids (i : Individual) (v : list str) : Individual :=
  mkIndividual (ind_identifier i) (famc_id i) (famc i) v (fams_list i)
               (ind_depth i) (forename i) (surname i) (sex i) (config i).
Definition set_fams_list (i : Individual) (v : list ref) : Individual :=
  mkIndividual (ind_identifier i) (famc_id i) (famc i) (fams_ids i) v
               (ind_depth i) (forename i) (surname i) (sex i) (config i).
Definition ind_set_depth (i : Individual) (v : Z) : Individual :=
  mkIndividual (ind_identifier i) (famc_id i) (famc i) (fams_ids i)
               (fams_list i) v (forename i) (surname i) (sex i) (config i).
Definition set_forename (i : Individual) (v : str) : Individual :=
  mkIndividual (ind_identifier i) (famc_id i) (famc i) (fams_ids i)
               (fams_list i) (ind_depth i) v (surname i) (sex i) (config i).
Definition set_surname (i : Individual) (v : str) : Individual :=
  mkIndividual (ind_identifier i) (famc_id i) (famc i) (fams_ids i)
               (fams_list i) (ind_depth i) (forename i) v (sex i) (config i).
Definition set_sex (i : Individual) (v : str) : Individual :=
  mkIndividual (ind_identifier i) (famc_id i) (famc i) (fams_ids i)
               (fams_list i) (ind_depth i) (forename i) (surname i) v (config i).
Definition set_config (i : Individual) (v : IndividualConfig) : Individual :=
  mkIndividual (ind_identifier i) (famc_id i) (famc i) (fams_ids i)
               (fams_list i) (ind_depth i) (forename i) (surname i) (sex i) v.

(** [Family]. *)
Record Family : Type := mkFamily {
  fam_identifier : str;
  wife_id : str;
  wife : option ref;
  husb_id : str;
  husb : option ref;
  child_ids : list str;
  child_list : list ref;
  fam_depth : Z;
}.

(** [Family()]. *)
Definition Family_init : Family :=
  {| fam_identifier := []; wife_id := []; wife := None; husb_id := [];
     husb := None; child_ids := []; child_list := []; fam_depth := 0%Z |}.

Definition fam_set_identifier (f : Family) (v : str) : Family :=
  mkFamily v (wife_id f) (wife f) (husb_id f) (husb f) (child_ids f)
           (child_list f) (fam_depth f).
Definition set_wife_id (f : Family) (v : str) : Family :=
  mkFamily (fam_identifier f) v (wife f) (husb_id f) (husb f) (child_ids f)
           (child_list f) (fam_depth f).
Definition set_wife (f : Family) (v : option ref) : Family :=
  mkFamily (fam_identifier f) (wife_id f) v (husb_id f) (husb f) (child_ids f)
           (child_list f) (fam_depth f).
Definition set_husb_id (f : Family) (v : str) : Family :=
  mkFamily (fam_identifier f) (wife_id f) (wife f) v (husb f) (child_ids f)
           (child_list f) (fam_depth f).
Definition set_husb (f : Family) (v : option ref) : Family :=
  mkFamily (fam_identifier f) (wife_id f) (wife f) (husb_id f) v (child_ids f)
           (child_list f) (fam_depth f).
Definition set_child_ids (f : Family) (v : list str) : Family :=
  mkFamily (fam_identifier f) (wife_id f) (wife f) (husb_id f) (husb f) v
           (child_list f) (fam_depth f).
Definition set_child_list (f : Family) (v : list ref) : Family :=
  mkFamily (fam_identifier f) (wife_id f) (wife f) (husb_id f) (husb f)
           (child_ids f) v (fam_depth f).
Definition fam_set_depth (f : Family) (v : Z) : Family :=
  mkFamily (fam_identifier f) (wife_id f) (wife f) (husb_id f) (husb f)
           (child_ids f) (child_list f) v.

(** [Node]: the two concrete classes. *)
Inductive Node : Type :=
| NIndividual (i : Individual)
| NFamily (f : Family).

Definition get_identifier (n : Node) : str :=
  match n with
  | NIndividual i => ind_identifier i
  | NFamily f => fam_identifier f
  end.

Definition get_depth (n : Node) : Z :=
  match n with
  | NIndividual i => ind_depth i
  | NFamily f => fam_depth f
  end.

Definition set_depth (n : Node) (d : Z) : Node :=
  match n with
  | NIndividual i => NIndividual (ind_set_depth i d)
  | NFamily f => NFamily (fam_set_depth f d)
  end.

(** [get_neighbours]: parent family then spouse families for an individual;
    wife, husband, children for a family. *)
Definition get_neighbours (n : Node) : list ref :=
  match n with
  | NIndividual i => option_list (famc i) ++ fams_list i
  | NFamily f => option_list (wife f) ++ option_list (husb f) ++ child_list f
  end.

(** ** Lookup by identifier *)

(** Positions, counted from [k], of the nodes whose identifier is [identifier]:
    the list comprehension of [graph_find]. *)
Fixpoint find_from (k : nat) (graph : list Node) (identifier : str) : list ref :=
  match graph with
  | [] => []
  | node :: graph' =>
      if str_eqb (get_identifier node) identifier
      then k :: find_from (S k) graph' identifier
      else find_from (S k) graph' identifier
  end.

Definition graph_find (graph : list Node) (identifier : str) : result (option ref) :=
  match identifier with
  | [] => Ok None
  | _ =>
      match find_from 0 graph identifier with
      | [r] => Ok (Some r)
      | _ => Raise AssertionError
      end
  end.

(** ** Resolution *)

(** The loop of [Individual.resolve] and [Family.resolve]: look each id up,
    assert that something was found, append it. *)
Definition resolve_append (graph : list Node) (acc : list ref) (id : str)
  : result (list ref) :=
  found ← graph_find graph id;
  match found with
  | Some r => Ok (acc ++ [r])
  | None => Raise AssertionError
  end.

Definition Individual_resolve (self : Individual) (graph : list Node)
  : result Individual :=
  c ← graph_find graph (famc_id self);
  let self := set_famc self c in
  l ← for_each (resolve_append graph) (fams_ids self) (fams_list self);
  Ok (set_fams_list self l).

Definition Family_resolve (self : Family) (graph : list Node) : result Family :=
  w ← graph_find graph (wife_id self);
  let self := set_wife self w in
  h ← graph_find graph (husb_id self);
  let self := set_husb self h in
  l ← for_each (resolve_append graph) (child_ids self) (child_list self);
  Ok (set_child_list self l).

(** [node.resolve(graph)] for the node at position [i]: the object is updated
    in place, every other node of the graph is left as it is. *)
Definition resolve_at (graph : list Node) (i : nat) : result (list Node) :=
  match graph !! i with
  | Some (NIndividual ind) =>
      ind' ← Individual_resolve ind graph; Ok (<[i := NIndividual ind']> graph)
  | Some (NFamily fam) =>
      fam' ← Family_resolve fam graph; Ok (<[i := NFamily fam']> graph)
  | None => Ok graph
  end.

(** The loop of [load]: [for node in graph: node.resolve(graph)]. *)
Definition resolve_all (graph : list Node) : result (list Node) :=
  for_each resolve_at (seq 0 (length graph)) graph.

(** Store access through a reference. *)
Definition identifier_at (graph : list Node) (r : ref) : str :=
  from_option get_identifier [] (graph !! r).
Definition depth_at (graph : list Node) (r : ref) : Z :=
  from_option get_depth 0%Z (graph !! r).
Definition neighbours_at (graph : list Node) (r : ref) : list ref :=
  from_option get_neighbours [] (graph !! r).
Definition set_depth_at (graph : list Node) (r : ref) (d : Z) : list Node :=
  alter (λ n, set_depth n d) r graph.

(** Truth value of an [Optional] object and of a string. *)
Definition truthy {A} (o : option A) : bool :=
  match o with Some _ => true | None => false end.
Definition nonempty (s : str) : bool :=
  match s with [] => false | _ => true end.

(** ** The GEDCOM parser *)

Record GedcomImport : Type := mkGedcomImport {
  individual : option Individual;
  family : option Family;
  graph : list Node;
  in_birt : bool;
  in_deat : bool;
}.

(** [GedcomImport()]. *)
Definition GedcomImport_init : GedcomImport :=
  {| individual := None; family := None; graph := [];
     in_birt := false; in_deat := false |}.

Definition set_individual (self : GedcomImport) (v : option Individual) :=
  mkGedcomImport v (family self) (graph self) (in_birt self) (in_deat self).
Definition set_family (self : GedcomImport) (v : option Family) :=
  mkGedcomImport (individual self) v (graph self) (in_birt self) (in_deat self).
Definition graph_append (self : GedcomImport) (n : Node) :=
  mkGedcomImport (individual self) (family self) (graph self ++ [n])
                 (in_birt self) (in_deat self).
Definition set_in_birt (self : GedcomImport) (v : bool) :=
  mkGedcomImport (individual self) (family self) (graph self) v (in_deat self).
Definition set_in_deat (self : GedcomImport) (v : bool) :=
  mkGedcomImport (individual self) (family self) (graph self) (in_birt self) v.

(** A method call on [self.individual] / [self.family], guarded in the source
    by the truth of that field. *)
Definition update_individual (self : GedcomImport) (f : Individual → Individual) :=
  match individual self with
  | Some i => set_individual self (Some (f i))
  | None => self
  end.
Definition update_family (self : GedcomImport) (f : Family → Family) :=
  match family self with
  | Some fam => set_family self (Some (f fam))
  | None => self
  end.

Definition reset_flags (self : GedcomImport) : GedcomImport :=
  if in_birt self then set_in_birt self false
  else if in_deat self then set_in_deat self false
  else self.

Definition handle_level0 (self : GedcomImport) (line : str) : GedcomImport :=
  let self :=
    match individual self with
    | Some i => set_individual (graph_append self (NIndividual i)) None
    | None => self
    end in
  let self :=
    match family self with
    | Some f => set_family (graph_append self (NFamily f)) None
    | None => self
    end in
  if startswith line (lit "@") && endswith line (lit "INDI") then
    set_individual self
      (Some (ind_set_identifier Individual_init (slice line (Some 1%Z) (Some (-6)%Z))))
  else if startswith line (lit "@") && endswith line (lit "FAM") then
    set_family self
      (Some (fam_set_identifier Family_init (slice line (Some 1%Z) (Some (-5)%Z))))
  else self.

(** Handles fields stored in [individual.get_config()]. *)
Definition handle_individual_config (self : GedcomImport) (line : str) : GedcomImport :=
  let line_lead_token := first_of (split_on 32 line) in
  if str_eqb line_lead_token (lit "BIRT") then set_in_birt self true
  else if str_eqb line_lead_token (lit "DEAT") then set_in_deat self true
  else if str_eqb line_lead_token (lit "NOTE") && truthy (individual self) then
    update_individual self
      (λ i, set_config i (set_note (config i) (slice line (Some 5%Z) None)))
  else self.

Definition handle_level1 (self : GedcomImport) (line : str) : GedcomImport :=
  let self := reset_flags self in
  let line_lead_token := first_of (split_on 32 line) in
  let id := slice line (Some 6%Z) (Some (-1)%Z) in
  if str_eqb line_lead_token (lit "SEX") && truthy (individual self) then
    let tokens := split_on 32 line in
    if (1 <? length tokens)%nat
    then update_individual self (λ i, set_sex i (nth 1 tokens []))
    else self
  else if str_eqb line_lead_token (lit "NAME") && truthy (individual self) then
    let line := slice line (Some 5%Z) None in
    let tokens := split_on 47 line in
    let self := update_individual self (λ i, set_forename i (strip (first_of tokens))) in
    if (1 <? length tokens)%nat
    then update_individual self (λ i, set_surname i (strip (nth 1 tokens [])))
    else self
  else if str_eqb line_lead_token (lit "FAMC") && truthy (individual self) then
    update_individual self
      (λ i, if nonempty (famc_id i) then i else set_famc_id i id)
  else if str_eqb line_lead_token (lit "FAMS") && truthy (individual self) then
    update_individual self (λ i, set_fams_ids i (fams_ids i ++ [id]))
  else if str_eqb line_lead_token (lit "HUSB") && truthy (family self) then
    update_family self (λ f, set_husb_id f id)
  else if str_eqb line_lead_token (lit "WIFE") && truthy (family self) then
    update_family self (λ f, set_wife_id f id)
  else if str_eqb line_lead_token (lit "CHIL") && truthy (family self) then
    update_family self (λ f, set_child_ids f (child_ids f ++ [id]))
  else handle_individual_config self line.

(** The [level == 2] branch of [tokenize_from_stream]. *)
Definition handle_level2 (self : GedcomImport) (rest : str) : GedcomImport :=
  if startswith rest (lit "DATE") && truthy (individual self) then
    let year := last_of (split_on 32 rest) in
    if in_birt self then
      update_individual self (λ i, set_config i (set_birth (config i) year))
    else if in_deat self then
      update_individual self (λ i, set_config i (set_death (config i) year))
    else self
  else self.

(** The byte order mark U+FEFF. *)
Definition BOM : str := [65279].

Section Tokenizer.
(** Python's [int] on a string: [None] stands for its [ValueError]. *)
Variable int : str → option Z.

(** The level number and the rest of a decoded, non-empty line. *)
Definition parse_level (line : str) : result (Z * str) :=
  let tokens := split_on 32 line in
  let first_token := first_of tokens in
  let first_token :=
    if startswith first_token BOM then slice first_token (Some 1%Z) None
    else first_token in
  match int first_token with
  | None => Raise ValueError
  | Some level => Ok (level, join [32] (slice tokens (Some 1%Z) None))
  end.

Definition dispatch (self : GedcomImport) (level : Z) (rest : str) : GedcomImport :=
  if (level =? 0)%Z then handle_level0 self rest
  else if (level =? 1)%Z then handle_level1 self rest
  else if (level =? 2)%Z then handle_level2 self rest
  else self.

(** One iteration of the loop of [tokenize_from_stream]. *)
Definition handle_line (self : GedcomImport) (line_bytes : bytes)
  : result GedcomImport :=
  line ← decode_utf8 (bytes_strip line_bytes);
  match line with
  | [] => Ok self
  | _ => '(level, rest) ← parse_level line; Ok (dispatch self level rest)
  end.

(** [tokenize_from_stream] on the bytes read from the stream: the importer
    after the loop, and the returned [self.graph]. *)
Definition tokenize_from_stream (self : GedcomImport) (stream : bytes)
  : result (GedcomImport * list Node) :=
  self' ← for_each handle_line (bytes_split_crlf stream []) self;
  Ok (self', graph self').

(** [load]: tokenize with a new importer, then resolve every node. *)
Definition load (stream : bytes) : result (list Node) :=
  '(_, g) ← tokenize_from_stream GedcomImport_init stream;
  resolve_all g.

(** ** Breadth-first traversal *)

(** The body of the inner loop of [bfs] for one neighbour. *)
Definition visit (node : ref) (st : list Node * list ref * list ref)
    (neighbour : ref) : list Node * list ref * list ref :=
  let '(g, visited, queue) := st in
  if bool_decide (neighbour ∈ visited) then st
  else (set_depth_at g neighbour (depth_at g node + 1)%Z,
        visited ++ [neighbour], queue ++ [neighbour]).

(** The [while queue] loop; [None] when the iteration budget [fuel] is used
    up before the loop ends. *)
Fixpoint bfs_loop (fuel : nat) (config : gmap str str) (g : list Node)
    (visited queue ret : list ref) : option (result (list Node * list ref)) :=
  match queue with
  | [] => Some (Ok (g, ret))
  | node :: queue =>
      match fuel with
      | O => None
      | S fuel =>
          match config !! lit "familydepth" with
          | None => Some (Raise KeyError)
          | Some v =>
              match int v with
              | None => Some (Raise ValueError)
              | Some family_depth =>
                  if (family_depth * 2 + 1 <? depth_at g node)%Z
                  then Some (Ok (g, ret))
                  else
                    let ret := ret ++ [node] in
                    let '(g, visited, queue) :=
                      foldl (visit node) (g, visited, queue) (neighbours_at g node) in
                    bfs_loop fuel config g visited queue ret
              end
          end
      end
  end.

(** [bfs(root, config)] on the store [g]: the store after the traversal
    (depths assigned) and the traversed nodes.  Every node is dequeued at
    most once, so one iteration per node of the store is budget enough. *)
Definition bfs (g : list Node) (root : ref) (config : gmap str str)
  : option (result (list Node * list ref)) :=
  bfs_loop (length g) config g [root] [root] [].
End Tokenizer.

(** ** Edges of the DOT output *)

Definition write (stream : bytes) (s : str) : result bytes :=
  b ← to_bytes s; Ok (stream ++ b).

(** [a -> b [dir=none];] and a line feed. *)
Definition edge_text (a b : str) : str :=
  a ++ lit " -> " ++ b ++ lit " [dir=none];" ++ [10].

Definition store_family_edges (g : list Node) (stream : bytes) (fam : Family)
  : result bytes :=
  stream ← match wife fam with
           | Some w => write stream (edge_text (identifier_at g w) (fam_identifier fam))
           | None => Ok stream
           end;
  stream ← match husb fam with
           | Some h => write stream (edge_text (identifier_at g h) (fam_identifier fam))
           | None => Ok stream
           end;
  for_each (λ stream child,
              write stream (edge_text (fam_identifier fam) (identifier_at g child)))
           (child_list fam) stream.

(** [DotExport.__store_edges] for [self.subgraph = subgraph]. *)
Definition store_edges (g : list Node) (subgraph : list ref) (stream : bytes)
  : result bytes :=
  for_each (λ stream node,
              match g !! node with
              | Some (NFamily fam) => store_family_edges g stream fam
              | _ => Ok stream
              end)
           subgraph stream.

(** ** Colour and label of an individual *)

(** The double quote character of the label markup. *)
Definition dquote : str := [34].

(** POSIX [os.path.isabs] and two-argument [os.path.join]. *)
Definition isabs (path : str) : bool := startswith path (lit "/").
Definition path_join (a b : str) : str :=
  if startswith b (lit "/") then b
  else if negb (nonempty a) || endswith a (lit "/") then a ++ b
  else a ++ lit "/" ++ b.

Section Label.
(** [str.upper] and [str.lower] on strings that are not pure ASCII. *)
Variables upper_ext lower_ext : str → str.
(** [os.path.exists] on an encoded path. *)
Variable path_exists : bytes → bool.
(** [os.path.dirname(os.path.realpath(__file__))]. *)
Variable module_dir : str.

Definition upper (s : str) : str :=
  if isascii s then map ascii_upper s else upper_ext s.
Definition lower (s : str) : str :=
  if isascii s then map ascii_lower s else lower_ext s.

(** Make a path absolute, taking the repo root as a base dir. *)
Definition get_abspath (path : str) : str :=
  if isabs path then path else path_join module_dir path.

(** The dictionary literal of [get_color]. *)
Definition color_table : gmap str str :=
  <[lit "M" := lit "blue"]> (<[lit "F" := lit "pink"]> (<[lit "U" := lit "black"]> ∅)).

(** Gets the color around the node; a missing key raises [KeyError]. *)
Definition get_color (self : Individual) : result str :=
  let sex := if negb (nonempty (sex self)) then lit "U" else upper (sex self) in
  match color_table !! sex with
  | Some color => Ok color
  | None => Raise KeyError
  end.

(** The image path chosen by [get_label]. *)
Definition label_image_path (self : Individual) (image_dir : str) : result str :=
  let image_path := path_join image_dir (forename self ++ lit " " ++ surname self) in
  let image_path := image_path ++ lit " " ++ birth (config self) ++ lit ".jpg" in
  encoded ← to_bytes image_path;
  if negb (path_exists encoded) then
    let sex := if nonempty (sex self) then lower (sex self) else lit "u" in
    Ok (get_abspath (lit "placeholder-" ++ sex ++ lit ".png"))
  else Ok image_path.

(** Gets the graphviz label. *)
Definition get_label (self : Individual) (image_dir name_order : str) : result str :=
  image_path ← label_image_path self image_dir;
  let label := lit "<table border=" ++ dquote ++ lit "0" ++ dquote
               ++ lit " cellborder=" ++ dquote ++ lit "0" ++ dquote
               ++ lit "><tr><td>" in
  let label := label ++ lit "<img src=" ++ dquote ++ image_path ++ dquote ++ lit "/>" in
  let label := label ++ lit "</td></tr><tr><td>" in
  let label :=
    if str_eqb name_order (lit "big")
    then (label ++ surname self ++ lit "<br/>") ++ forename self ++ lit "<br/>"
    else (label ++ forename self ++ lit "<br/>") ++ surname self ++ lit "<br/>" in
  let label := label ++ birth (config self) ++ lit "-" ++ death (config self) in
  Ok (label ++ lit "</td></tr></table>").
End Label.

(** ** The DOT document *)

(** [self.config.get(key, default)]. *)
Definition config_get (config : gmap str str) (key default : str) : str :=
  from_option id default (config !! key).

Section DotExport.
(** The parameters of [get_label] and [get_color]. *)
Variables upper_ext lower_ext : str → str.
Variable path_exists : bytes → bool.
Variable module_dir : str.
(** [os.path.dirname(os.path.realpath(gedcom))]; [os.path.realpath] raises on
    a path that cannot be handed to the file system ([ValueError] on an
    embedded NUL, [UnicodeEncodeError] on a path that cannot be encoded). *)
Variable realpath_dirname : str → result str.

(** Make a path absolute, taking the gedcom file's dir as a base dir. *)
Definition get_data_abspath (gedcom path : str) : result str :=
  if isabs path then Ok path
  else dir ← realpath_dirname gedcom; Ok (path_join dir path).

(** One iteration of [DotExport.__store_individual_nodes]. *)
Definition store_individual_node (config : gmap str str) (stream : bytes)
    (individual : Individual) : result bytes :=
  stream ← write stream (ind_identifier individual ++ lit " [shape=box, ");
  let image_dir := config_get config (lit "imagedir") [] in
  image_dir_abs ←
    get_data_abspath (config_get config (lit "input") []) image_dir;
  let name_order := config_get config (lit "nameorder") (lit "little") in
  label ← get_label lower_ext path_exists module_dir individual
            image_dir_abs name_order;
  stream ← write stream (lit "label = <" ++ label ++ lit ">" ++ [10]);
  color ← get_color upper_ext individual;
  write stream (lit "color = " ++ color ++ lit "];" ++ [10]).

Definition store_individual_nodes (g : list Node) (subgraph : list nat)
    (config : gmap str str) (stream : bytes) : result bytes :=
  for_each (λ stream node,
              match g !! node with
              | Some (NIndividual individual) =>
                  store_individual_node config stream individual
              | _ => Ok stream
              end)
           subgraph stream.

(** [DotExport.__store_family_nodes]. *)
Definition store_family_nodes (g : list Node) (subgraph : list nat)
    (stream : bytes) : result bytes :=
  stream ← write stream [10];
  stream ← for_each (λ stream node,
                       match g !! node with
                       | Some (NFamily fam) =>
                           write stream (fam_identifier fam
                                         ++ lit " [shape=point, width=0.1];"
                                         ++ [10])
                       | _ => Ok stream
                       end)
                    subgraph stream;
  write stream [10].

(** [DotExport.store_to_stream]: exports subgraph to a graphviz stream. *)
Definition store_to_stream (g : list Node) (subgraph : list nat)
    (stream : bytes) (config : gmap str str) : result bytes :=
  stream ← write stream
             (lit "// Generated by <https://github.com/vmiklos/ged2dot>."
              ++ [10]);
  stream ← write stream (lit "digraph" ++ [10]);
  stream ← write stream (lit "{" ++ [10]);
  stream ← write stream (lit "splines = ortho;" ++ [10]);
  stream ← write stream [10];
  stream ← store_individual_nodes g subgraph config stream;
  stream ← store_family_nodes g subgraph stream;
  stream ← store_edges g subgraph stream;
  write stream (lit "}" ++ [10]).
End DotExport.

(** ** The API *)

Section Convert.
Variable int : str → option Z.
Variables upper_ext lower_ext : str → str.
Variable path_exists : bytes → bool.
Variable module_dir : str.
Variable realpath_dirname : str → result str.

(** [GedcomImport.tokenize]: the [input] key is read first; [stream] is what
    the input it names holds (standard input for [-], else the file), for a
    run in which the file opens. *)
Definition tokenize (self : GedcomImport) (config : gmap str str)
    (stream : bytes) : result (GedcomImport * list Node) :=
  match config !! lit "input" with
  | None => Raise KeyError
  | Some _ => tokenize_from_stream int self stream
  end.

(** [GedcomImport.load] on a configuration: tokenizes and resolves. *)
Definition load_config (config : gmap str str) (stream : bytes)
  : result (list Node) :=
  '(_, g) ← tokenize GedcomImport_init config stream;
  resolve_all g.

(** [DotExport.store]: the [output] key is read first; [stream] is the output
    it names, as opened (standard output for [-], else the file), for a run
    in which the file opens. *)
Definition store (g : list Node) (subgraph : list ref) (stream : bytes)
    (config : gmap str str) : result bytes :=
  match config !! lit "output" with
  | None => Raise KeyError
  | Some _ =>
      store_to_stream upper_ext lower_ext path_exists module_dir
        realpath_dirname g subgraph stream config
  end.

(** [convert]: load, look the root family up, traverse, export.  [input] and
    [output] are the two streams; [None] stands for a traversal that runs
    out of its iteration budget. *)
Definition convert (config : gmap str str) (input output : bytes)
  : option (result bytes) :=
  match load_config config input with
  | Raise e => Some (Raise e)
  | Ok graph =>
      match config !! lit "rootfamily" with
      | None => Some (Raise KeyError)
      | Some identifier =>
          match graph_find graph identifier with
          | Raise e => Some (Raise e)
          | Ok None => Some (Raise AssertionError)
          | Ok (Some root_family) =>
              match bfs int graph root_family config with
              | None => None
              | Some (Raise e) => Some (Raise e)
              | Some (Ok (graph, subgraph)) =>
                  Some (store graph subgraph output config)
              end
          end
      end
  end.
End Convert.

(** * Specification-side notions *)

(** Node [r] of [g] carries the identifier [id]. *)
Definition names (g : list Node) (r : ref) (id : str) : Prop :=
  ∃ n, g !! r = Some n ∧ get_identifier n = id.

(** The entity under construction, as a list: individual before family, the
    order in which [handle_level0] appends them. *)
Definition in_progress (self : GedcomImport) : list Node :=
  option_list (NIndividual <$> individual self)
  ++ option_list (NFamily <$> family self).

(** A level-0 text that opens an individual or a family record, and the
    identifier [handle_level0] gives the new entity. *)
Definition opens_individual (rest : str) : bool :=
  startswith rest (lit "@") && endswith rest (lit "INDI").
Definition opens_family (rest : str) : bool :=
  negb (opens_individual rest)
  && startswith rest (lit "@") && endswith rest (lit "FAM").
Definition opens_record (rest : str) : bool :=
  opens_individual rest || opens_family rest.
Definition record_id (rest : str) : str :=
  if opens_individual rest then slice rest (Some 1%Z) (Some (-6)%Z)
  else slice rest (Some 1%Z) (Some (-5)%Z).

(** The last element of a list, as a list of at most one element. *)
Definition last_list {A} (l : list A) : list A := option_list (last l).

(** The references a resolve loop appends for the ids [ids]. *)
Definition lookup_all (g : list Node) (ids : list str) : result (list ref) :=
  for_each (resolve_append g) ids [].

(** Reference fields of a node: the single-valued ones, the list-valued one
    and the ids the latter is resolved from. *)
Definition scalar_refs (n : Node) : list (option ref) :=
  match n with
  | NIndividual i => [famc i]
  | NFamily f => [wife f; husb f]
  end.
Definition list_refs (n : Node) : list ref :=
  match n with
  | NIndividual i => fams_list i
  | NFamily f => child_list f
  end.
Definition list_ids (n : Node) : list str :=
  match n with
  | NIndividual i => fams_ids i
  | NFamily f => child_ids f
  end.
Definition scalar_ids (n : Node) : list str :=
  match n with
  | NIndividual i => [famc_id i]
  | NFamily f => [wife_id f; husb_id f]
  end.

(** A node as the parser builds it: no reference wired, depth 0. *)
Definition unresolved (n : Node) : Prop :=
  get_neighbours n = [] ∧ get_depth n = 0%Z.

(** The resolved relationships the edge writer walks through: for every
    family of the subgraph, in order, (wife, family), (husband, family) and
    (family, child) for each child. *)
Definition family_relationships (r : ref) (fam : Family) : list (ref * ref) :=
  ((λ w, (w, r)) <$> option_list (wife fam))
  ++ ((λ h, (h, r)) <$> option_list (husb fam))
  ++ ((λ c, (r, c)) <$> child_list fam).
Definition relationships (g : list Node) (subgraph : list ref) : list (ref * ref) :=
  flat_map (λ r, match g !! r with
                 | Some (NFamily fam) => family_relationships r fam
                 | _ => []
                 end) subgraph.

(** [sub] occurs inside [s]. *)
Definition contains (s sub : str) : Prop := ∃ a b, s = a ++ sub ++ b.

(** The nodes of [l] discovered for the first time, given those already
    [seen]: what the inner loop of [bfs] enqueues. *)
Fixpoint discovered (seen l : list ref) : list ref :=
  match l with
  | [] => []
  | r :: l' =>
      if bool_decide (r ∈ seen) then discovered seen l'
      else r :: discovered (seen ++ [r]) l'
  end.

(** * Worked inputs *)

(** A GEDCOM text: the given lines, each ended by CR LF. *)
Definition crlf_lines (ls : list string) : bytes :=
  concat (map (λ l, lit l ++ [13; 10]) ls).

Definition familydepth (d : string) : gmap str str :=
  {[ lit "familydepth" := lit d ]}.

(** One couple with one child, closed by the trailer record. *)
Definition couple_with_child : bytes :=
  crlf_lines ["0 HEAD"; "0 @P1@ INDI"; "1 NAME Alice /A/"; "1 SEX F";
              "1 FAMS @F1@"; "0 @P2@ INDI"; "1 NAME Bob /B/"; "1 SEX M";
              "1 FAMS @F1@"; "0 @P3@ INDI"; "1 NAME Carol /B/"; "1 FAMC @F1@";
              "0 @F1@ FAM"; "1 HUSB @P2@"; "1 WIFE @P1@"; "1 CHIL @P3@";
              "0 TRLR"]%string.

(** A childless couple. *)
Definition couple : bytes :=
  crlf_lines ["0 @P1@ INDI"; "1 SEX F"; "1 FAMS @F1@"; "0 @P2@ INDI";
              "1 SEX M"; "1 FAMS @F1@"; "0 @F1@ FAM"; "1 HUSB @P2@";
              "1 WIFE @P1@"; "0 TRLR"]%string.

(** The same text as [couple], cut before the trailer. *)
Definition couple_no_trailer : bytes :=
  crlf_lines ["0 @P1@ INDI"; "1 SEX F"; "1 FAMS @F1@"; "0 @P2@ INDI";
              "1 SEX M"; "1 FAMS @F1@"; "0 @F1@ FAM"; "1 HUSB @P2@";
              "1 WIFE @P1@"]%string.

(** A note followed by two continuation lines. *)
Definition note_with_continuations : bytes :=
  crlf_lines ["0 @P2@ INDI"; "1 NOTE This is a note with"; "2 CONT 3";
              "2 CONT lines"; "0 TRLR"]%string.

(** A note whose text holds two bare line feeds inside one CR LF line. *)
Definition note_with_line_feeds : bytes :=
  lit "0 @P2@ INDI" ++ [13; 10]
  ++ lit "1 NOTE This is a note with" ++ [10] ++ lit "3" ++ [10] ++ lit "lines"
  ++ [13; 10] ++ lit "0 TRLR" ++ [13; 10].

(** An individual of sex [s], otherwise as constructed. *)
Definition individual_of_sex (s : string) : Individual :=
  set_sex Individual_init (lit s).

(** What one piece of the stream parses to: [None] for a line that is empty
    after stripping, else its level and the rest of the line. *)
Definition parsed_line (int : str → option Z) (line_bytes : bytes)
  : result (option (Z * str)) :=
  line ← decode_utf8 (bytes_strip line_bytes);
  match line with
  | [] => Ok None
  | _ => p ← parse_level int line; Ok (Some p)
  end.

(** The texts of the level-0 lines among [lines], in order. *)
Definition level0_texts (int : str → option Z) (lines : list bytes) : list str :=
  omap (λ lb, match parsed_line int lb with
              | Ok (Some (level, rest)) => if (level =? 0)%Z then Some rest else None
              | _ => None
              end) lines.

(** The birth and death flags are not both set. *)
Definition flags_exclusive (self : GedcomImport) : Prop :=
  in_birt self && in_deat self = false.

(** [s'] has the graph of [s] and an entity under construction of the same
    kind and identifier. *)
Definition same_entities (s s' : GedcomImport) : Prop :=
  graph s' = graph s
  ∧ ind_identifier <$> individual s' = ind_identifier <$> individual s
  ∧ fam_identifier <$> family s' = fam_identifier <$> family s.

(** The resolved graph of [couple] and of [couple_with_child]. *)
Definition couple_graph : list Node :=
  Eval vm_compute in
    match load int_ascii couple with Ok g => g | Raise _ => [] end.
Definition couple_with_child_graph : list Node :=
  Eval vm_compute in
    match load int_ascii couple_with_child with Ok g => g | Raise _ => [] end.

(** The identifiers of the records opened by the level-0 texts [texts]. *)
Definition records (texts : list str) : list str :=
  record_id <$> List.filter opens_record texts.

(** The parser state accounts for the level-0 texts read so far: at most one
    entity is under construction, the graph holds the records opened before
    the last level-0 text, and the entity under construction is the record
    opened by the last level-0 text, if that opens one. *)
Definition records_invariant (texts : list str) (s : GedcomImport) : Prop :=
  (individual s = None ∨ family s = None)
  ∧ get_identifier <$> graph s = records (removelast texts)
  ∧ get_identifier <$> in_progress s = records (last_list texts).

(** The note of the individual under construction. *)
Definition current_note (s : GedcomImport) : option str :=
  (λ i, note (config i)) <$> individual s.

(** How many line feeds a string holds. *)
Definition line_feeds (s : str) : nat := length (List.filter (N.eqb 10) s).

(** C1 as the specification words it: the returned graph holds one entity
    per record opened in the stream, the last one included. *)
Definition every_record_in_graph (int : str → option Z) (stream : bytes) : Prop :=
  ∀ self' g,
    tokenize_from_stream int GedcomImport_init stream = Ok (self', g) →
    get_identifier <$> g = records (level0_texts int (bytes_split_crlf stream [])).

(** C3 as the specification words it, for a note line followed by
    continuation lines: the stored note is the texts joined by line feeds. *)
Definition note_joins_lines (int : str → option Z) (stream : bytes)
    (texts : list str) : Prop :=
  ∀ self' g,
    tokenize_from_stream int GedcomImport_init stream = Ok (self', g) →
    ∃ i, g = [NIndividual i] ∧ note (config i) = join [10] texts.

(** The identity, standing for the case mappings in examples whose strings
    are pure ASCII (where the parameters are never consulted). *)
Definition unused_case_mapping (s : str) : str := s.

(** C5 as the specification words it: any sex other than M and F, the unset
    one included, is drawn black. *)
Definition other_sex_is_black (upper_ext : str → str) (self : Individual) : Prop :=
  sex self ≠ lit "M" → sex self ≠ lit "F" →
  get_color upper_ext self = Ok (lit "black").

(** The importer after the line that opens individual P2. *)
Definition importer_at_P2 : GedcomImport :=
  handle_level0 GedcomImport_init (lit "@P2@ INDI").

(** A note text of three lines separated by bare line feeds. *)
Definition three_line_text : str :=
  lit "This is a note with" ++ [10] ++ lit "3" ++ [10] ++ lit "lines".

(** [node.resolve(graph)] as a function of the node. *)
Definition resolve_node (g : list Node) (n : Node) : result Node :=
  match n with
  | NIndividual ind => ind' ← Individual_resolve ind g; Ok (NIndividual ind')
  | NFamily fam => fam' ← Family_resolve fam g; Ok (NFamily fam')
  end.

(** C2 as the specification words it: a second resolution of every node
    leaves every reference field as the first one set it. *)
Definition resolve_idempotent (g : list Node) : Prop :=
  ∀ g1 g2,
    resolve_all g = Ok g1 → resolve_all g1 = Ok g2 →
    ∀ i n1 n2, g1 !! i = Some n1 → g2 !! i = Some n2 →
               scalar_refs n2 = scalar_refs n1 ∧ list_refs n2 = list_refs n1.

(** The graph of [couple] as the tokenizer returns it. *)
Definition couple_tokenized : list Node :=
  Eval vm_compute in
    match tokenize_from_stream int_ascii GedcomImport_init couple with
    | Ok (_, g) => g
    | Raise _ => []
    end.

(** The state of the loop of [load] after the first [k] nodes of [g0] have
    been resolved: those nodes are resolved against [g0], the others are as
    they were, and no identifier has changed. *)
Definition resolved_upto (g0 : list Node) (k : nat) (gk : list Node) : Prop :=
  length gk = length g0
  ∧ get_identifier <$> gk = get_identifier <$> g0
  ∧ ∀ i n, g0 !! i = Some n →
      if decide (i < k)%nat
      then ∃ n', gk !! i = Some n' ∧ resolve_node g0 n = Ok n'
      else gk !! i = Some n.

(** The text written for the relationship [p]: source and target named by
    their identifiers. *)
Definition edge_of (g : list Node) (p : ref * ref) : str :=
  edge_text (identifier_at g p.1) (identifier_at g p.2).

(** The end of every edge line: no arrowhead. *)
Definition no_arrowhead : str := lit " [dir=none];" ++ [10].

(** C4 as the specification words it: what is written is the text of edges
    whose two ends are nodes of the subgraph. *)
Definition only_edges_between_members (g : list Node) (subgraph : list ref) : Prop :=
  ∀ out, store_edges g subgraph [] = Ok out →
    ∃ edges : list (ref * ref),
      Forall (λ p, p.1 ∈ subgraph ∧ p.2 ∈ subgraph) edges
      ∧ to_bytes (concat (edge_of g <$> edges)) = Ok out.

(** The depth assignments of one run of the inner loop of [bfs]: every
    newly discovered node gets the depth of [node] plus one. *)
Definition assign_depths (node : ref) (g : list Node) (new : list ref) : list Node :=
  foldl (λ g r, set_depth_at g r (depth_at g node + 1)%Z) g new.

(** [g'] is [g] up to depths: same size, same links, same identifiers. *)
Definition same_links (g g' : list Node) : Prop :=
  length g' = length g
  ∧ ∀ r, neighbours_at g' r = neighbours_at g r
         ∧ identifier_at g' r = identifier_at g r.

(** No other node of [g] carries the identifier of node [r]. *)
Definition identifier_unique (g : list Node) (r : ref) : Prop :=
  ∀ r', (r' < length g)%nat → identifier_at g r' = identifier_at g r → r' = r.

(** Every link of [g] leads to a node of [g] whose identifier is unique:
    what resolution establishes. *)
Definition links_resolved (g : list Node) : Prop :=
  ∀ n r, r ∈ neighbours_at g n → (r < length g)%nat ∧ identifier_unique g r.


(** Two cousins C and D (children of the siblings A and B) marry: their
    grandparents' family F0 is reached from F1 along two paths. *)
Definition cousins_marrying : bytes :=
  crlf_lines ["0 HEAD";
              "0 @A@ INDI"; "1 FAMC @F0@"; "1 FAMS @FA@";
              "0 @B@ INDI"; "1 FAMC @F0@"; "1 FAMS @FB@";
              "0 @C@ INDI"; "1 FAMC @FA@"; "1 FAMS @F1@";
              "0 @D@ INDI"; "1 FAMC @FB@"; "1 FAMS @F1@";
              "0 @F0@ FAM"; "1 CHIL @A@"; "1 CHIL @B@";
              "0 @FA@ FAM"; "1 HUSB @A@"; "1 CHIL @C@";
              "0 @FB@ FAM"; "1 WIFE @B@"; "1 CHIL @D@";
              "0 @F1@ FAM"; "1 HUSB @C@"; "1 WIFE @D@";
              "0 TRLR"]%string.

Definition cousins_tokenized : list Node :=
  Eval vm_compute in
    match tokenize_from_stream int_ascii GedcomImport_init cousins_marrying with
    | Ok (_, g) => g
    | Raise _ => []
    end.

Definition couple_with_child_tokenized : list Node :=
  Eval vm_compute in
    match tokenize_from_stream int_ascii GedcomImport_init couple_with_child with
    | Ok (_, g) => g
    | Raise _ => []
    end.

(** Every node of the importer, in the graph or under construction, is as
    constructed with respect to references and depth. *)
Definition importer_unresolved (s : GedcomImport) : Prop :=
  Forall unresolved (graph s ++ in_progress s).

(** A piece of the stream that the tokenizer passes over: blank after
    stripping, or of a level other than 0, 1 and 2. *)
Definition ignorable (int : str → option Z) (line_bytes : bytes) : bool :=
  match parsed_line int line_bytes with
  | Ok None => true
  | Ok (Some (level, _)) =>
      negb ((level =? 0)%Z || (level =? 1)%Z || (level =? 2)%Z)
  | Raise _ => false
  end.

(** The UTF-8 encoding of the byte order mark. *)
Definition BOM_bytes : bytes := [239; 187; 191].


(** The importer after individual P1 is opened and a first FAMC line read. *)
Definition importer_with_famc : GedcomImport :=
  dispatch (handle_level0 GedcomImport_init (lit "@P1@ INDI")) 1
           (lit "FAMC @F1@").

(** The id [id] is not empty and exactly one node of [g] carries it. *)
Definition resolvable (g : list Node) (id : str) : Prop :=
  id ≠ [] ∧ ∃ r, names g r id ∧ ∀ r', names g r' id → r' = r.

(** A node with its reference fields cleared. *)
Definition erase_refs (n : Node) : Node :=
  match n with
  | NIndividual i => NIndividual (set_fams_list (set_famc i None) [])
  | NFamily f => NFamily (set_child_list (set_husb (set_wife f None) None) [])
  end.

(** A family whose wife id names nobody in [couple_tokenized]. *)
Definition dangling_family : list Node :=
  [NFamily (set_wife_id (fam_set_identifier Family_init (lit "F1")) (lit "P9"))].

(** [b] is a neighbour of [a] in [g]. *)
Definition linked (g : list Node) (a b : nat) : Prop := b ∈ neighbours_at g a.

(** The families of a subgraph, in order. *)
Definition families (g : list Node) (subgraph : list nat) : list Family :=
  omap (λ r, match g !! r with Some (NFamily fam) => Some fam | _ => None end)
       subgraph.

(** The declaration of a family node. *)
Definition family_declaration (fam : Family) : str :=
  fam_identifier fam ++ lit " [shape=point, width=0.1];" ++ [10].

(** The fixed first lines and last line of a document. *)
Definition document_head : str :=
  lit "// Generated by <https://github.com/vmiklos/ged2dot>." ++ [10]
  ++ lit "digraph" ++ [10] ++ lit "{" ++ [10]
  ++ lit "splines = ortho;" ++ [10] ++ [10].
Definition document_tail : str := lit "}" ++ [10].

(** Stands for a file system without image files. *)
Definition no_file (path : bytes) : bool := false.
(** Stands for the directory of any input path in the examples. *)
Definition data_dir (gedcom : str) : result str := Ok (lit "/data").

(** Text that UTF-8 can encode: no surrogate, nothing above U+10FFFF. *)
Definition encodable (s : str) : Prop :=
  Forall (λ c, is_Some (encode_char c)) s.

(** The texts of a node that the export writes. *)
Definition written_texts (n : Node) : list str :=
  match n with
  | NIndividual i =>
      [ind_identifier i; forename i; surname i; sex i;
       birth (config i); death (config i)]
  | NFamily f => [fam_identifier f]
  end.
Definition encodable_node (n : Node) : Prop := Forall encodable (written_texts n).

(** The importer holds encodable text only, in its graph and in the entity
    under construction. *)
Definition importer_encodable (s : GedcomImport) : Prop :=
  Forall encodable_node (graph s ++ in_progress s).

(** The configuration of the worked conversions. *)
Definition couple_config (root : string) : gmap str str :=
  {[ lit "input" := lit "-"; lit "output" := lit "-";
     lit "rootfamily" := lit root; lit "familydepth" := lit "0" ]}.

(** Node [r] of [g] is a family. *)
Definition is_family (g : list Node) (r : nat) : bool :=
  match g !! r with Some (NFamily _) => true | _ => false end.

(** The links of [g] alternate: those of a family lead to individuals and
    those of an individual lead to families. *)
Definition alternating (g : list Node) : Prop :=
  ∀ r r', r' ∈ neighbours_at g r → is_family g r' = negb (is_family g r).

(** Both ends of every relationship that the edge writer walks through are
    nodes of the subgraph. *)
Definition edges_inside (g : list Node) (subgraph : list nat) : Prop :=
  Forall (λ p, p.1 ∈ subgraph ∧ p.2 ∈ subgraph) (relationships g subgraph).

(** A malformed text: family F1 lists the family F2 as its child. *)
Definition family_as_child : bytes :=
  crlf_lines ["0 @P1@ INDI"; "0 @P2@ INDI"; "0 @F1@ FAM"; "1 HUSB @P1@";
              "1 CHIL @F2@"; "0 @F2@ FAM"; "1 CHIL @P2@"; "0 TRLR"]%string.
Definition family_as_child_graph : list Node :=
  Eval vm_compute in
    match load int_ascii family_as_child with Ok g => g | Raise _ => [] end.

(** * Properties *)

(** ** The result monad and the loop combinator *)

Lemma bind_Ok {A B} (f : A → result B) (m : result A) (b : B) :
  (m ≫= f) = Ok b → ∃ a, m = Ok a ∧ f a = Ok b.
Proof. destruct m as [a|e]; simpl; [eauto | discriminate]. Qed.

Lemma for_each_app {S A} (body : S → A → result S) (xs ys : list A) (st : S) :
  for_each body (xs ++ ys) st = (for_each body xs st ≫= for_each body ys).
Proof.
  revert st. induction xs as [|x xs IH]; intros st; simpl; [done|].
  destruct (body st x) as [st'|e]; simpl; [apply IH | done].
Qed.

(** A loop invariant indexed by the elements consumed so far. *)
Lemma for_each_invariant {S A} (body : S → A → result S) (P : list A → S → Prop)
    (xs : list A) (st st' : S) :
  P [] st →
  (∀ done x s s', P done s → body s x = Ok s' → P (done ++ [x]) s') →
  for_each body xs st = Ok st' →
  P xs st'.
Proof.
  intros H0 Hstep. revert st st' H0.
  assert (∀ done st st', P done st → for_each body xs st = Ok st' →
                         P (done ++ xs) st') as Hgen.
  { induction xs as [|x xs IH]; intros done st st' HP Hrun; simpl in Hrun.
    - inversion Hrun; subst. by rewrite app_nil_r.
    - apply bind_Ok in Hrun as (s1 & Hb & Hrun).
      replace (done ++ x :: xs) with ((done ++ [x]) ++ xs)
        by (by rewrite <- app_assoc).
      eapply IH; eauto. }
  intros st st' H0 Hrun. apply (Hgen [] st st' H0 Hrun).
Qed.

(** ** Lookup by identifier *)

Lemma str_eqb_eq (a b : str) : str_eqb a b = true ↔ a = b.
Proof. unfold str_eqb. apply bool_decide_eq_true. Qed.

Lemma elem_of_find_from (k : nat) (g : list Node) (id : str) (r : ref) :
  r ∈ find_from k g id ↔ (k ≤ r)%nat ∧ names g (r - k)%nat id.
Proof.
  revert k. induction g as [|n g IH]; intros k; simpl.
  - split; [by intros ?%elem_of_nil|]. intros [_ (n & Hn & _)]. done.
  - unfold names in *. destruct (str_eqb (get_identifier n) id) eqn:E.
    + rewrite elem_of_cons, IH. apply str_eqb_eq in E. split.
      * intros [->|[Hle (m & Hm & Hid)]].
        -- split; [lia|]. exists n. by rewrite Nat.sub_diag.
        -- split; [lia|]. exists m. split; [|done].
           replace (r - k)%nat with (S (r - S k)) by lia. done.
      * intros [Hle (m & Hm & Hid)].
        destruct (decide (r = k)) as [->|Hne]; [by left|right].
        split; [lia|]. exists m. split; [|done].
        replace (r - k)%nat with (S (r - S k)) in Hm by lia. done.
    + rewrite IH. split.
      * intros [Hle (m & Hm & Hid)]. split; [lia|]. exists m. split; [|done].
        replace (r - k)%nat with (S (r - S k)) by lia. done.
      * intros [Hle (m & Hm & Hid)].
        destruct (decide (r = k)) as [->|Hne].
        -- rewrite Nat.sub_diag in Hm. simpl in Hm. inversion Hm; subst.
           apply not_true_iff_false in E. by rewrite str_eqb_eq in E.
        -- split; [lia|]. exists m. split; [|done].
           replace (r - k)%nat with (S (r - S k)) in Hm by lia. done.
Qed.

Lemma find_from_NoDup (k : nat) (g : list Node) (id : str) :
  NoDup (find_from k g id).
Proof.
  revert k. induction g as [|n g IH]; intros k; simpl; [constructor|].
  destruct (str_eqb _ _); [|apply IH].
  constructor; [|apply IH]. rewrite elem_of_find_from. lia.
Qed.

Lemma elem_of_find (g : list Node) (id : str) (r : ref) :
  r ∈ find_from 0 g id ↔ names g r id.
Proof. rewrite elem_of_find_from, Nat.sub_0_r. intuition lia. Qed.

(** [graph_find] reads nothing but the identifiers of the graph. *)
Lemma find_from_identifiers (k : nat) (g g' : list Node) (id : str) :
  get_identifier <$> g = get_identifier <$> g' →
  find_from k g id = find_from k g' id.
Proof.
  revert k g'. induction g as [|n g IH]; intros k [|n' g'] H; simpl in *;
    try done.
  inversion H as [[Hn Hg]]. rewrite Hn, (IH (S k) g' Hg). done.
Qed.

Lemma graph_find_identifiers (g g' : list Node) (id : str) :
  get_identifier <$> g = get_identifier <$> g' →
  graph_find g id = graph_find g' id.
Proof.
  intros H. unfold graph_find. by rewrite (find_from_identifiers 0 g g' id H).
Qed.

Lemma graph_find_Some (g : list Node) (id : str) (r : ref) :
  graph_find g id = Ok (Some r) →
  id ≠ [] ∧ names g r id ∧ ∀ r', names g r' id → r' = r.
Proof.
  unfold graph_find. destruct id as [|c id]; [discriminate|].
  destruct (find_from 0 g (c :: id)) as [|r0 [|r1 l]] eqn:E; try discriminate.
  intros [= ->]. split; [done|]. split.
  - apply elem_of_find. rewrite E. by left.
  - intros r' Hr'. apply elem_of_find in Hr'. rewrite E in Hr'.
    by apply list_elem_of_singleton in Hr'.
Qed.

(** C8.  [graph_find] yields no reference, without error, for the empty id;
    for a non-empty id it returns the node carrying it when exactly one node
    does, and fails its assertion when none or when two different nodes do. *)
Theorem graph_find_contract (g : list Node) (id : str) :
  (id = [] → graph_find g id = Ok None)
  ∧ (id ≠ [] → ∀ r, names g r id → (∀ r', names g r' id → r' = r) →
     graph_find g id = Ok (Some r))
  ∧ (id ≠ [] → (∀ r, ¬ names g r id) → graph_find g id = Raise AssertionError)
  ∧ (id ≠ [] → ∀ r r', r ≠ r' → names g r id → names g r' id →
     graph_find g id = Raise AssertionError).
Proof.
  split; [by intros ->|].
  assert (∀ c s, graph_find g (c :: s) =
                 match find_from 0 g (c :: s) with
                 | [r] => Ok (Some r) | _ => Raise AssertionError end) as Hgf
    by done.
  pose proof (find_from_NoDup 0 g id) as Hnd.
  repeat split; intros Hne; (destruct id as [|c s]; [done|]); rewrite Hgf.
  - intros r Hr Huniq. apply elem_of_find in Hr.
    destruct (find_from 0 g (c :: s)) as [|r0 [|r1 l]] eqn:E.
    + by apply elem_of_nil in Hr.
    + apply list_elem_of_singleton in Hr. by subst.
    + exfalso. apply NoDup_cons in Hnd as [Hnotin _]. apply Hnotin.
      assert (r0 = r) as -> by (apply Huniq, elem_of_find; rewrite E; by left).
      assert (r1 = r) as ->
        by (apply Huniq, elem_of_find; rewrite E; right; by left).
      by left.
  - intros Hnone. destruct (find_from 0 g (c :: s)) as [|r0 l] eqn:E; [done|].
    exfalso. apply (Hnone r0), elem_of_find. rewrite E. by left.
  - intros r r' Hrr Hr Hr'. apply elem_of_find in Hr, Hr'.
    destruct (find_from 0 g (c :: s)) as [|r0 [|r1 l]] eqn:E; try done.
    apply list_elem_of_singleton in Hr, Hr'. congruence.
Qed.

Lemma graph_find_contract_witness :
  graph_find couple_graph [] = Ok None
  ∧ graph_find couple_graph (lit "F1") = Ok (Some 2%nat).
Proof.
  split.
  - apply (graph_find_contract couple_graph []). reflexivity.
  - apply (graph_find_contract couple_graph (lit "F1")).
    + discriminate.
    + eexists. split; reflexivity.
    + intros r' (n & Hn & Hid).
      destruct r' as [|[|[|r']]]; simpl in Hn; try discriminate;
        injection Hn as <-; vm_compute in Hid; try discriminate; reflexivity.
Defined.

(** ** The parser: one line at a time *)

Lemma handle_line_parsed (int : str → option Z) (self : GedcomImport) (lb : bytes) :
  handle_line int self lb =
  (p ← parsed_line int lb;
   Ok (match p with
       | None => self
       | Some (level, rest) => dispatch self level rest
       end)).
Proof.
  unfold handle_line, parsed_line.
  destruct (decode_utf8 (bytes_strip lb)) as [[|c line]|e]; simpl; try done.
  destruct (parse_level int (c :: line)) as [[level rest]|e]; done.
Qed.

Lemma same_entities_refl (s : GedcomImport) : same_entities s s.
Proof. by repeat split. Qed.

Lemma same_entities_trans (s1 s2 s3 : GedcomImport) :
  same_entities s1 s2 → same_entities s2 s3 → same_entities s1 s3.
Proof. intros (?&?&?) (?&?&?). repeat split; congruence. Qed.

Lemma update_individual_same (s : GedcomImport) (f : Individual → Individual) :
  (∀ i, ind_identifier (f i) = ind_identifier i) →
  same_entities s (update_individual s f).
Proof.
  intros Hf. unfold update_individual.
  destruct (individual s) as [i|] eqn:E; [|apply same_entities_refl].
  split; [done|]. split; simpl; [|done]. by rewrite E, Hf.
Qed.

Lemma update_family_same (s : GedcomImport) (f : Family → Family) :
  (∀ fam, fam_identifier (f fam) = fam_identifier fam) →
  same_entities s (update_family s f).
Proof.
  intros Hf. unfold update_family.
  destruct (family s) as [fam|] eqn:E; [|apply same_entities_refl].
  split; [done|]. split; simpl; [done|]. by rewrite E, Hf.
Qed.

Lemma reset_flags_same (s : GedcomImport) : same_entities s (reset_flags s).
Proof. unfold reset_flags. repeat case_match; by repeat split. Qed.

Lemma handle_individual_config_same (s : GedcomImport) (line : str) :
  same_entities s (handle_individual_config s line).
Proof.
  unfold handle_individual_config.
  repeat case_match; try (by repeat split).
  by apply update_individual_same.
Qed.

Lemma if_elim {A} (P : A → Prop) (c : bool) (a b : A) :
  (c = true → P a) → (c = false → P b) → P (if c then a else b).
Proof. destruct c; auto. Qed.

(** Walks down the [if] chain of a handler, one condition at a time. *)
Ltac chain_of_ifs P := cbv zeta; repeat (apply (if_elim P); intros _).

Lemma handle_level1_same (s : GedcomImport) (line : str) :
  same_entities s (handle_level1 s line).
Proof.
  unfold handle_level1.
  eapply same_entities_trans; [apply reset_flags_same|].
  generalize (reset_flags s). intros t.
  chain_of_ifs (same_entities t);
    try apply same_entities_refl;
    try apply handle_individual_config_same;
    try (apply update_individual_same; intros i; simpl; by try case_match);
    try (apply update_family_same; by intros fam);
    try (by repeat split).
  eapply same_entities_trans; by apply update_individual_same.
Qed.

Lemma handle_level2_same (s : GedcomImport) (rest : str) :
  same_entities s (handle_level2 s rest).
Proof.
  unfold handle_level2.
  repeat case_match; try apply same_entities_refl;
    by apply update_individual_same.
Qed.

(** ** The birth and death flags *)

Lemma handle_level0_flags (s : GedcomImport) (line : str) :
  in_birt (handle_level0 s line) = in_birt s
  ∧ in_deat (handle_level0 s line) = in_deat s.
Proof. unfold handle_level0. by repeat case_match. Qed.

Lemma update_individual_flags (s : GedcomImport) (f : Individual → Individual) :
  in_birt (update_individual s f) = in_birt s
  ∧ in_deat (update_individual s f) = in_deat s.
Proof. unfold update_individual. by case_match. Qed.

Lemma update_family_flags (s : GedcomImport) (f : Family → Family) :
  in_birt (update_family s f) = in_birt s
  ∧ in_deat (update_family s f) = in_deat s.
Proof. unfold update_family. by case_match. Qed.

Lemma handle_level2_flags (s : GedcomImport) (rest : str) :
  in_birt (handle_level2 s rest) = in_birt s
  ∧ in_deat (handle_level2 s rest) = in_deat s.
Proof.
  unfold handle_level2.
  chain_of_ifs (λ u, in_birt u = in_birt s ∧ in_deat u = in_deat s);
    try done; apply update_individual_flags.
Qed.

(** After [reset_flags] on exclusive flags, both are clear. *)
Lemma reset_flags_clear (s : GedcomImport) :
  flags_exclusive s →
  in_birt (reset_flags s) = false ∧ in_deat (reset_flags s) = false.
Proof.
  unfold flags_exclusive, reset_flags.
  destruct (in_birt s) eqn:Eb, (in_deat s) eqn:Ed; simpl; try done.
Qed.

Lemma handle_individual_config_flags (s : GedcomImport) (line : str) :
  in_birt s = false → in_deat s = false →
  flags_exclusive (handle_individual_config s line).
Proof.
  intros Hb Hd. unfold handle_individual_config, flags_exclusive.
  repeat case_match; simpl; rewrite ?Hb, ?Hd; try done.
  destruct (update_individual_flags s
    (λ i, set_config i (set_note (config i) (slice line (Some 5%Z) None))))
    as [-> ->].
  by rewrite Hb.
Qed.

Lemma handle_level1_flags (s : GedcomImport) (line : str) :
  flags_exclusive s → flags_exclusive (handle_level1 s line).
Proof.
  intros [Hb Hd]%reset_flags_clear. unfold handle_level1.
  revert Hb Hd. generalize (reset_flags s). intros t Hb Hd.
  assert (flags_exclusive t) as Ht by (unfold flags_exclusive; by rewrite Hb).
  assert (∀ u f, flags_exclusive u → flags_exclusive (update_individual u f)) as Hi.
  { intros u f Hu. unfold flags_exclusive.
    by destruct (update_individual_flags u f) as [-> ->]. }
  assert (∀ f, flags_exclusive (update_family t f)) as Hf.
  { intros f. unfold flags_exclusive.
    by destruct (update_family_flags t f) as [-> ->]. }
  pose proof (handle_individual_config_flags t line Hb Hd) as Hc.
  revert Hc. generalize (handle_individual_config t line). intros c Hc.
  chain_of_ifs flags_exclusive; auto.
Qed.

Lemma dispatch_flags (int : str → option Z) (s : GedcomImport) (level : Z) (rest : str) :
  flags_exclusive s → flags_exclusive (dispatch s level rest).
Proof.
  intros Hs. unfold dispatch. repeat case_match; try done.
  - unfold flags_exclusive. by destruct (handle_level0_flags s rest) as [-> ->].
  - by apply handle_level1_flags.
  - unfold flags_exclusive. by destruct (handle_level2_flags s rest) as [-> ->].
Qed.

Lemma handle_line_flags (int : str → option Z) (s s' : GedcomImport) (lb : bytes) :
  flags_exclusive s → handle_line int s lb = Ok s' → flags_exclusive s'.
Proof.
  intros Hs. rewrite handle_line_parsed.
  intros ([[level rest]|] & _ & [= <-])%bind_Ok; [|done].
  by apply dispatch_flags.
Qed.

(** Replaces the closed literals of the goal by their code points. *)
Ltac eval_lits :=
  repeat match goal with
         | |- context [lit ?s] =>
             let v := eval vm_compute in (lit s) in change (lit s) with v
         end.

Ltac eval_lits_in H :=
  repeat match type of H with
         | context [lit ?s] =>
             let v := eval vm_compute in (lit s) in change (lit s) with v in H
         end.

(** C9.  After any prefix of the lines of a stream has been processed, the
    birth and death flags are not both set; a level-1 BIRT line leaves only
    the birth flag set and a level-1 DEAT line only the death flag: what was
    set before is cleared first. *)
Theorem birth_death_flags_exclusive (int : str → option Z) (stream : bytes)
    (processed : list bytes) (s : GedcomImport) :
  processed `prefix_of` bytes_split_crlf stream [] →
  for_each (handle_line int) processed GedcomImport_init = Ok s →
  flags_exclusive s
  ∧ (∀ line, first_of (split_on 32 line) = lit "BIRT" →
       in_birt (handle_level1 s line) = true
       ∧ in_deat (handle_level1 s line) = false)
  ∧ (∀ line, first_of (split_on 32 line) = lit "DEAT" →
       in_birt (handle_level1 s line) = false
       ∧ in_deat (handle_level1 s line) = true).
Proof.
  intros _ Hrun.
  assert (flags_exclusive s) as Hs.
  { apply (for_each_invariant (handle_line int) (λ _, flags_exclusive)
             processed GedcomImport_init s); [done| |done].
    intros _ lb s1 s2 H1 H2. by eapply handle_line_flags. }
  split; [done|].
  destruct (reset_flags_clear s Hs) as [Hb Hd].
  split; intros line Hline; unfold handle_level1, handle_individual_config;
    rewrite Hline; revert Hb Hd; generalize (reset_flags s); intros t Hb Hd;
    eval_lits; simpl; by rewrite ?Hb, ?Hd.
Qed.

Lemma birth_death_flags_exclusive_witness :
  ∃ s, for_each (handle_line int_ascii)
         [lit "0 @P1@ INDI"; lit "1 DEAT"; lit "2 DATE 1 JAN 1980"]
         GedcomImport_init = Ok s
       ∧ flags_exclusive s
       ∧ in_birt (handle_level1 s (lit "BIRT")) = true
       ∧ in_deat (handle_level1 s (lit "BIRT")) = false.
Proof.
  destruct (for_each (handle_line int_ascii)
              [lit "0 @P1@ INDI"; lit "1 DEAT"; lit "2 DATE 1 JAN 1980"]
              GedcomImport_init) as [s|e] eqn:E; [|vm_compute in E; discriminate].
  exists s. split; [done|].
  destruct (birth_death_flags_exclusive int_ascii
              (crlf_lines ["0 @P1@ INDI"; "1 DEAT"; "2 DATE 1 JAN 1980";
                           "0 TRLR"]%string)
              [lit "0 @P1@ INDI"; lit "1 DEAT"; lit "2 DATE 1 JAN 1980"] s)
    as (H1 & H2 & _).
  - exists [lit "0 TRLR"; []]. vm_compute. reflexivity.
  - exact E.
  - split; [exact H1|]. apply H2. vm_compute. reflexivity.
Defined.

(** ** Records: what reaches the graph and when *)

Lemma removelast_last_list {A} (l : list A) : removelast l ++ last_list l = l.
Proof.
  destruct l as [|x l'] using rev_ind; [done|].
  unfold last_list. by rewrite removelast_last, last_snoc.
Qed.

Lemma records_app (a b : list str) : records (a ++ b) = records a ++ records b.
Proof. unfold records. by rewrite List.filter_app, fmap_app. Qed.

Lemma in_progress_same (s s' : GedcomImport) :
  same_entities s s' →
  get_identifier <$> in_progress s' = get_identifier <$> in_progress s
  ∧ (individual s = None ∨ family s = None →
     individual s' = None ∨ family s' = None).
Proof.
  intros (_ & Hi & Hf). unfold in_progress.
  destruct (individual s) as [i|], (individual s') as [i'|];
    simpl in Hi; try discriminate;
    destruct (family s) as [f|], (family s') as [f'|];
    simpl in Hf; try discriminate;
    try (injection Hi as Hi); try (injection Hf as Hf);
    simpl; (split; [congruence|]); intros [?|?]; try discriminate; auto.
Qed.

Lemma records_invariant_same (texts : list str) (s s' : GedcomImport) :
  same_entities s s' → records_invariant texts s → records_invariant texts s'.
Proof.
  intros Hsame (Hone & Hg & Hp).
  destruct (in_progress_same s s' Hsame) as [Hids Hone'].
  destruct Hsame as (Hgraph & _ & _).
  split; [by apply Hone'|]. split; [by rewrite Hgraph|by rewrite Hids].
Qed.

(** A level-0 line appends what was under construction and opens at most one
    new entity. *)
Lemma handle_level0_graph (s : GedcomImport) (line : str) :
  graph (handle_level0 s line) = graph s ++ in_progress s.
Proof.
  unfold handle_level0, in_progress.
  destruct (individual s) as [i|] eqn:Ei, (family s) as [f|] eqn:Ef;
    cbn [individual family set_individual set_family graph_append graph];
    rewrite ?Ef;
    cbn [individual family set_individual set_family graph_append graph];
    repeat case_match; simpl; rewrite <- ?app_assoc, ?app_nil_r; reflexivity.
Qed.

Lemma handle_level0_in_progress (s : GedcomImport) (line : str) :
  (individual (handle_level0 s line) = None
   ∨ family (handle_level0 s line) = None)
  ∧ get_identifier <$> in_progress (handle_level0 s line) = records [line].
Proof.
  destruct (startswith line (lit "@")) eqn:E0,
    (endswith line (lit "INDI")) eqn:E1, (endswith line (lit "FAM")) eqn:E2;
    unfold handle_level0, in_progress, records, record_id, opens_record,
      opens_family, opens_individual;
    cbn [List.filter]; rewrite ?E0, ?E1, ?E2; cbn [andb negb orb];
    destruct (individual s) as [i|] eqn:Ei, (family s) as [f|] eqn:Ef;
    cbn [individual family set_individual set_family graph_append graph];
    rewrite ?Ef;
    cbn [individual family set_individual set_family graph_append graph];
    simpl; rewrite ?E0, ?E1, ?E2, ?Ei, ?Ef; simpl; auto.
Qed.

Lemma handle_level0_invariant (texts : list str) (s : GedcomImport) (line : str) :
  records_invariant texts s →
  records_invariant (texts ++ [line]) (handle_level0 s line).
Proof.
  intros (_ & Hg & Hp). destruct (handle_level0_in_progress s line) as [H1 H2].
  split; [done|]. split.
  - rewrite removelast_last, handle_level0_graph, fmap_app, Hg, Hp.
    by rewrite <- records_app, removelast_last_list.
  - unfold last_list. by rewrite last_snoc.
Qed.

Lemma dispatch_invariant (int : str → option Z) (texts : list str)
    (s : GedcomImport) (level : Z) (rest : str) :
  records_invariant texts s →
  records_invariant (texts ++ (if (level =? 0)%Z then [rest] else []))
                    (dispatch s level rest).
Proof.
  intros Hs. unfold dispatch. destruct (level =? 0)%Z.
  - by apply handle_level0_invariant.
  - rewrite app_nil_r. repeat case_match; try done.
    + eapply records_invariant_same; [apply handle_level1_same|done].
    + eapply records_invariant_same; [apply handle_level2_same|done].
Qed.

Lemma level0_texts_snoc (int : str → option Z) (done : list bytes) (lb : bytes) :
  level0_texts int (done ++ [lb]) =
  level0_texts int done ++ level0_texts int [lb].
Proof. unfold level0_texts. apply omap_app. Qed.

Lemma handle_line_invariant (int : str → option Z) (done : list bytes)
    (s s' : GedcomImport) (lb : bytes) :
  records_invariant (level0_texts int done) s →
  handle_line int s lb = Ok s' →
  records_invariant (level0_texts int (done ++ [lb])) s'.
Proof.
  intros Hs. rewrite handle_line_parsed, level0_texts_snoc.
  intros (p & Hp & [= <-])%bind_Ok.
  unfold level0_texts at 2. simpl. rewrite Hp.
  destruct p as [[level rest]|]; simpl.
  - pose proof (dispatch_invariant int _ s level rest Hs) as H.
    by destruct (level =? 0)%Z.
  - by rewrite app_nil_r.
Qed.

Lemma run_invariant (int : str → option Z) (lines : list bytes) (s : GedcomImport) :
  for_each (handle_line int) lines GedcomImport_init = Ok s →
  records_invariant (level0_texts int lines) s.
Proof.
  apply (for_each_invariant (handle_line int)
           (λ done s, records_invariant (level0_texts int done) s)).
  - by repeat split; auto.
  - intros done lb s1 s2. apply handle_line_invariant.
Qed.

(** What a line does to the graph: nothing, or it appends the one entity
    that was under construction. *)
Lemma handle_line_graph (int : str → option Z) (s s' : GedcomImport) (lb : bytes) :
  individual s = None ∨ family s = None →
  handle_line int s lb = Ok s' →
  graph s' = graph s ∨ ∃ n, in_progress s = [n] ∧ graph s' = graph s ++ [n].
Proof.
  intros Hone. rewrite handle_line_parsed.
  intros (p & _ & [= <-])%bind_Ok.
  destruct p as [[level rest]|]; [|by left]. unfold dispatch.
  repeat case_match.
  - rewrite handle_level0_graph. unfold in_progress.
    destruct Hone as [-> | ->]; simpl.
    + destruct (family s); simpl; [right; eauto|left; by rewrite app_nil_r].
    + destruct (individual s); simpl; [right; eauto|left; by rewrite app_nil_r].
  - left. apply handle_level1_same.
  - left. apply handle_level2_same.
  - by left.
Qed.

Lemma tokenize_run (int : str → option Z) (stream : bytes) (self' : GedcomImport)
    (g : list Node) :
  tokenize_from_stream int GedcomImport_init stream = Ok (self', g) →
  for_each (handle_line int) (bytes_split_crlf stream []) GedcomImport_init
    = Ok self'
  ∧ g = graph self'.
Proof.
  unfold tokenize_from_stream. intros (s & Hrun & [= <- <-])%bind_Ok. done.
Qed.

(** C1, as the code has it.  Nothing is finalized at the end of the stream:
    the returned graph holds, in order, the records opened by a level-0 line
    that a later level-0 line follows; the record opened by the last level-0
    line of the stream stays under construction in the importer and is not
    in the returned graph. *)
Theorem tokenize_returns_closed_records (int : str → option Z) (stream : bytes)
    (self' : GedcomImport) (g : list Node) :
  tokenize_from_stream int GedcomImport_init stream = Ok (self', g) →
  g = graph self'
  ∧ get_identifier <$> g =
      records (removelast (level0_texts int (bytes_split_crlf stream [])))
  ∧ get_identifier <$> in_progress self' =
      records (last_list (level0_texts int (bytes_split_crlf stream []))).
Proof.
  intros [Hrun ->]%tokenize_run. split; [done|].
  by destruct (run_invariant int _ _ Hrun) as (_ & Hg & Hp).
Qed.

Lemma tokenize_returns_closed_records_witness :
  ∃ self' g,
    tokenize_from_stream int_ascii GedcomImport_init couple = Ok (self', g)
    ∧ get_identifier <$> g = [lit "P1"; lit "P2"; lit "F1"]
    ∧ in_progress self' = [].
Proof.
  destruct (tokenize_from_stream int_ascii GedcomImport_init couple)
    as [[self' g]|e] eqn:E; [|vm_compute in E; discriminate].
  exists self', g. split; [done|].
  destruct (tokenize_returns_closed_records int_ascii couple self' g E)
    as (_ & Hg & Hp).
  split.
  - rewrite Hg. vm_compute. reflexivity.
  - vm_compute in E. injection E as <- <-. reflexivity.
Defined.

(** C1 as worded fails: cut before its trailer, the text opens three records
    and the returned graph holds the first two; the family is lost. *)
Lemma last_record_not_in_graph :
  ¬ every_record_in_graph int_ascii couple_no_trailer.
Proof.
  intros H.
  destruct (tokenize_from_stream int_ascii GedcomImport_init couple_no_trailer)
    as [[self' g]|e] eqn:E; [|vm_compute in E; discriminate].
  specialize (H self' g E).
  vm_compute in E. injection E as <- <-. vm_compute in H. discriminate.
Qed.

(** C10.  After any prefix of the lines of a stream has been processed, the
    importer's individual and family are not both set; the graph followed by
    the entity under construction lists the records opened so far in their
    order of appearance; and the next line leaves the graph as it is or
    appends the one entity under construction. *)
Theorem one_entity_under_construction (int : str → option Z) (stream : bytes)
    (processed : list bytes) (s : GedcomImport) :
  processed `prefix_of` bytes_split_crlf stream [] →
  for_each (handle_line int) processed GedcomImport_init = Ok s →
  (individual s = None ∨ family s = None)
  ∧ get_identifier <$> (graph s ++ in_progress s) =
      records (level0_texts int processed)
  ∧ (∀ lb s', handle_line int s lb = Ok s' →
       graph s' = graph s
       ∨ ∃ n, in_progress s = [n] ∧ graph s' = graph s ++ [n]).
Proof.
  intros _ Hrun. destruct (run_invariant int _ _ Hrun) as (Hone & Hg & Hp).
  split; [done|]. split.
  - by rewrite fmap_app, Hg, Hp, <- records_app, removelast_last_list.
  - intros lb s'. by apply handle_line_graph.
Qed.

Lemma one_entity_under_construction_witness :
  ∃ s, for_each (handle_line int_ascii)
         [lit "0 @P1@ INDI"; lit "1 SEX F"; lit "0 @F1@ FAM"]
         GedcomImport_init = Ok s
       ∧ individual s = None
       ∧ get_identifier <$> (graph s ++ in_progress s) = [lit "P1"; lit "F1"].
Proof.
  destruct (for_each (handle_line int_ascii)
              [lit "0 @P1@ INDI"; lit "1 SEX F"; lit "0 @F1@ FAM"]
              GedcomImport_init) as [s|e] eqn:E; [|vm_compute in E; discriminate].
  exists s. split; [done|].
  destruct (one_entity_under_construction int_ascii
              (crlf_lines ["0 @P1@ INDI"; "1 SEX F"; "0 @F1@ FAM"; "1 HUSB @P2@"]%string)
              [lit "0 @P1@ INDI"; lit "1 SEX F"; lit "0 @F1@ FAM"] s)
    as (_ & Hids & _).
  - exists [lit "1 HUSB @P2@"; []]. vm_compute. reflexivity.
  - exact E.
  - split.
    + vm_compute in E. injection E as <-. reflexivity.
    + rewrite Hids. vm_compute. reflexivity.
Defined.

(** ** Notes *)

Lemma slice_from_5 {A} (a b c d e : A) (t : list A) :
  slice (a :: b :: c :: d :: e :: t) (Some 5%Z) None = t.
Proof.
  unfold slice, slice_bound. simpl length.
  change (5 <? 0)%Z with false. cbv iota.
  replace (Nat.min (Z.to_nat 5) (S (S (S (S (S (length t)))))))
    with 5%nat by lia.
  simpl drop. replace (S (S (S (S (S (length t))))) - 5)%nat with (length t) by lia.
  apply firstn_all.
Qed.

Lemma update_individual_note (s : GedcomImport) (f : Individual → Individual) :
  (∀ i, note (config (f i)) = note (config i)) →
  current_note (update_individual s f) = current_note s.
Proof.
  intros Hf. unfold current_note, update_individual.
  destruct (individual s) as [i|] eqn:E; simpl; rewrite ?E; simpl;
    [by rewrite Hf|done].
Qed.

Lemma handle_level2_note (s : GedcomImport) (rest : str) :
  current_note (handle_level2 s rest) = current_note s.
Proof.
  unfold handle_level2.
  repeat case_match; try done; by apply update_individual_note.
Qed.

Lemma reset_flags_individual (s : GedcomImport) :
  individual (reset_flags s) = individual s.
Proof. unfold reset_flags. by repeat case_match. Qed.

Lemma handle_level1_note (s : GedcomImport) (i : Individual) (text : str) :
  individual s = Some i →
  current_note (handle_level1 s (lit "NOTE " ++ text)) = Some text.
Proof.
  intros Hi. unfold handle_level1, handle_individual_config.
  pose proof (reset_flags_individual s) as Hr. rewrite Hi in Hr.
  revert Hr. generalize (reset_flags s). intros t Ht.
  eval_lits. simpl app. simpl split_on.
  destruct (split_on 32 text) as [|w ws] eqn:E; simpl first_of;
    unfold str_eqb;
    repeat (rewrite bool_decide_eq_false_2 by discriminate);
    rewrite bool_decide_eq_true_2 by reflexivity;
    rewrite Ht; simpl; unfold current_note, update_individual; rewrite Ht;
    simpl; by rewrite slice_from_5.
Qed.

(** The three lines of a note survive when they are separated by bare line
    feeds inside one CR LF terminated line. *)
Lemma note_with_line_feeds_kept :
  ∃ self' i,
    tokenize_from_stream int_ascii GedcomImport_init note_with_line_feeds
      = Ok (self', [NIndividual i])
    ∧ note (config i) = three_line_text
    ∧ line_feeds (note (config i)) = 2%nat.
Proof. do 2 eexists. split; [vm_compute; reflexivity|]. by vm_compute. Qed.

(** C3 as worded fails: continuation lines are not appended; the note of
    the three-line record is its first line only. *)
Lemma continuation_lines_not_appended :
  ¬ note_joins_lines int_ascii note_with_continuations
      [lit "This is a note with"; lit "3"; lit "lines"].
Proof.
  intros H.
  destruct (tokenize_from_stream int_ascii GedcomImport_init
              note_with_continuations) as [[self' g]|e] eqn:E;
    [|vm_compute in E; discriminate].
  destruct (H self' g E) as (i & -> & Hnote).
  vm_compute in E. injection E as _ <-. vm_compute in Hnote. discriminate.
Qed.

(** ** Colour and label *)

Lemma contains_refl (s : str) : contains s s.
Proof. exists [], []. by rewrite app_nil_r. Qed.

Lemma contains_app_l (a s sub : str) : contains s sub → contains (a ++ s) sub.
Proof. intros (x & y & ->). exists (a ++ x), y. by rewrite <- app_assoc. Qed.

Lemma contains_app_r (b s sub : str) : contains s sub → contains (s ++ b) sub.
Proof.
  intros (x & y & ->). exists x, (y ++ b). by rewrite <- !app_assoc.
Qed.

Ltac find_contains :=
  solve [ apply contains_refl
        | apply contains_app_l; find_contains
        | apply contains_app_r; find_contains ].

Lemma color_table_other (k : str) :
  k ≠ lit "M" → k ≠ lit "F" → k ≠ lit "U" → color_table !! k = None.
Proof.
  intros HM HF HU. unfold color_table.
  rewrite !lookup_insert_ne by done. apply lookup_empty.
Qed.

Lemma placeholder_path_contains (module_dir sexc : str) :
  contains (get_abspath module_dir (lit "placeholder-" ++ sexc ++ lit ".png"))
           (lit "placeholder-" ++ sexc ++ lit ".png").
Proof.
  unfold get_abspath, path_join.
  repeat case_match; find_contains.
Qed.

Lemma ascii_upper_inv (c k : N) :
  ascii_upper c = k → c = k ∨ c = k + 32.
Proof.
  unfold ascii_upper, in_range.
  destruct (N.leb_spec 97 c), (N.leb_spec c 122); simpl; lia.
Qed.

(** The only ASCII strings whose upper-case form is a given single letter
    are that letter and its lower-case form. *)
Lemma upper_single_inv (upper_ext : str → str) (s : str) (k : N) :
  isascii s = true → upper upper_ext s = [k] → s = [k] ∨ s = [k + 32].
Proof.
  intros Ha. unfold upper. rewrite Ha.
  destruct s as [|c [|c' s]]; try done.
  intros [= H]. apply ascii_upper_inv in H as [->| ->]; auto.
Qed.

(** C5, as the code has it.  [get_color] upper-cases the sex and looks it up
    in a dictionary of three keys: it answers blue for M or m, pink for F or
    f and black for U, u or the unset sex.  For every other sex, that is a
    sex whose upper-case form is none of M, F, U (among the ASCII ones:
    every sex other than these six and the empty one), the lookup fails with
    [KeyError].  With the sex unset and no image file at the candidate path,
    the label holds the placeholder path [placeholder-u.png]. *)
Theorem get_color_and_placeholder (upper_ext lower_ext : str → str)
    (path_exists : bytes → bool) (module_dir : str) (self : Individual) :
  (sex self = lit "M" ∨ sex self = lit "m"
   ∨ upper upper_ext (sex self) = lit "M" →
   get_color upper_ext self = Ok (lit "blue"))
  ∧ (sex self = lit "F" ∨ sex self = lit "f"
     ∨ upper upper_ext (sex self) = lit "F" →
     get_color upper_ext self = Ok (lit "pink"))
  ∧ (sex self = [] ∨ sex self = lit "U" ∨ sex self = lit "u"
     ∨ upper upper_ext (sex self) = lit "U" →
     get_color upper_ext self = Ok (lit "black"))
  ∧ (sex self ≠ [] →
     upper upper_ext (sex self) ≠ lit "M" →
     upper upper_ext (sex self) ≠ lit "F" →
     upper upper_ext (sex self) ≠ lit "U" →
     get_color upper_ext self = Raise KeyError)
  ∧ (isascii (sex self) = true →
     sex self ≠ [] →
     sex self ≠ lit "M" → sex self ≠ lit "m" →
     sex self ≠ lit "F" → sex self ≠ lit "f" →
     sex self ≠ lit "U" → sex self ≠ lit "u" →
     get_color upper_ext self = Raise KeyError)
  ∧ (sex self = [] →
     ∀ image_dir name_order encoded,
       to_bytes (path_join image_dir (forename self ++ lit " " ++ surname self)
                 ++ lit " " ++ birth (config self) ++ lit ".jpg") = Ok encoded →
       path_exists encoded = false →
       ∃ label,
         get_label lower_ext path_exists module_dir self image_dir name_order
           = Ok label
         ∧ contains label (lit "placeholder-u.png")).
Proof.
  assert (∀ k color : str,
            color_table !! k = Some color → k ≠ [] →
            upper upper_ext (sex self) = k →
            get_color upper_ext self = Ok color) as Hup.
  { intros k color Hk Hne Hu. unfold get_color.
    destruct (sex self) as [|c s] eqn:E.
    - exfalso. apply Hne. rewrite <- Hu. reflexivity.
    - cbn [nonempty negb]. cbv iota zeta. by rewrite Hu, Hk. }
  assert (sex self ≠ [] →
          upper upper_ext (sex self) ≠ lit "M" →
          upper upper_ext (sex self) ≠ lit "F" →
          upper upper_ext (sex self) ≠ lit "U" →
          get_color upper_ext self = Raise KeyError) as Hother.
  { intros Hne HM HF HU. unfold get_color.
    destruct (sex self) as [|c s] eqn:E; [done|]. simpl negb. cbv iota.
    by rewrite color_table_other. }
  split; [|split; [|split; [|split; [|split]]]].
  - intros [H|[H|H]].
    + unfold get_color. rewrite H. by vm_compute.
    + unfold get_color. rewrite H. by vm_compute.
    + by apply (Hup (lit "M")).
  - intros [H|[H|H]].
    + unfold get_color. rewrite H. by vm_compute.
    + unfold get_color. rewrite H. by vm_compute.
    + by apply (Hup (lit "F")).
  - intros [H|[H|[H|H]]].
    + unfold get_color. rewrite H. by vm_compute.
    + unfold get_color. rewrite H. by vm_compute.
    + unfold get_color. rewrite H. by vm_compute.
    + by apply (Hup (lit "U")).
  - exact Hother.
  - intros Ha Hne HM Hm HF Hf HU Hu. apply Hother; [done|..]; intros H;
      apply (upper_single_inv upper_ext _ _ Ha) in H as [H|H]; done.
  - intros Hsex image_dir name_order encoded Henc Hex.
    unfold get_label, label_image_path. rewrite Henc.
    cbn [mbind result_mbind result_bind]. rewrite Hex, Hsex.
    cbn [mbind result_mbind result_bind negb nonempty].
    eexists. split; [reflexivity|].
    pose proof (placeholder_path_contains module_dir (lit "u")) as Hc.
    change (lit "placeholder-" ++ lit "u" ++ lit ".png")
      with (lit "placeholder-u.png") in Hc at 2.
    revert Hc.
    generalize (get_abspath module_dir (lit "placeholder-" ++ lit "u" ++ lit ".png")).
    intros p Hp.
    destruct (str_eqb name_order (lit "big"));
      repeat rewrite <- app_assoc;
      repeat first [ exact Hp | apply contains_app_r; exact Hp | apply contains_app_l ].
Qed.

Lemma get_color_and_placeholder_witness :
  get_color unused_case_mapping (individual_of_sex "m") = Ok (lit "blue")
  ∧ get_color unused_case_mapping (individual_of_sex "U") = Ok (lit "black")
  ∧ get_color unused_case_mapping (individual_of_sex "x") = Raise KeyError
  ∧ ∃ label,
      get_label unused_case_mapping (λ _, false) (lit "/opt/ged2dot")
        Individual_init (lit "images") (lit "little") = Ok label
      ∧ contains label (lit "placeholder-u.png").
Proof.
  split; [|split; [|split]].
  - apply (get_color_and_placeholder unused_case_mapping unused_case_mapping
             (λ _, false) (lit "/opt/ged2dot") (individual_of_sex "m")).
    right. left. reflexivity.
  - apply (get_color_and_placeholder unused_case_mapping unused_case_mapping
             (λ _, false) (lit "/opt/ged2dot") (individual_of_sex "U")).
    right. left. reflexivity.
  - destruct (get_color_and_placeholder unused_case_mapping
                unused_case_mapping (λ _, false) (lit "/opt/ged2dot")
                (individual_of_sex "x")) as (_ & _ & _ & _ & H & _).
    apply H; [reflexivity|vm_compute; discriminate..].
  - destruct (get_color_and_placeholder unused_case_mapping unused_case_mapping
                (λ _, false) (lit "/opt/ged2dot") Individual_init)
      as (_ & _ & _ & _ & _ & H).
    eapply (H eq_refl (lit "images") (lit "little")).
    + vm_compute. reflexivity.
    + reflexivity.
Defined.

(** C5 as worded fails: a sex that is neither M, F nor U has no entry in the
    colour dictionary, and [get_color] raises instead of answering black. *)
Lemma unknown_sex_has_no_color :
  get_color unused_case_mapping (individual_of_sex "X") = Raise KeyError
  ∧ ¬ other_sex_is_black unused_case_mapping (individual_of_sex "X").
Proof.
  split; [by vm_compute|].
  intros H. assert (get_color unused_case_mapping (individual_of_sex "X")
                    = Ok (lit "black")) as Hc
    by (apply H; vm_compute; discriminate).
  vm_compute in Hc. discriminate.
Qed.

(** ** Resolution *)

Lemma for_each_resolve_append (g : list Node) (ids : list str) (acc : list ref) :
  for_each (resolve_append g) ids acc =
  (l ← lookup_all g ids; Ok (acc ++ l)).
Proof.
  unfold lookup_all. revert acc.
  induction ids as [|id ids IH] using rev_ind; intros acc.
  - simpl. by rewrite app_nil_r.
  - rewrite !for_each_app. rewrite IH, (IH []). simpl.
    destruct (for_each (resolve_append g) ids []) as [l|e]; simpl; [|done].
    unfold resolve_append.
    destruct (graph_find g id) as [[r|]|e]; simpl; try done.
    by rewrite app_assoc.
Qed.

Lemma lookup_all_length (g : list Node) (ids : list str) (l : list ref) :
  lookup_all g ids = Ok l → length l = length ids.
Proof.
  revert l. induction ids as [|id ids IH] using rev_ind; intros l.
  - by intros [= <-].
  - unfold lookup_all. rewrite for_each_app.
    intros (l0 & H0 & Hl)%bind_Ok. simpl in Hl.
    apply bind_Ok in Hl as (l1 & Hl1 & [= <-]).
    unfold resolve_append in Hl1.
    destruct (graph_find g id) as [[r|]|e]; simpl in Hl1; try done.
    injection Hl1 as <-. rewrite !length_app, (IH l0 H0). done.
Qed.

Lemma lookup_all_in (g : list Node) (ids : list str) (l : list ref) (r : ref) :
  lookup_all g ids = Ok l → r ∈ l →
  ∃ id, id ∈ ids ∧ graph_find g id = Ok (Some r).
Proof.
  revert l. induction ids as [|id ids IH] using rev_ind; intros l.
  - intros [= <-] ?%elem_of_nil. done.
  - unfold lookup_all. rewrite for_each_app.
    intros (l0 & H0 & Hl)%bind_Ok. simpl in Hl.
    apply bind_Ok in Hl as (l1 & Hl1 & [= <-]).
    unfold resolve_append in Hl1.
    destruct (graph_find g id) as [[r'|]|e] eqn:E; simpl in Hl1; try done.
    injection Hl1 as <-. rewrite elem_of_app, list_elem_of_singleton.
    intros [Hr| ->].
    + destruct (IH l0 H0 Hr) as (id' & ? & ?). exists id'.
      rewrite elem_of_app. auto.
    + exists id. rewrite elem_of_app, list_elem_of_singleton. auto.
Qed.

Lemma for_each_ext {S A} (f f' : S → A → result S) (xs : list A) (st : S) :
  (∀ s x, f s x = f' s x) → for_each f xs st = for_each f' xs st.
Proof.
  intros H. revert st. induction xs as [|x xs IH]; intros st; [done|].
  cbn [for_each]. rewrite H. destruct (f' st x); [apply IH|done].
Qed.

Lemma lookup_all_identifiers (g g' : list Node) (ids : list str) :
  get_identifier <$> g = get_identifier <$> g' →
  lookup_all g ids = lookup_all g' ids.
Proof.
  intros H. unfold lookup_all. apply for_each_ext. intros acc id.
  unfold resolve_append. by rewrite (graph_find_identifiers g g' id H).
Qed.

Lemma graph_find_lt (g : list Node) (id : str) (r : ref) :
  graph_find g id = Ok (Some r) → (r < length g)%nat.
Proof.
  intros (_ & (n & Hn & _) & _)%graph_find_Some. by eapply lookup_lt_Some.
Qed.

(** What [resolve] does to a node: the single references are looked up
    afresh, the list grows by one reference per id, nothing else changes. *)
Lemma resolve_node_Ok (g : list Node) (n n' : Node) :
  resolve_node g n = Ok n' →
  ∃ l, lookup_all g (list_ids n) = Ok l
       ∧ list_refs n' = list_refs n ++ l
       ∧ Forall2 (λ id r, graph_find g id = Ok r) (scalar_ids n) (scalar_refs n')
       ∧ get_identifier n' = get_identifier n
       ∧ get_depth n' = get_depth n
       ∧ scalar_ids n' = scalar_ids n
       ∧ list_ids n' = list_ids n.
Proof.
  destruct n as [ind|fam]; simpl.
  - intros (ind' & Hr & [= <-])%bind_Ok. unfold Individual_resolve in Hr.
    apply bind_Ok in Hr as (c & Hc & Hr). cbn [fams_ids fams_list set_famc] in Hr.
    apply bind_Ok in Hr as (l' & Hl & [= <-]).
    rewrite for_each_resolve_append in Hl.
    apply bind_Ok in Hl as (l & Hl & [= <-]).
    exists l. simpl. repeat split; auto.
  - intros (fam' & Hr & [= <-])%bind_Ok. unfold Family_resolve in Hr.
    apply bind_Ok in Hr as (w & Hw & Hr). cbn [husb_id set_wife] in Hr.
    apply bind_Ok in Hr as (h & Hh & Hr).
    cbn [child_ids child_list set_wife set_husb] in Hr.
    apply bind_Ok in Hr as (l' & Hl & [= <-]).
    rewrite for_each_resolve_append in Hl.
    apply bind_Ok in Hl as (l & Hl & [= <-]).
    exists l. simpl. repeat split; auto.
Qed.

(** Resolving a resolved node again succeeds, finds the same single
    references and appends the same list of references once more. *)
Lemma resolve_node_again (g : list Node) (n n' : Node) :
  resolve_node g n = Ok n' →
  ∃ n'' l,
    resolve_node g n' = Ok n''
    ∧ scalar_refs n'' = scalar_refs n'
    ∧ lookup_all g (list_ids n) = Ok l
    ∧ list_refs n' = list_refs n ++ l
    ∧ list_refs n'' = list_refs n' ++ l.
Proof.
  destruct n as [ind|fam]; simpl.
  - intros (ind' & Hr & [= <-])%bind_Ok. unfold Individual_resolve in Hr.
    apply bind_Ok in Hr as (c & Hc & Hr). cbn [fams_ids fams_list set_famc] in Hr.
    apply bind_Ok in Hr as (l' & Hl & [= <-]).
    rewrite for_each_resolve_append in Hl.
    apply bind_Ok in Hl as (l & Hl & [= <-]).
    eexists _, l. simpl. unfold Individual_resolve. simpl.
    rewrite Hc. simpl. rewrite for_each_resolve_append, Hl. simpl.
    repeat split; auto.
  - intros (fam' & Hr & [= <-])%bind_Ok. unfold Family_resolve in Hr.
    apply bind_Ok in Hr as (w & Hw & Hr). cbn [husb_id set_wife] in Hr.
    apply bind_Ok in Hr as (h & Hh & Hr).
    cbn [child_ids child_list set_wife set_husb] in Hr.
    apply bind_Ok in Hr as (l' & Hl & [= <-]).
    rewrite for_each_resolve_append in Hl.
    apply bind_Ok in Hl as (l & Hl & [= <-]).
    eexists _, l. simpl. unfold Family_resolve. simpl.
    rewrite Hw. simpl. rewrite Hh. simpl.
    rewrite for_each_resolve_append, Hl. simpl.
    repeat split; auto.
Qed.

Lemma resolve_node_identifiers (g g' : list Node) (n : Node) :
  get_identifier <$> g = get_identifier <$> g' →
  resolve_node g n = resolve_node g' n.
Proof.
  intros H. destruct n as [ind|fam]; simpl;
    unfold Individual_resolve, Family_resolve;
    rewrite ?(graph_find_identifiers g g' _ H).
  - destruct (graph_find g' (famc_id ind)) as [c|e]; simpl; [|done].
    by rewrite !for_each_resolve_append, (lookup_all_identifiers g g' _ H).
  - destruct (graph_find g' (wife_id fam)) as [w|e]; simpl; [|done].
    rewrite ?(graph_find_identifiers g g' _ H).
    destruct (graph_find g' (husb_id fam)) as [h|e]; simpl; [|done].
    by rewrite !for_each_resolve_append, (lookup_all_identifiers g g' _ H).
Qed.

Lemma resolve_at_node (g : list Node) (i : nat) :
  resolve_at g i =
  match g !! i with
  | Some n => n' ← resolve_node g n; Ok (<[i := n']> g)
  | None => Ok g
  end.
Proof.
  unfold resolve_at. destruct (g !! i) as [[ind|fam]|]; simpl; try done.
  - by destruct (Individual_resolve ind g).
  - by destruct (Family_resolve fam g).
Qed.

Lemma resolved_upto_step (g0 gk : list Node) (k : nat) (n n' : Node) :
  resolved_upto g0 k gk → g0 !! k = Some n → resolve_node g0 n = Ok n' →
  resolved_upto g0 (S k) (<[k := n']> gk).
Proof.
  intros (Hlen & Hids & Hnodes) Hn Hn'.
  destruct (resolve_node_Ok g0 n n' Hn') as (_ & _ & _ & _ & Hid & _).
  pose proof (Hnodes k n Hn) as Hk. rewrite decide_False in Hk by lia.
  split; [by rewrite length_insert|]. split.
  - rewrite list_fmap_insert, <- Hids. apply list_insert_id.
    rewrite list_lookup_fmap, Hk. simpl. by rewrite Hid.
  - intros i m Hm. specialize (Hnodes i m Hm).
    destruct (decide (i = k)) as [->|Hne].
    + rewrite decide_True by lia. exists n'. split.
      * apply list_lookup_insert_eq. rewrite Hlen. by eapply lookup_lt_Some.
      * congruence.
    + rewrite list_lookup_insert_ne by done.
      repeat case_decide; try lia; done.
Qed.

Lemma resolve_prefix (g0 gk : list Node) (k : nat) :
  (k ≤ length g0)%nat →
  for_each resolve_at (seq 0 k) g0 = Ok gk → resolved_upto g0 k gk.
Proof.
  revert gk. induction k as [|k IH]; intros gk Hk.
  - intros [= <-]. repeat split. intros i n Hn. by rewrite decide_False by lia.
  - rewrite seq_S, for_each_app. intros (g' & Hg' & Hstep)%bind_Ok.
    specialize (IH g' ltac:(lia) Hg').
    destruct (lookup_lt_is_Some_2 g0 k ltac:(lia)) as [n Hn].
    destruct IH as (Hlen & Hids & Hnodes).
    pose proof (Hnodes k n Hn) as Hgk. rewrite decide_False in Hgk by lia.
    simpl in Hstep. rewrite resolve_at_node, Hgk in Hstep.
    rewrite (resolve_node_identifiers g' g0 n Hids) in Hstep.
    destruct (resolve_node g0 n) as [n'|e] eqn:E; simpl in Hstep; [|done].
    injection Hstep as <-. by eapply resolved_upto_step.
Qed.

Lemma resolve_prefix_total (g0 : list Node) (k : nat) :
  (∀ i n, g0 !! i = Some n → ∃ n', resolve_node g0 n = Ok n') →
  (k ≤ length g0)%nat →
  ∃ gk, for_each resolve_at (seq 0 k) g0 = Ok gk.
Proof.
  intros Hall. induction k as [|k IH]; intros Hk; [by exists g0|].
  destruct (IH ltac:(lia)) as [g' Hg'].
  pose proof (resolve_prefix g0 g' k ltac:(lia) Hg') as (Hlen & Hids & Hnodes).
  destruct (lookup_lt_is_Some_2 g0 k ltac:(lia)) as [n Hn].
  pose proof (Hnodes k n Hn) as Hgk. rewrite decide_False in Hgk by lia.
  destruct (Hall k n Hn) as [n' Hn'].
  exists (<[k := n']> g'). rewrite seq_S, for_each_app, Hg'. simpl.
  rewrite resolve_at_node, Hgk, (resolve_node_identifiers g' g0 n Hids), Hn'.
  done.
Qed.

(** The loop of [load], node by node. *)
Lemma resolve_all_Ok (g g1 : list Node) :
  resolve_all g = Ok g1 →
  length g1 = length g
  ∧ get_identifier <$> g1 = get_identifier <$> g
  ∧ ∀ i n, g !! i = Some n →
      ∃ n1, g1 !! i = Some n1 ∧ resolve_node g n = Ok n1.
Proof.
  intros H. destruct (resolve_prefix g g1 (length g) ltac:(lia) H)
    as (Hlen & Hids & Hnodes).
  repeat split; try done. intros i n Hn. specialize (Hnodes i n Hn).
  rewrite decide_True in Hnodes; [done|]. by eapply lookup_lt_Some.
Qed.

(** C2, as the code has it.  On a graph where resolution succeeds, resolving
    every node a second time succeeds too and leaves the single references
    (famc; wife, husb) as they were, but appends to each list-valued field
    (fams_list; child_list) the same references once more, one per id: the
    list after the second call is the list after the first followed by a
    second copy of what the first call appended. *)
Theorem second_resolve_appends_again (g g1 : list Node) :
  resolve_all g = Ok g1 →
  ∃ g2, resolve_all g1 = Ok g2
        ∧ ∀ i n, g !! i = Some n →
            ∃ n1 n2 l,
              g1 !! i = Some n1 ∧ g2 !! i = Some n2
              ∧ scalar_refs n2 = scalar_refs n1
              ∧ length l = length (list_ids n)
              ∧ list_refs n1 = list_refs n ++ l
              ∧ list_refs n2 = list_refs n1 ++ l.
Proof.
  intros H1. destruct (resolve_all_Ok g g1 H1) as (Hlen & Hids & Hnodes).
  assert (∀ i n1, g1 !! i = Some n1 →
                  ∃ n, g !! i = Some n ∧ resolve_node g n = Ok n1) as Hback.
  { intros i n1 Hn1.
    destruct (lookup_lt_is_Some_2 g i) as [n Hn].
    - rewrite <- Hlen. by eapply lookup_lt_Some.
    - exists n. split; [done|].
      destruct (Hnodes i n Hn) as (n1' & Hn1' & Hr). congruence. }
  destruct (resolve_prefix_total g1 (length g1)) as [g2 H2]; [|lia|].
  { intros i n1 Hn1. destruct (Hback i n1 Hn1) as (n & Hn & Hr).
    destruct (resolve_node_again g n n1 Hr) as (n2 & l & Hr2 & _).
    exists n2. by rewrite (resolve_node_identifiers g1 g n1 Hids). }
  exists g2. split; [exact H2|].
  destruct (resolve_all_Ok g1 g2 H2) as (_ & _ & Hnodes2).
  intros i n Hn. destruct (Hnodes i n Hn) as (n1 & Hn1 & Hr).
  destruct (Hnodes2 i n1 Hn1) as (n2 & Hn2 & Hr2).
  rewrite (resolve_node_identifiers g1 g n1 Hids) in Hr2.
  destruct (resolve_node_again g n n1 Hr) as (n2' & l & Hr2' & Hs & Hl & Ha & Hb).
  assert (n2' = n2) as -> by congruence.
  exists n1, n2, l. repeat split; try done. by eapply lookup_all_length.
Qed.

Lemma second_resolve_appends_again_witness :
  ∃ g1 g2 n1 n2,
    resolve_all couple_tokenized = Ok g1 ∧ resolve_all g1 = Ok g2
    ∧ g1 !! 0%nat = Some n1 ∧ g2 !! 0%nat = Some n2
    ∧ list_refs n1 = [2%nat] ∧ list_refs n2 = [2%nat; 2%nat].
Proof.
  destruct (resolve_all couple_tokenized) as [g1|e] eqn:E1;
    [|vm_compute in E1; discriminate].
  destruct (second_resolve_appends_again couple_tokenized g1 E1) as (g2 & E2 & _).
  exists g1, g2. vm_compute in E1. injection E1 as <-.
  vm_compute in E2. injection E2 as <-.
  do 2 eexists. repeat split; reflexivity.
Defined.

(** C2 as worded fails: the second resolution of the couple leaves the wife
    with her family listed twice. *)
Lemma second_resolve_duplicates :
  ¬ resolve_idempotent couple_tokenized.
Proof.
  intros H.
  destruct (resolve_all couple_tokenized) as [g1|e] eqn:E1;
    [|vm_compute in E1; discriminate].
  destruct (resolve_all g1) as [g2|e] eqn:E2;
    [|vm_compute in E1; injection E1 as <-; vm_compute in E2; discriminate].
  specialize (H g1 g2 E1 E2).
  vm_compute in E1. injection E1 as <-. vm_compute in E2. injection E2 as <-.
  destruct (H 0%nat _ _ eq_refl eq_refl) as [_ Hl]. vm_compute in Hl.
  discriminate.
Qed.

(** ** Edges *)

Lemma to_bytes_app (a b : str) :
  to_bytes (a ++ b) = (x ← to_bytes a; y ← to_bytes b; Ok (x ++ y)).
Proof.
  induction a as [|c a IH]; simpl.
  - by destruct (to_bytes b).
  - destruct (encode_char c) as [bs|]; [|done]. rewrite IH.
    destruct (to_bytes a) as [x|e]; simpl; [|done].
    destruct (to_bytes b) as [y|e]; simpl; [|done].
    by rewrite app_assoc.
Qed.

(** Writing a sequence of texts one after the other is writing their
    concatenation. *)
Lemma write_all (texts : list str) (stream : bytes) :
  for_each write texts stream =
  (b ← to_bytes (concat texts); Ok (stream ++ b)).
Proof.
  revert stream. induction texts as [|t texts IH]; intros stream.
  - simpl. by rewrite app_nil_r.
  - cbn [for_each concat]. rewrite to_bytes_app.
    change (write stream t) with (b ← to_bytes t; Ok (stream ++ b)).
    destruct (to_bytes t) as [x|e]; cbn [mbind result_mbind result_bind];
      [|done].
    rewrite IH.
    destruct (to_bytes (concat texts)) as [y|e];
      cbn [mbind result_mbind result_bind]; [|done].
    by rewrite app_assoc.
Qed.

Lemma for_each_fmap {S A B} (f : A → B) (body : S → B → result S)
    (xs : list A) (st : S) :
  for_each body (f <$> xs) st = for_each (λ s x, body s (f x)) xs st.
Proof.
  revert st. induction xs as [|x xs IH]; intros st; simpl; [done|].
  destruct (body st (f x)); simpl; auto.
Qed.

Lemma store_family_edges_write (g : list Node) (stream : bytes) (r : ref)
    (fam : Family) :
  g !! r = Some (NFamily fam) →
  store_family_edges g stream fam =
  for_each write (edge_of g <$> family_relationships r fam) stream.
Proof.
  intros Hr. unfold store_family_edges, family_relationships.
  assert (identifier_at g r = fam_identifier fam) as Hid
    by (unfold identifier_at; by rewrite Hr).
  rewrite !fmap_app, !for_each_app, <- !list_fmap_compose.
  unfold edge_of, compose. simpl. rewrite Hid.
  destruct (wife fam) as [w|]; simpl.
  - destruct (write stream _) as [s1|e]; simpl; [|done].
    destruct (husb fam) as [h|]; simpl.
    + destruct (write s1 _) as [s2|e]; simpl; [|done].
      by rewrite for_each_fmap.
    + by rewrite for_each_fmap.
  - destruct (husb fam) as [h|]; simpl.
    + destruct (write stream _) as [s2|e]; simpl; [|done].
      by rewrite for_each_fmap.
    + by rewrite for_each_fmap.
Qed.

Lemma store_edges_write (g : list Node) (subgraph : list ref) (stream : bytes) :
  store_edges g subgraph stream =
  for_each write (edge_of g <$> relationships g subgraph) stream.
Proof.
  unfold store_edges, relationships. revert stream.
  induction subgraph as [|r sub IH]; intros stream; [done|].
  cbn [for_each flat_map]. rewrite fmap_app, for_each_app.
  destruct (g !! r) as [[ind|fam]|] eqn:Hr; simpl; try apply IH.
  rewrite <- (store_family_edges_write g stream r fam Hr).
  destruct (store_family_edges g stream fam); simpl; [apply IH|done].
Qed.

Lemma startswith_app (p s : str) : startswith (p ++ s) p = true.
Proof.
  induction p as [|c p IH]; simpl; [by destruct s|]. by rewrite N.eqb_refl.
Qed.

Lemma endswith_app (s p : str) : endswith (s ++ p) p = true.
Proof. unfold endswith. rewrite rev_app_distr. apply startswith_app. Qed.

(** C4 as worded fails: from the child P3 with family depth 0 the traversal
    keeps P3 and the family F1 but not the parents, and the edge section
    still holds the edges from P1 and P2 to F1. *)
Lemma edges_leave_subgraph :
  (∃ g', bfs int_ascii couple_with_child_graph 2%nat (familydepth "0")
         = Some (Ok (g', [2%nat; 3%nat])))
  ∧ store_edges couple_with_child_graph [2%nat; 3%nat] []
    = to_bytes (lit "P1 -> F1 [dir=none];" ++ [10]
                ++ lit "P2 -> F1 [dir=none];" ++ [10]
                ++ lit "F1 -> P3 [dir=none];" ++ [10])
  ∧ ¬ only_edges_between_members couple_with_child_graph [2%nat; 3%nat].
Proof.
  split; [eexists; vm_compute; reflexivity|].
  split; [vm_compute; reflexivity|].
  intros H.
  destruct (store_edges couple_with_child_graph [2%nat; 3%nat] [])
    as [out|e] eqn:E; [|vm_compute in E; discriminate].
  destruct (H out E) as (edges & Hin & Hout).
  vm_compute in E. injection E as <-.
  destruct edges as [|[a b] edges].
  - vm_compute in Hout. discriminate.
  - apply Forall_cons in Hin as [[Ha _] _]. simpl in Ha.
    cbn [fmap list_fmap concat] in Hout. unfold edge_of, edge_text in Hout.
    rewrite <- !app_assoc, to_bytes_app in Hout.
    apply bind_Ok in Hout as (x & Hx & Hout).
    apply bind_Ok in Hout as (y & _ & [= Hout]).
    rewrite !elem_of_cons in Ha. destruct Ha as [->|[->|Ha]].
    + vm_compute in Hx. injection Hx as <-. discriminate.
    + vm_compute in Hx. injection Hx as <-. discriminate.
    + by apply elem_of_nil in Ha.
Qed.

(** ** Breadth-first traversal *)

Lemma discovered_elem (seen l : list ref) (x : ref) :
  x ∈ discovered seen l → x ∈ l ∧ x ∉ seen.
Proof.
  revert seen. induction l as [|r l IH]; intros seen; simpl.
  - by intros ?%elem_of_nil.
  - case_bool_decide as Hr.
    + intros [? ?]%IH. split; [by right|done].
    + rewrite elem_of_cons. intros [->|[? Hx]%IH]; [split; [by left|done]|].
      split; [by right|]. rewrite elem_of_app in Hx. tauto.
Qed.

Lemma discovered_NoDup (seen l : list ref) :
  NoDup seen → NoDup (seen ++ discovered seen l).
Proof.
  revert seen. induction l as [|r l IH]; intros seen Hnd; simpl.
  - by rewrite app_nil_r.
  - case_bool_decide as Hr; [by apply IH|].
    rewrite cons_middle, (assoc_L (++) seen [r]). apply IH.
    apply NoDup_app. split; [done|]. split; [|apply NoDup_singleton].
    intros x Hx ->%list_elem_of_singleton. done.
Qed.

Lemma set_depth_at_length (g : list Node) (r : ref) (d : Z) :
  length (set_depth_at g r d) = length g.
Proof. apply length_alter. Qed.

Lemma set_depth_at_lookup (g : list Node) (r r' : ref) (d : Z) :
  set_depth_at g r d !! r' =
  if decide (r = r') then (λ n, set_depth n d) <$> g !! r' else g !! r'.
Proof.
  unfold set_depth_at. case_decide as H.
  - subst. apply list_lookup_alter_eq.
  - by apply list_lookup_alter_ne.
Qed.

Lemma set_depth_at_links (g : list Node) (r : ref) (d : Z) :
  same_links g (set_depth_at g r d).
Proof.
  split; [apply set_depth_at_length|]. intros r'.
  unfold neighbours_at, identifier_at. rewrite set_depth_at_lookup.
  case_decide; [|done]. by destruct (g !! r') as [[i|f]|].
Qed.

Lemma set_depth_at_depth (g : list Node) (r r' : ref) (d : Z) :
  (r < length g)%nat →
  depth_at (set_depth_at g r d) r' = if decide (r = r') then d else depth_at g r'.
Proof.
  intros Hr. unfold depth_at. rewrite set_depth_at_lookup.
  case_decide as H; [|done]. subst r'.
  destruct (lookup_lt_is_Some_2 g r Hr) as [n Hn]. rewrite Hn. by destruct n.
Qed.

Lemma same_links_refl (g : list Node) : same_links g g.
Proof. by split. Qed.

Lemma same_links_trans (g1 g2 g3 : list Node) :
  same_links g1 g2 → same_links g2 g3 → same_links g1 g3.
Proof.
  intros [H1 H1'] [H2 H2']. split; [congruence|]. intros r.
  destruct (H1' r), (H2' r). split; congruence.
Qed.

Lemma assign_depths_links (node : ref) (g : list Node) (new : list ref) :
  same_links g (assign_depths node g new).
Proof.
  unfold assign_depths. revert g.
  induction new as [|r new IH]; intros g; [apply same_links_refl|].
  simpl. eapply same_links_trans; [apply set_depth_at_links|apply IH].
Qed.

(** With [node] itself not among them, the new nodes get the depth of
    [node] plus one and no other depth changes. *)
Lemma assign_depths_depth (node : ref) (g : list Node) (new : list ref) (r : ref) :
  node ∉ new → (∀ x, x ∈ new → (x < length g)%nat) →
  depth_at (assign_depths node g new) r =
  if bool_decide (r ∈ new) then (depth_at g node + 1)%Z else depth_at g r.
Proof.
  unfold assign_depths. revert g.
  induction new as [|x new IH]; intros g Hnode Hvalid; [done|].
  apply not_elem_of_cons in Hnode as [Hne Hnode]. simpl.
  assert (x < length g)%nat as Hx by (apply Hvalid; by left).
  rewrite IH; [|done|].
  - rewrite !set_depth_at_depth by done. rewrite decide_False by done.
    destruct (decide (x = r)) as [->|Hxr].
    + rewrite (bool_decide_eq_true_2 (r ∈ r :: new)) by (by left).
      by case_bool_decide.
    + case_bool_decide as H1; case_bool_decide as H2; try done.
      * exfalso. apply H2. by right.
      * apply elem_of_cons in H2 as [->|]; done.
  - intros y Hy. rewrite set_depth_at_length. apply Hvalid. by right.
Qed.

(** The inner loop of [bfs] as a whole. *)
Lemma foldl_visit (node : ref) (g : list Node) (visited queue nbrs : list ref) :
  foldl (visit node) (g, visited, queue) nbrs =
  (assign_depths node g (discovered visited nbrs),
   visited ++ discovered visited nbrs,
   queue ++ discovered visited nbrs).
Proof.
  revert g visited queue. induction nbrs as [|r nbrs IH];
    intros g visited queue.
  - simpl. by rewrite !app_nil_r.
  - cbn [foldl discovered]. unfold visit at 2. case_bool_decide as Hr.
    + apply IH.
    + rewrite IH. by rewrite <- !app_assoc.
Qed.

Lemma bfs_loop_step (int : str → option Z) (fuel : nat) (config : gmap str str)
    (g : list Node) (visited queue ret : list ref) (node : ref) (v : str) (fd : Z) :
  config !! lit "familydepth" = Some v → int v = Some fd →
  bfs_loop int (S fuel) config g visited (node :: queue) ret =
  if (fd * 2 + 1 <? depth_at g node)%Z then Some (Ok (g, ret))
  else bfs_loop int fuel config
         (assign_depths node g (discovered visited (neighbours_at g node)))
         (visited ++ discovered visited (neighbours_at g node))
         (queue ++ discovered visited (neighbours_at g node))
         (ret ++ [node]).
Proof.
  intros Hc Hi. cbn [bfs_loop]. rewrite Hc, Hi.
  destruct (fd * 2 + 1 <? depth_at g node)%Z; [done|]. by rewrite foldl_visit.
Qed.



Lemma NoDup_bounded_length (l : list nat) (n : nat) :
  NoDup l → (∀ x, x ∈ l → (x < n)%nat) → (length l ≤ n)%nat.
Proof.
  intros Hnd Hb.
  apply Nat.le_trans with (length (seq 0 n)); [|by rewrite length_seq].
  apply submseteq_length, NoDup_submseteq; [done|].
  intros x Hx. apply elem_of_seq. specialize (Hb x Hx). lia.
Qed.

(** The loop ends within the iterations its unvisited nodes allow, and what
    it returns is duplicate free and made of nodes satisfying any property
    [Q] that holds of the visited nodes and follows the links. *)
Lemma bfs_loop_terminates (int : str → option Z) (config : gmap str str)
    (v : str) (fd : Z) (g0 : list Node) (Q : nat → Prop) :
  config !! lit "familydepth" = Some v → int v = Some fd →
  (∀ n r, Q n → r ∈ neighbours_at g0 n → Q r) →
  (∀ r, Q r → (r < length g0)%nat) →
  ∀ fuel g visited queue ret,
    same_links g0 g → NoDup visited → visited = ret ++ queue →
    (∀ r, r ∈ visited → Q r) →
    (length queue + (length g0 - length visited) ≤ fuel)%nat →
    ∃ g' ret',
      bfs_loop int fuel config g visited queue ret = Some (Ok (g', ret'))
      ∧ same_links g0 g' ∧ NoDup ret' ∧ (∀ r, r ∈ ret' → Q r).
Proof.
  intros Hc Hi HQ HQv. induction fuel as [|fuel IH];
    intros g visited queue ret Hlinks Hnd Hvis HQvis Hfuel;
    destruct queue as [|node queue].
  - exists g, ret. rewrite app_nil_r in Hvis. subst visited.
    split; [done|]. split; [done|]. by split.
  - simpl in Hfuel. lia.
  - exists g, ret. rewrite app_nil_r in Hvis. subst visited.
    split; [done|]. split; [done|]. by split.
  - rewrite (bfs_loop_step int fuel config g visited queue ret node v fd Hc Hi).
    assert (NoDup ret ∧ ∀ r, r ∈ ret → Q r) as [Hret HQret].
    { subst visited. apply NoDup_app in Hnd as (? & _ & _). split; [done|].
      intros r Hr. apply HQvis. rewrite elem_of_app. by left. }
    destruct (fd * 2 + 1 <? depth_at g node)%Z; [by exists g, ret|].
    destruct Hlinks as [Hlen Hsame]. destruct (Hsame node) as [Hnb _].
    rewrite Hnb.
    set (new := discovered visited (neighbours_at g0 node)).
    assert (Q node) as HQnode.
    { apply HQvis. subst visited. rewrite elem_of_app. right. by left. }
    assert (∀ r, r ∈ visited ++ new → Q r) as HQ'.
    { intros r [Hr|Hr]%elem_of_app; [by apply HQvis|].
      apply discovered_elem in Hr as [Hr _]. by eapply HQ. }
    pose proof (discovered_NoDup visited (neighbours_at g0 node) Hnd) as Hnd'.
    fold new in Hnd'.
    pose proof (NoDup_bounded_length (visited ++ new) (length g0) Hnd'
                  (λ r Hr, HQv r (HQ' r Hr))) as Hbound.
    rewrite length_app in Hbound.
    apply IH.
    + eapply same_links_trans; [by split|apply assign_depths_links].
    + done.
    + subst visited. by rewrite <- !app_assoc.
    + done.
    + rewrite !length_app. simpl in Hfuel. lia.
Qed.

(** ** Resolved graphs *)

Lemma resolve_node_neighbours (g : list Node) (n n' : Node) (r : nat) :
  resolve_node g n = Ok n' → get_neighbours n = [] → r ∈ get_neighbours n' →
  ∃ id, graph_find g id = Ok (Some r).
Proof.
  destruct n as [ind|fam]; simpl.
  - intros (ind' & Hr & [= <-])%bind_Ok Hfresh. unfold Individual_resolve in Hr.
    apply bind_Ok in Hr as (c & Hc & Hr). cbn [fams_ids fams_list set_famc] in Hr.
    apply bind_Ok in Hr as (l' & Hl & [= <-]).
    rewrite for_each_resolve_append in Hl.
    apply bind_Ok in Hl as (l & Hl & [= <-]).
    apply app_eq_nil in Hfresh as [_ ->]. simpl.
    rewrite elem_of_app. intros [Hin|Hin].
    + destruct c as [c|]; simpl in Hin; [|by apply elem_of_nil in Hin].
      apply list_elem_of_singleton in Hin as ->. eauto.
    + destruct (lookup_all_in g _ l r Hl Hin) as (id & _ & ?). eauto.
  - intros (fam' & Hr & [= <-])%bind_Ok Hfresh. unfold Family_resolve in Hr.
    apply bind_Ok in Hr as (w & Hw & Hr). cbn [husb_id set_wife] in Hr.
    apply bind_Ok in Hr as (h & Hh & Hr).
    cbn [child_ids child_list set_wife set_husb] in Hr.
    apply bind_Ok in Hr as (l' & Hl & [= <-]).
    rewrite for_each_resolve_append in Hl.
    apply bind_Ok in Hl as (l & Hl & [= <-]).
    apply app_eq_nil in Hfresh as [_ [_ ->]%app_eq_nil]. simpl.
    rewrite !elem_of_app. intros [Hin|[Hin|Hin]].
    + destruct w as [w|]; simpl in Hin; [|by apply elem_of_nil in Hin].
      apply list_elem_of_singleton in Hin as ->. eauto.
    + destruct h as [h|]; simpl in Hin; [|by apply elem_of_nil in Hin].
      apply list_elem_of_singleton in Hin as ->. eauto.
    + destruct (lookup_all_in g _ l r Hl Hin) as (id & _ & ?). eauto.
Qed.

Lemma identifier_at_fmap (g g' : list Node) (r : nat) :
  get_identifier <$> g = get_identifier <$> g' →
  identifier_at g r = identifier_at g' r.
Proof.
  intros H. unfold identifier_at.
  assert (get_identifier <$> g !! r = get_identifier <$> g' !! r) as Hr
    by (by rewrite <- !list_lookup_fmap, H).
  destruct (g !! r), (g' !! r); simpl in *; congruence.
Qed.

(** Resolution of a graph as the parser builds it wires every link to a
    node of the graph whose identifier no other node carries, and leaves all
    depths at 0. *)
Lemma resolve_all_links (g0 g : list Node) :
  Forall unresolved g0 → resolve_all g0 = Ok g →
  links_resolved g ∧ ∀ r, depth_at g r = 0%Z.
Proof.
  intros Hfresh Hres.
  destruct (resolve_all_Ok g0 g Hres) as (Hlen & Hids & Hnodes).
  assert (∀ i n1, g !! i = Some n1 →
                  ∃ n0, g0 !! i = Some n0 ∧ unresolved n0
                        ∧ resolve_node g0 n0 = Ok n1) as Hback.
  { intros i n1 Hn1. destruct (lookup_lt_is_Some_2 g0 i) as [n0 Hn0].
    - rewrite <- Hlen. by eapply lookup_lt_Some.
    - exists n0. split; [done|]. split.
      + by eapply Forall_lookup_1 in Hfresh.
      + destruct (Hnodes i n0 Hn0) as (n1' & ? & ?). congruence. }
  split.
  - intros n r. unfold neighbours_at.
    destruct (g !! n) as [n1|] eqn:Hn1; simpl; [|by intros ?%elem_of_nil].
    destruct (Hback n n1 Hn1) as (n0 & Hn0 & [Hnb _] & Hr). intros Hin.
    destruct (resolve_node_neighbours g0 n0 n1 r Hr Hnb Hin) as [id Hid].
    apply graph_find_Some in Hid as (_ & (m & Hm & Hmid) & Huniq).
    split; [rewrite Hlen; by eapply lookup_lt_Some|].
    intros r' Hr' Hsame. apply Huniq.
    rewrite !(identifier_at_fmap g g0 _ Hids) in Hsame.
    rewrite Hlen in Hr'. destruct (lookup_lt_is_Some_2 g0 r' Hr') as [m' Hm'].
    exists m'. split; [done|]. unfold identifier_at in Hsame.
    rewrite Hm, Hm' in Hsame. simpl in Hsame. congruence.
  - intros r. unfold depth_at.
    destruct (g !! r) as [n1|] eqn:Hn1; simpl; [|done].
    destruct (Hback r n1 Hn1) as (n0 & Hn0 & [_ Hd] & Hr).
    destruct (resolve_node_Ok g0 n0 n1 Hr) as (_ & _ & _ & _ & _ & Hd' & _).
    congruence.
Qed.

(** C7.  On a resolved graph, from any root, the traversal ends and returns
    a sequence in which no node and no identifier occurs twice. *)
Theorem bfs_returns_no_duplicates (int : str → option Z) (g0 g : list Node)
    (root : nat) (config : gmap str str) (v : str) (fd : Z) :
  Forall unresolved g0 → resolve_all g0 = Ok g →
  (root < length g)%nat →
  config !! lit "familydepth" = Some v → int v = Some fd →
  ∃ g' ret,
    bfs int g root config = Some (Ok (g', ret))
    ∧ NoDup ret
    ∧ NoDup (identifier_at g <$> ret).
Proof.
  intros Hfresh Hres Hroot Hc Hi.
  destruct (resolve_all_links g0 g Hfresh Hres) as [Hlinks _].
  set (Q := λ r : nat, (r < length g)%nat ∧ (r = root ∨ identifier_unique g r)).
  destruct (bfs_loop_terminates int config v fd g Q Hc Hi) with
    (fuel := length g) (g := g) (visited := [root]) (queue := [root])
    (ret := @nil nat) as (g' & ret & Hrun & _ & Hnd & HQ).
  - intros n r _ Hr. destruct (Hlinks n r Hr). split; [done|by right].
  - by intros r [? _].
  - apply same_links_refl.
  - apply NoDup_singleton.
  - done.
  - intros r ->%list_elem_of_singleton. split; [done|by left].
  - simpl. lia.
  - exists g', ret. split; [done|]. split; [done|].
    apply NoDup_fmap_2_strong; [|done].
    intros x y Hx Hy Hxy.
    destruct (HQ x Hx) as [Hxv [->|Hxu]], (HQ y Hy) as [Hyv [->|Hyu]]; auto.
    symmetry. by apply Hxu.
Qed.

Lemma bfs_returns_no_duplicates_witness :
  ∃ g g' ret,
    resolve_all cousins_tokenized = Ok g
    ∧ bfs int_ascii g 7%nat (familydepth "4") = Some (Ok (g', ret))
    ∧ length ret = 8%nat
    ∧ NoDup ret
    ∧ NoDup (identifier_at g <$> ret).
Proof.
  destruct (resolve_all cousins_tokenized) as [g|e] eqn:E;
    [|vm_compute in E; discriminate].
  destruct (bfs_returns_no_duplicates int_ascii cousins_tokenized g 7%nat
              (familydepth "4") (lit "4") 4%Z) as (g' & ret & Hrun & H1 & H2).
  - repeat (constructor; [split; reflexivity|]). constructor.
  - exact E.
  - vm_compute in E. injection E as <-. simpl. lia.
  - vm_compute. reflexivity.
  - reflexivity.
  - exists g, g', ret. split; [reflexivity|]. split; [exact Hrun|].
    split; [|by split].
    vm_compute in E. injection E as <-. vm_compute in Hrun.
    injection Hrun as <- <-. reflexivity.
Defined.

(** ** Family depth 0 *)






(** * Further properties of the parser *)

Lemma update_individual_unresolved (s : GedcomImport) (f : Individual → Individual) :
  (∀ i, famc (f i) = famc i ∧ fams_list (f i) = fams_list i
        ∧ ind_depth (f i) = ind_depth i) →
  importer_unresolved s → importer_unresolved (update_individual s f).
Proof.
  intros Hf. unfold importer_unresolved, update_individual, in_progress.
  destruct (individual s) as [i|] eqn:E; [|by rewrite E]. simpl. rewrite ?E. simpl.
  rewrite !Forall_app, !Forall_cons. intros (Hg & [Hn Hd] & Hfam).
  destruct (Hf i) as (H1 & H2 & H3).
  repeat split; try done; simpl in *; congruence.
Qed.

Lemma update_family_unresolved (s : GedcomImport) (f : Family → Family) :
  (∀ fam, wife (f fam) = wife fam ∧ husb (f fam) = husb fam
          ∧ child_list (f fam) = child_list fam
          ∧ fam_depth (f fam) = fam_depth fam) →
  importer_unresolved s → importer_unresolved (update_family s f).
Proof.
  intros Hf. unfold importer_unresolved, update_family, in_progress.
  destruct (family s) as [fam|] eqn:E; [|by rewrite E]. simpl. rewrite ?E. simpl.
  rewrite !Forall_app, !Forall_cons. intros (Hg & Hind & ([Hn Hd] & _)).
  destruct (Hf fam) as (H1 & H2 & H3 & H4).
  repeat split; try done; simpl in *; congruence.
Qed.

Lemma handle_level1_unresolved (s : GedcomImport) (line : str) :
  importer_unresolved s → importer_unresolved (handle_level1 s line).
Proof.
  intros Hs. unfold handle_level1.
  assert (importer_unresolved (reset_flags s)) as Ht
    by (unfold reset_flags; by repeat case_match).
  revert Ht. generalize (reset_flags s). clear Hs. intros t Ht.
  pose proof update_individual_unresolved as Hi.
  pose proof update_family_unresolved as Hf.
  chain_of_ifs importer_unresolved; auto;
    try (apply Hi; [intros i; simpl; by try case_match|]); auto;
    try (apply Hf; [by intros fam|]); auto.
Qed.

Lemma handle_level2_unresolved (s : GedcomImport) (rest : str) :
  importer_unresolved s → importer_unresolved (handle_level2 s rest).
Proof.
  intros Hs. unfold handle_level2.
  chain_of_ifs importer_unresolved; auto;
    by apply update_individual_unresolved.
Qed.

Lemma handle_level0_unresolved (s : GedcomImport) (line : str) :
  importer_unresolved s → importer_unresolved (handle_level0 s line).
Proof.
  unfold importer_unresolved. intros Hs.
  rewrite handle_level0_graph. apply Forall_app. split; [done|].
  unfold handle_level0, in_progress.
  destruct (individual s) as [i|] eqn:Ei, (family s) as [f|] eqn:Ef;
    cbn [individual family set_individual set_family graph_append graph];
    rewrite ?Ef;
    cbn [individual family set_individual set_family graph_append graph];
    repeat case_match; simpl; rewrite ?Ei, ?Ef; simpl;
    repeat constructor.
Qed.

Lemma handle_line_unresolved (int : str → option Z) (s s' : GedcomImport)
    (lb : bytes) :
  importer_unresolved s → handle_line int s lb = Ok s' →
  importer_unresolved s'.
Proof.
  intros Hs. rewrite handle_line_parsed.
  intros ([[level rest]|] & _ & [= <-])%bind_Ok; [|done].
  unfold dispatch. repeat case_match; auto using handle_level0_unresolved,
    handle_level1_unresolved, handle_level2_unresolved.
Qed.

Lemma tokenize_unresolved (int : str → option Z) (stream : bytes)
    (self' : GedcomImport) (g : list Node) :
  tokenize_from_stream int GedcomImport_init stream = Ok (self', g) →
  Forall unresolved g.
Proof.
  intros [Hrun ->]%tokenize_run.
  assert (importer_unresolved self') as H.
  { apply (for_each_invariant (handle_line int) (λ _, importer_unresolved)
             (bytes_split_crlf stream []) GedcomImport_init self');
      [constructor| |done].
    intros _ lb s1 s2. apply handle_line_unresolved. }
  unfold importer_unresolved in H. by apply Forall_app in H as [? _].
Qed.

(** X1.  What [load] returns: every link of every node leads to a node of the
    graph whose identifier no other node carries, and every depth is 0, so a
    traversal may start from any node. *)
Theorem load_links_resolved (int : str → option Z) (stream : bytes)
    (g : list Node) :
  load int stream = Ok g →
  links_resolved g ∧ ∀ r, depth_at g r = 0%Z.
Proof.
  unfold load. intros ([self' g0] & Htok & Hres)%bind_Ok.
  eapply resolve_all_links; [|done]. by eapply tokenize_unresolved.
Qed.

Lemma load_links_resolved_witness :
  ∃ g, load int_ascii cousins_marrying = Ok g
       ∧ links_resolved g ∧ depth_at g 7%nat = 0%Z.
Proof.
  destruct (load int_ascii cousins_marrying) as [g|e] eqn:E;
    [|vm_compute in E; discriminate].
  exists g. split; [done|].
  destruct (load_links_resolved int_ascii cousins_marrying g E) as [H1 H2].
  split; [exact H1|apply H2].
Defined.

Lemma split_on_cons (sep : N) (s : str) : ∃ w ws, split_on sep s = w :: ws.
Proof.
  induction s as [|c s (w & ws & IH)]; simpl; [by eexists _, _|].
  destruct (c =? sep); [by eexists _, _|]. rewrite IH. by eexists _, _.
Qed.

(** Splitting after a first token that holds no separator. *)
Lemma split_on_prefix (sep : N) (w rest : str) :
  sep ∉ w → split_on sep (w ++ sep :: rest) = w :: split_on sep rest.
Proof.
  induction w as [|c w IH]; intros Hw; simpl.
  - by rewrite N.eqb_refl.
  - apply not_elem_of_cons in Hw as [Hc Hw].
    destruct (c =? sep) eqn:E; [apply N.eqb_eq in E; congruence|].
    by rewrite (IH Hw).
Qed.

Lemma slice_6_to_last {A} (a b c d e f z : A) (t : list A) :
  slice (a :: b :: c :: d :: e :: f :: t ++ [z]) (Some 6%Z) (Some (-1)%Z) = t.
Proof.
  unfold slice, slice_bound. cbn [length]. rewrite length_app. cbn [length].
  change (6 <? 0)%Z with false. change (-1 <? 0)%Z with true. cbv iota.
  replace (Nat.min (Z.to_nat 6) _) with 6%nat by lia.
  replace (Z.to_nat _ - 6)%nat with (length t) by lia.
  cbn [drop]. apply take_app_length.
Qed.

Lemma dispatch_level1 (s : GedcomImport) (line : str) :
  dispatch s 1 line = handle_level1 s line.
Proof. reflexivity. Qed.


(** X2.  The first FAMC line with a non-empty id wins: once the child-family
    id of the individual under construction is set, a further level-1 FAMC
    line leaves the individual as it is; and after [FAMC @a@] then
    [FAMC @b@] on an individual without one, the id is [a]. *)
Theorem first_famc_wins (s : GedcomImport) (i : Individual) :
  individual s = Some i →
  (∀ line, first_of (split_on 32 line) = lit "FAMC" → famc_id i ≠ [] →
     individual (dispatch s 1 line) = Some i)
  ∧ (∀ a b, famc_id i = [] → a ≠ [] →
       famc_id <$> individual
         (dispatch (dispatch s 1 (lit "FAMC @" ++ a ++ lit "@")) 1
                   (lit "FAMC @" ++ b ++ lit "@")) = Some a).
Proof.
  intros Hi.
  assert (∀ t j line, individual t = Some j →
            first_of (split_on 32 line) = lit "FAMC" →
            individual (handle_level1 t line)
            = Some (if nonempty (famc_id j) then j
                    else set_famc_id j (slice line (Some 6%Z) (Some (-1)%Z))))
    as Hstep.
  { intros t j line Hj Hline. unfold handle_level1. rewrite Hline.
    pose proof (reset_flags_individual t) as Hr. rewrite Hj in Hr.
    revert Hr. generalize (reset_flags t). intros u Hu.
    eval_lits. unfold str_eqb.
    repeat (rewrite bool_decide_eq_false_2 by discriminate).
    rewrite bool_decide_eq_true_2 by reflexivity. rewrite Hu.
    cbn [truthy andb]. unfold update_individual. by rewrite Hu. }
  assert (∀ x, first_of (split_on 32 (lit "FAMC @" ++ x ++ lit "@"))
               = lit "FAMC") as Htok.
  { intros x.
    change (lit "FAMC @" ++ x ++ lit "@")
      with ([70; 65; 77; 67] ++ 32 :: (64 :: x ++ lit "@")).
    rewrite split_on_prefix; [reflexivity|]. rewrite !elem_of_cons.
    intros [?|[?|[?|[?|?%elem_of_nil]]]]; done. }
  split.
  - intros line Hline Hne. rewrite dispatch_level1.
    rewrite (Hstep s i line Hi Hline). by destruct (famc_id i).
  - intros a b Hempty Ha.
    rewrite !dispatch_level1.
    pose proof (Hstep s i _ Hi (Htok a)) as H1. rewrite Hempty in H1.
    cbn [nonempty] in H1.
    rewrite (Hstep _ _ _ H1 (Htok b)). cbn [famc_id set_famc_id].
    assert (slice (lit "FAMC @" ++ a ++ lit "@") (Some 6%Z) (Some (-1)%Z) = a)
      as ->.
    { change (lit "FAMC @") with [70; 65; 77; 67; 32; 64].
      change (lit "@") with [64]. cbn [app]. apply slice_6_to_last. }
    destruct a; [done|]. done.
Qed.

Lemma first_famc_wins_witness :
  famc_id <$> individual importer_with_famc = Some (lit "F1")
  ∧ famc_id <$> individual (dispatch importer_with_famc 1 (lit "FAMC @F2@"))
    = Some (lit "F1").
Proof.
  split; [reflexivity|].
  destruct (first_famc_wins importer_with_famc
              (set_famc_id (ind_set_identifier Individual_init (lit "P1"))
                           (lit "F1")) eq_refl) as [H _].
  rewrite H; [reflexivity|reflexivity|discriminate].
Defined.








(** X4.  Blank pieces of the stream and lines of a level other than 0, 1, 2
    do not matter: the tokenizer ends in the same state, or fails in the same
    way, when they are removed. *)
Theorem ignorable_lines_do_not_matter (int : str → option Z)
    (lines : list bytes) (s : GedcomImport) :
  for_each (handle_line int) lines s
  = for_each (handle_line int)
      (List.filter (λ lb, negb (ignorable int lb)) lines) s.
Proof.
  revert s. induction lines as [|lb lines IH]; intros s; [done|].
  cbn [List.filter for_each]. destruct (ignorable int lb) eqn:E; cbn [negb].
  - assert (handle_line int s lb = Ok s) as ->.
    { rewrite handle_line_parsed. unfold ignorable in E.
      destruct (parsed_line int lb) as [[[level rest]|]|e]; try done.
      simpl. unfold dispatch.
      destruct (level =? 0)%Z, (level =? 1)%Z, (level =? 2)%Z; done. }
    apply IH.
  - cbn [for_each]. destruct (handle_line int s lb); simpl; [apply IH|done].
Qed.

(** ** Byte order mark *)

Lemma utf8_code_points_BOM (bs : bytes) :
  utf8_code_points (BOM_bytes ++ bs) = cons 65279 <$> utf8_code_points bs.
Proof. reflexivity. Qed.

Lemma lstrip_with_app (sp : N → bool) (l m : list N) (x : N) :
  x ∈ l → sp x = false →
  lstrip_with sp (l ++ m) = lstrip_with sp l ++ m.
Proof.
  induction l as [|c l IH]; intros Hx Hsp; [by apply elem_of_nil in Hx|].
  simpl. destruct (sp c) eqn:E; [|done].
  apply elem_of_cons in Hx as [->|Hx]; [congruence|]. by apply IH.
Qed.

Lemma lstrip_with_snoc (sp : N → bool) (l : list N) (c : N) :
  sp c = false → ∃ l', lstrip_with sp (l ++ [c]) = l' ++ [c].
Proof.
  intros Hc. induction l as [|d l (l' & IH)]; simpl.
  - rewrite Hc. by exists [].
  - destruct (sp d); [by exists l'|]. by exists (d :: l).
Qed.

(** Stripping a piece that starts with a non-space byte keeps that byte
    first, and a byte order mark put before it stays in front. *)
Lemma bytes_strip_first (c : N) (lb : bytes) :
  bytes_isspace c = false →
  (∃ rest, bytes_strip (c :: lb) = c :: rest)
  ∧ bytes_strip (BOM_bytes ++ c :: lb) = BOM_bytes ++ bytes_strip (c :: lb).
Proof.
  intros Hc. unfold bytes_strip, strip_with. split.
  - cbn [lstrip_with]. rewrite Hc. cbn [rev].
    destruct (lstrip_with_snoc bytes_isspace (rev lb) c Hc) as (l' & ->).
    rewrite rev_app_distr. by eexists.
  - change (lstrip_with bytes_isspace (BOM_bytes ++ c :: lb))
      with (BOM_bytes ++ c :: lb).
    cbn [lstrip_with]. rewrite Hc, rev_app_distr.
    rewrite (lstrip_with_app bytes_isspace (rev (c :: lb)) _ c);
      [|rewrite list_elem_of_In, <- in_rev; by left|done].
    by rewrite rev_app_distr.
Qed.

Lemma slice_from_1 {A} (a : A) (l : list A) : slice (a :: l) (Some 1%Z) None = l.
Proof.
  unfold slice, slice_bound. cbn [length]. change (1 <? 0)%Z with false.
  cbv iota. replace (Nat.min (Z.to_nat 1) _) with 1%nat by lia.
  replace (S (length l) - 1)%nat with (length l) by lia.
  cbn [drop]. apply firstn_all.
Qed.

(** The first code point decoded from a piece is a space only if its first
    byte is, and the byte order mark only if its first byte is 239. *)
Lemma utf8_first (c : N) (bs : bytes) (line : str) :
  utf8_code_points (c :: bs) = Some line →
  ∃ x line', line = x :: line' ∧ (c ≠ 32 → x ≠ 32) ∧ (c ≠ 239 → x ≠ 65279).
Proof.
  cbn [utf8_code_points]. unfold in_range, is_cont.
  destruct (c <? 128) eqn:E1.
  { destruct (utf8_code_points bs) as [l|]; [|done]. intros [= <-].
    apply N.ltb_lt in E1. eexists _, _. split; [done|]. split; [done|]. lia. }
  destruct ((194 <=? c) && (c <=? 223)) eqn:E2.
  { destruct bs as [|b1 r1]; [done|].
    destruct ((128 <=? b1) && (b1 <=? 191)) eqn:F; [|done].
    destruct (utf8_code_points r1) as [l|]; [|done]. intros [= <-].
    apply andb_true_iff in E2 as [?%N.leb_le ?%N.leb_le].
    apply andb_true_iff in F as [?%N.leb_le ?%N.leb_le].
    eexists _, _. split; [done|]. split; intros _; lia. }
  destruct ((224 <=? c) && (c <=? 239)) eqn:E3.
  { destruct bs as [|b1 [|b2 r2]]; try done.
    apply andb_true_iff in E3 as [?%N.leb_le ?%N.leb_le].
    destruct (N.eqb_spec c 224) as [G1|G1];
      destruct (N.eqb_spec c 237) as [G2|G2];
      (match goal with
       | |- context [if ?cond then _ else _] => destruct cond eqn:F
       end; [|done]);
      (destruct (utf8_code_points r2) as [l|]; [|done]); intros [= <-];
      apply andb_true_iff in F as [[?%N.leb_le ?%N.leb_le]%andb_true_iff
                                   [?%N.leb_le ?%N.leb_le]%andb_true_iff];
      (do 2 eexists; split; [reflexivity|]; split; intros ?; lia). }
  destruct ((240 <=? c) && (c <=? 244)) eqn:E4; [|done].
  destruct bs as [|b1 [|b2 [|b3 r3]]]; try done.
  apply andb_true_iff in E4 as [?%N.leb_le ?%N.leb_le].
  destruct (N.eqb_spec c 240) as [G1|G1];
    destruct (N.eqb_spec c 244) as [G2|G2];
    (match goal with
     | |- context [if ?cond then _ else _] => destruct cond eqn:F
     end; [|done]);
    (destruct (utf8_code_points r3) as [l|]; [|done]); intros [= <-];
    apply andb_true_iff in F as [[[?%N.leb_le ?%N.leb_le]%andb_true_iff
                                  [?%N.leb_le ?%N.leb_le]%andb_true_iff]%andb_true_iff
                                 [?%N.leb_le ?%N.leb_le]%andb_true_iff];
    (do 2 eexists; split; [reflexivity|]; split; intros ?; lia).
Qed.

Lemma parse_level_BOM (int : str → option Z) (x : N) (line : str) :
  x ≠ 32 → x ≠ 65279 →
  parse_level int (65279 :: x :: line) = parse_level int (x :: line).
Proof.
  intros H32 Hbom. unfold parse_level. cbn [split_on].
  destruct (65279 =? 32) eqn:E0; [done|].
  destruct (x =? 32) eqn:E1; [apply N.eqb_eq in E1; done|].
  destruct (split_on_cons 32 line) as (w & ws & ->).
  cbn [first_of hd]. unfold BOM. cbn [startswith].
  rewrite N.eqb_refl. cbn [andb].
  destruct (65279 =? x) eqn:E2; [apply N.eqb_eq in E2; done|]. cbn [andb].
  rewrite !slice_from_1. done.
Qed.

(** X5.  A byte order mark in front of a line that starts with a byte other
    than white space (and other than a second mark) changes nothing: the line
    is handled as without it.  A piece made of the mark alone is not blank,
    though: where a blank piece is skipped, it fails on the empty level. *)
Theorem byte_order_mark_ignored (int : str → option Z) (s : GedcomImport)
    (c : N) (lb : bytes) :
  bytes_isspace c = false → c ≠ 239 →
  handle_line int s (BOM_bytes ++ c :: lb) = handle_line int s (c :: lb)
  ∧ handle_line int s [] = Ok s
  ∧ (int [] = None → handle_line int s BOM_bytes = Raise ValueError).
Proof.
  intros Hc Hbom. split; [|split].
  - destruct (bytes_strip_first c lb Hc) as [[rest Hrest] Hstrip].
    unfold handle_line. rewrite Hstrip, Hrest. unfold decode_utf8.
    rewrite utf8_code_points_BOM.
    destruct (utf8_code_points (c :: rest)) as [line|] eqn:E; [|done].
    assert (c ≠ 32) as H32 by (intros ->; done).
    destruct (utf8_first c rest line E) as (x & line' & -> & Hx32 & Hxbom).
    cbn [fmap option_fmap option_map mbind result_mbind result_bind].
    by rewrite parse_level_BOM by auto.
  - reflexivity.
  - intros Hint. unfold handle_line.
    change (decode_utf8 (bytes_strip BOM_bytes)) with (Ok [65279]).
    cbn [mbind result_mbind result_bind]. unfold parse_level.
    change (split_on 32 [65279]) with [[65279]]. cbn [first_of hd].
    change (startswith [65279] BOM) with true. cbv iota.
    change (slice [65279] (Some 1%Z) None) with (@nil N). by rewrite Hint.
Qed.

Lemma byte_order_mark_ignored_witness :
  handle_line int_ascii GedcomImport_init (BOM_bytes ++ lit "0 @P1@ INDI")
  = handle_line int_ascii GedcomImport_init (lit "0 @P1@ INDI")
  ∧ handle_line int_ascii GedcomImport_init BOM_bytes = Raise ValueError.
Proof.
  destruct (byte_order_mark_ignored int_ascii GedcomImport_init 48
              (lit " @P1@ INDI")) as (H1 & _ & H2);
    [reflexivity|discriminate|].
  split; [exact H1|apply H2; reflexivity].
Defined.

(** * Further properties of the resolver *)

Lemma graph_find_Ok_iff (g : list Node) (id : str) (o : option nat) :
  graph_find g id = Ok o ↔
  (id = [] ∧ o = None)
  ∨ (id ≠ [] ∧ ∃ r, o = Some r ∧ names g r id ∧ ∀ r', names g r' id → r' = r).
Proof.
  destruct (graph_find_contract g id) as (He & Hone & _). split.
  - intros H. destruct id as [|c id'] eqn:Eid.
    + left. split; [done|]. rewrite He in H by done. congruence.
    + right. split; [done|]. unfold graph_find in H.
      destruct (find_from 0 g (c :: id')) as [|r [|r' l]] eqn:E; try done.
      injection H as <-. exists r.
      destruct (graph_find_Some g (c :: id') r) as (_ & ? & ?); [|done].
      unfold graph_find. by rewrite E.
  - intros [[-> ->]|(Hne & r & -> & Hr & Hu)]; [by apply He|by apply Hone].
Qed.

Lemma graph_find_raises (g : list Node) (id : str) (e : exn) :
  graph_find g id = Raise e → e = AssertionError.
Proof.
  unfold graph_find. destruct id; [done|].
  destruct (find_from 0 g _) as [|r [|r' l]]; congruence.
Qed.

Lemma graph_find_succeeds_iff (g : list Node) (id : str) :
  (∃ o, graph_find g id = Ok o) ↔ id = [] ∨ resolvable g id.
Proof.
  split.
  - intros [o [[? _]|(? & r & _ & ? & ?)]%graph_find_Ok_iff]; [by left|].
    right. split; [done|]. eauto.
  - intros [->|(Hne & r & Hr & Hu)]; [by exists None|]. exists (Some r).
    apply graph_find_Ok_iff. right. split; [done|]. eauto.
Qed.

Lemma lookup_all_snoc (g : list Node) (ids : list str) (id : str) :
  lookup_all g (ids ++ [id]) =
  (l ← lookup_all g ids; o ← graph_find g id;
   match o with Some r => Ok (l ++ [r]) | None => Raise AssertionError end).
Proof.
  unfold lookup_all. rewrite for_each_app.
  destruct (for_each (resolve_append g) ids []) as [l|e]; [|done].
  cbn [mbind result_mbind result_bind for_each]. unfold resolve_append.
  destruct (graph_find g id) as [[r|]|e]; done.
Qed.

(** What the resolve loop returns: one node per id, carrying that id. *)
Lemma lookup_all_spec (g : list Node) (ids : list str) (l : list nat) :
  lookup_all g ids = Ok l →
  identifier_at g <$> l = ids ∧ Forall (resolvable g) ids.
Proof.
  revert l. induction ids as [|id ids IH] using rev_ind; intros l.
  - intros [= <-]. by split.
  - rewrite lookup_all_snoc. intros (l0 & H0 & H)%bind_Ok.
    apply bind_Ok in H as (o & Ho & H). destruct o as [r|]; [|done].
    injection H as <-. destruct (IH l0 H0) as [Hids Hall].
    apply graph_find_Ok_iff in Ho as [[_ ?]|(Hne & r' & [= <-] & Hr & Hu)];
      [done|].
    split.
    + rewrite fmap_app, Hids. destruct Hr as (n & Hn & Hid).
      cbn [fmap list_fmap]. unfold identifier_at. rewrite Hn. simpl.
      by rewrite Hid.
    + apply Forall_app. split; [done|]. constructor; [|done].
      split; [done|]. eauto.
Qed.

Lemma lookup_all_succeeds (g : list Node) (ids : list str) :
  Forall (resolvable g) ids → ∃ l, lookup_all g ids = Ok l.
Proof.
  induction ids as [|id ids IH] using rev_ind; [by exists []|].
  intros [Hids [(Hne & r & Hr & Hu) _]%Forall_cons]%Forall_app.
  destruct (IH Hids) as [l Hl]. exists (l ++ [r]).
  rewrite lookup_all_snoc, Hl. cbn [mbind result_mbind result_bind].
  assert (graph_find g id = Ok (Some r)) as ->; [|done].
  apply graph_find_Ok_iff. right. split; [done|]. eauto.
Qed.

Lemma lookup_all_raises (g : list Node) (ids : list str) (e : exn) :
  lookup_all g ids = Raise e → e = AssertionError.
Proof.
  induction ids as [|id ids IH] using rev_ind; [done|].
  rewrite lookup_all_snoc.
  destruct (lookup_all g ids) as [l|e0]; cbn [mbind result_mbind result_bind].
  - destruct (graph_find g id) as [[r|]|e0] eqn:E;
      cbn [mbind result_mbind result_bind]; try congruence.
    intros [= <-]. by eapply graph_find_raises.
  - intros [= <-]. by apply IH.
Qed.

(** When [resolve] succeeds on a node, and that it fails with nothing but
    an assertion error. *)
Lemma resolve_node_succeeds_iff (g : list Node) (n : Node) :
  (∃ n', resolve_node g n = Ok n') ↔
  Forall (λ id, id = [] ∨ resolvable g id) (scalar_ids n)
  ∧ Forall (resolvable g) (list_ids n).
Proof.
  split.
  - intros [n' (l & Hl & _ & Hs & _)%resolve_node_Ok]. split.
    + clear Hl. induction Hs as [|id r ids rs Hid _ IH]; constructor; [|done].
      apply graph_find_succeeds_iff. eauto.
    + by destruct (lookup_all_spec g _ l Hl).
  - intros [Hs Hl]. destruct (lookup_all_succeeds g _ Hl) as [l Hl'].
    destruct n as [ind|fam]; simpl in *.
    + apply Forall_cons in Hs as [[c Hc]%graph_find_succeeds_iff _].
      unfold Individual_resolve. rewrite Hc.
      cbn [mbind result_mbind result_bind fams_ids fams_list set_famc].
      rewrite for_each_resolve_append, Hl'. by eexists.
    + apply Forall_cons in Hs as [[w Hw]%graph_find_succeeds_iff Hs].
      apply Forall_cons in Hs as [[h Hh]%graph_find_succeeds_iff _].
      unfold Family_resolve. rewrite Hw.
      cbn [mbind result_mbind result_bind husb_id set_wife]. rewrite Hh.
      cbn [mbind result_mbind result_bind child_ids child_list set_wife set_husb].
      rewrite for_each_resolve_append, Hl'. by eexists.
Qed.

Lemma resolve_node_raises (g : list Node) (n : Node) (e : exn) :
  resolve_node g n = Raise e → e = AssertionError.
Proof.
  destruct n as [ind|fam]; simpl;
    unfold Individual_resolve, Family_resolve.
  - destruct (graph_find g (famc_id ind)) as [c|e0] eqn:E;
      cbn [mbind result_mbind result_bind fams_ids fams_list set_famc].
    + rewrite for_each_resolve_append.
      destruct (lookup_all g (fams_ids ind)) as [l|e0] eqn:El; [done|].
      intros [= <-]. by eapply lookup_all_raises.
    + intros [= <-]. by eapply graph_find_raises.
  - destruct (graph_find g (wife_id fam)) as [w|e0] eqn:E;
      cbn [mbind result_mbind result_bind husb_id set_wife];
      [|intros [= <-]; by eapply graph_find_raises].
    destruct (graph_find g (husb_id fam)) as [h|e0] eqn:E';
      cbn [mbind result_mbind result_bind child_ids child_list set_wife set_husb];
      [|intros [= <-]; by eapply graph_find_raises].
    rewrite for_each_resolve_append.
    destruct (lookup_all g (child_ids fam)) as [l|e0] eqn:El; [done|].
    intros [= <-]. by eapply lookup_all_raises.
Qed.

Lemma for_each_raises {S A} (body : S → A → result S) (P : exn → Prop)
    (xs : list A) (st : S) (e : exn) :
  (∀ s x e, body s x = Raise e → P e) →
  for_each body xs st = Raise e → P e.
Proof.
  intros Hbody. revert st. induction xs as [|x xs IH]; intros st; [done|].
  cbn [for_each]. destruct (body st x) as [st'|e'] eqn:E;
    cbn [mbind result_mbind result_bind]; [apply IH|].
  intros [= <-]. by eapply Hbody.
Qed.

(** X6.  Resolution of a graph succeeds exactly when, in every node, each
    single id (famc; wife, husb) is empty or carried by exactly one node of
    the graph and each listed id (fams, chil) is non-empty and carried by
    exactly one node; and it fails with nothing but an assertion error. *)
Theorem resolve_all_succeeds_iff (g : list Node) :
  ((∃ g', resolve_all g = Ok g') ↔
   ∀ i n, g !! i = Some n →
     Forall (λ id, id = [] ∨ resolvable g id) (scalar_ids n)
     ∧ Forall (resolvable g) (list_ids n))
  ∧ (∀ e, resolve_all g = Raise e → e = AssertionError).
Proof.
  split; [split|].
  - intros [g' (_ & _ & Hnodes)%resolve_all_Ok] i n Hn.
    apply resolve_node_succeeds_iff.
    destruct (Hnodes i n Hn) as (n1 & _ & ?). eauto.
  - intros H. apply resolve_prefix_total; [|done].
    intros i n Hn. apply resolve_node_succeeds_iff. eauto.
  - intros e. unfold resolve_all.
    apply (for_each_raises resolve_at (λ e, e = AssertionError)).
    intros s i e'. rewrite resolve_at_node.
    destruct (s !! i) as [n|]; [|done].
    destruct (resolve_node s n) as [n'|e0] eqn:E; [done|].
    intros [= <-]. by eapply resolve_node_raises.
Qed.

Lemma resolve_all_fails_on_dangling_id :
  resolve_all dangling_family = Raise AssertionError
  ∧ ∃ g', resolve_all couple_tokenized = Ok g'.
Proof. split; [reflexivity|by eexists]. Qed.

Lemma scalar_neighbours (g : list Node) (ids : list str) (refs : list (option nat)) :
  Forall2 (λ id r, graph_find g id = Ok r) ids refs →
  identifier_at g <$> omap id refs = List.filter nonempty ids.
Proof.
  induction 1 as [|i r ids refs Hi _ IH]; [done|].
  apply graph_find_Ok_iff in Hi as [[-> ->]|(Hne & x & -> & (n & Hn & Hid) & _)].
  - done.
  - destruct i as [|c i]; [done|].
    change (List.filter nonempty ((c :: i) :: ids))
      with ((c :: i) :: List.filter nonempty ids).
    rewrite <- IH. change (omap id (Some x :: refs)) with (x :: omap id refs).
    rewrite fmap_cons. unfold identifier_at at 1. rewrite Hn. simpl.
    by rewrite Hid.
Qed.

Lemma get_neighbours_refs (n : Node) :
  get_neighbours n = omap id (scalar_refs n) ++ list_refs n.
Proof.
  destruct n as [i|f]; simpl.
  - by destruct (famc i).
  - by destruct (wife f), (husb f).
Qed.

(** X7.  After resolution of a graph built by the parser, the neighbours of
    a node are, in this order, the nodes carrying its non-empty single ids
    (famc for an individual; wife then husb for a family) and then the nodes
    carrying its listed ids (fams; chil) in input order. *)
Theorem neighbours_follow_ids (g0 g : list Node) (i : nat) (n : Node) :
  Forall unresolved g0 → resolve_all g0 = Ok g → g !! i = Some n →
  identifier_at g <$> get_neighbours n
  = List.filter nonempty (scalar_ids n) ++ list_ids n.
Proof.
  intros Hfresh Hres Hn.
  destruct (resolve_all_Ok g0 g Hres) as (Hlen & Hids & Hnodes).
  destruct (lookup_lt_is_Some_2 g0 i) as [n0 Hn0].
  { rewrite <- Hlen. by eapply lookup_lt_Some. }
  destruct (Hnodes i n0 Hn0) as (n1 & Hn1 & Hr).
  assert (n1 = n) as -> by congruence.
  destruct (resolve_node_Ok g0 n0 n Hr) as (l & Hl & Hlist & Hs & _ & _ & Hsi & Hli).
  assert (list_refs n0 = []) as Hempty.
  { eapply Forall_lookup_1 in Hfresh as [Hnb _]; [|done].
    rewrite get_neighbours_refs in Hnb. by apply app_eq_nil in Hnb as [_ ?]. }
  rewrite Hempty in Hlist. simpl in Hlist.
  rewrite get_neighbours_refs, fmap_app, Hlist, Hsi, Hli.
  assert (∀ l' : list nat,
            identifier_at g <$> l' = identifier_at g0 <$> l') as Hsame.
  { intros l'. apply list_fmap_ext. intros _ r _. by apply identifier_at_fmap. }
  rewrite !Hsame. rewrite (scalar_neighbours g0 _ _ Hs).
  by destruct (lookup_all_spec g0 _ l Hl) as [-> _].
Qed.

Lemma neighbours_follow_ids_witness :
  ∃ g n, resolve_all cousins_tokenized = Ok g ∧ g !! 5%nat = Some n
         ∧ identifier_at g <$> get_neighbours n = [lit "A"; lit "C"].
Proof.
  destruct (resolve_all cousins_tokenized) as [g|e] eqn:E;
    [|vm_compute in E; discriminate].
  destruct (g !! 5%nat) as [n|] eqn:En;
    [|vm_compute in E; injection E as <-; discriminate].
  exists g, n. split; [done|]. split; [done|].
  rewrite (neighbours_follow_ids cousins_tokenized g 5%nat n).
  - vm_compute in E. injection E as <-. injection En as <-. reflexivity.
  - repeat (constructor; [split; reflexivity|]). constructor.
  - exact E.
  - exact En.
Defined.

Lemma resolve_node_erase (g : list Node) (n n' : Node) :
  resolve_node g n = Ok n' → erase_refs n' = erase_refs n.
Proof.
  destruct n as [ind|fam]; simpl.
  - intros (ind' & Hr & [= <-])%bind_Ok. unfold Individual_resolve in Hr.
    apply bind_Ok in Hr as (c & _ & Hr).
    apply bind_Ok in Hr as (l & _ & [= <-]). by destruct ind.
  - intros (fam' & Hr & [= <-])%bind_Ok. unfold Family_resolve in Hr.
    apply bind_Ok in Hr as (w & _ & Hr). apply bind_Ok in Hr as (h & _ & Hr).
    apply bind_Ok in Hr as (l & _ & [= <-]). by destruct fam.
Qed.

(** X8.  Resolution writes reference fields only: with the references
    cleared, the resolved graph is the graph it started from (same nodes in
    the same order, same identifiers, ids, names, sex, notes, years and
    depths). *)
Theorem resolve_all_changes_references_only (g g' : list Node) :
  resolve_all g = Ok g' → erase_refs <$> g' = erase_refs <$> g.
Proof.
  intros (Hlen & _ & Hnodes)%resolve_all_Ok.
  apply list_eq. intros i. rewrite !list_lookup_fmap.
  destruct (g !! i) as [n|] eqn:Hn.
  - destruct (Hnodes i n Hn) as (n1 & -> & Hr). simpl.
    by rewrite (resolve_node_erase g n n1 Hr).
  - apply lookup_ge_None in Hn. rewrite <- Hlen in Hn.
    apply lookup_ge_None in Hn. by rewrite Hn.
Qed.

Lemma resolve_all_changes_references_only_witness :
  ∃ g', resolve_all couple_tokenized = Ok g'
        ∧ erase_refs <$> g' = couple_tokenized.
Proof.
  destruct (resolve_all couple_tokenized) as [g'|e] eqn:E;
    [|vm_compute in E; discriminate].
  exists g'. split; [done|].
  by rewrite (resolve_all_changes_references_only couple_tokenized g' E).
Defined.

(** * Further properties of the traversal *)

(** X9.  Edge cases of [bfs] on a root of the store: without the
    [familydepth] key it raises [KeyError]; with a value [int] rejects it
    raises [ValueError]; and when the root is already deeper than the cutoff
    (a negative family depth, for a root at depth 0) it returns the empty
    list and leaves the store alone. *)
Theorem bfs_edge_cases (int : str → option Z) (g : list Node) (root : nat)
    (config : gmap str str) :
  (root < length g)%nat →
  (config !! lit "familydepth" = None →
   bfs int g root config = Some (Raise KeyError))
  ∧ (∀ v, config !! lit "familydepth" = Some v → int v = None →
       bfs int g root config = Some (Raise ValueError))
  ∧ (∀ v fd, config !! lit "familydepth" = Some v → int v = Some fd →
       (fd * 2 + 1 < depth_at g root)%Z →
       bfs int g root config = Some (Ok (g, []))).
Proof.
  intros Hroot. unfold bfs. destruct (length g) as [|fuel] eqn:E; [lia|].
  split; [|split].
  - intros Hc. cbn [bfs_loop]. by rewrite Hc.
  - intros v Hc Hi. cbn [bfs_loop]. by rewrite Hc, Hi.
  - intros v fd Hc Hi Hd.
    rewrite (bfs_loop_step int fuel config g [root] [] [] root v fd Hc Hi).
    apply Z.ltb_lt in Hd. by rewrite Hd.
Qed.

Lemma bfs_edge_cases_witness :
  bfs int_ascii couple_graph 2%nat ∅ = Some (Raise KeyError)
  ∧ bfs int_ascii couple_graph 2%nat (familydepth "x") = Some (Raise ValueError)
  ∧ bfs int_ascii couple_graph 2%nat (familydepth "-1")
    = Some (Ok (couple_graph, [])).
Proof.
  destruct (bfs_edge_cases int_ascii couple_graph 2%nat ∅) as (H1 & _ & _);
    [simpl; lia|].
  destruct (bfs_edge_cases int_ascii couple_graph 2%nat (familydepth "x"))
    as (_ & H2 & _); [simpl; lia|].
  destruct (bfs_edge_cases int_ascii couple_graph 2%nat (familydepth "-1"))
    as (_ & _ & H3); [simpl; lia|].
  split; [by apply H1|]. split.
  - by apply (H2 (lit "x")).
  - by apply (H3 (lit "-1") (-1)%Z).
Defined.

(** The depth of a returned node, as the traversal leaves it in the store,
    is within the cutoff. *)
Lemma bfs_loop_depths (int : str → option Z) (config : gmap str str)
    (v : str) (fd : Z) :
  config !! lit "familydepth" = Some v → int v = Some fd →
  ∀ fuel g visited queue ret g' ret',
    (∀ n r, r ∈ neighbours_at g n → (r < length g)%nat) →
    (∀ r, r ∈ ret ++ queue → r ∈ visited) →
    (∀ r, r ∈ ret → (depth_at g r ≤ fd * 2 + 1)%Z) →
    bfs_loop int fuel config g visited queue ret = Some (Ok (g', ret')) →
    ∀ r, r ∈ ret' → (depth_at g' r ≤ fd * 2 + 1)%Z.
Proof.
  intros Hc Hi. induction fuel as [|fuel IH];
    intros g visited queue ret g' ret' Hvalid Hvis Hdep;
    destruct queue as [|node queue]; try (by intros [= <- <-]).
  rewrite (bfs_loop_step int fuel config g visited queue ret node v fd Hc Hi).
  destruct (fd * 2 + 1 <? depth_at g node)%Z eqn:Hcut;
    [by intros [= <- <-]|].
  apply Z.ltb_ge in Hcut.
  set (new := discovered visited (neighbours_at g node)).
  assert (node ∈ visited) as Hnode.
  { apply Hvis. rewrite elem_of_app. right. by left. }
  assert (node ∉ new) as Hnew by (intros [_ ?]%discovered_elem; done).
  assert (∀ x, x ∈ new → (x < length g)%nat) as Hnv
    by (intros x [? _]%discovered_elem; by eapply Hvalid).
  pose proof (assign_depths_links node g new) as [Hlen Hsame].
  pose proof (assign_depths_depth node g new) as Hdepth.
  apply IH.
  - intros m r. destruct (Hsame m) as [-> _]. rewrite Hlen. apply Hvalid.
  - intros r. rewrite !elem_of_app, list_elem_of_singleton.
    intros [[Hr| ->]|[Hr|Hr]]; auto; left; try done; apply Hvis;
      rewrite elem_of_app, elem_of_cons; auto.
  - intros r Hr. rewrite Hdepth by done.
    assert (r ∈ visited) as Hrv.
    { apply elem_of_app in Hr as [Hr| ->%list_elem_of_singleton]; [|done].
      apply Hvis. rewrite elem_of_app. by left. }
    rewrite bool_decide_eq_false_2
      by (intros [_ ?]%discovered_elem; done).
    apply elem_of_app in Hr as [Hr| ->%list_elem_of_singleton]; [by apply Hdep|].
    done.
Qed.

(** X10.  On a resolved graph, from any root, the traversal returns only
    nodes linked to the root by a chain of neighbour links, each left in the
    store with a depth within the cutoff [familydepth * 2 + 1]; and the
    store it leaves differs from the one it started on in depths only (same
    size, same links, same identifiers). *)
Theorem bfs_returns_linked_nodes_within_cutoff (int : str → option Z)
    (g0 g : list Node) (root : nat) (config : gmap str str) (v : str) (fd : Z) :
  Forall unresolved g0 → resolve_all g0 = Ok g →
  (root < length g)%nat →
  config !! lit "familydepth" = Some v → int v = Some fd →
  ∃ g' ret,
    bfs int g root config = Some (Ok (g', ret))
    ∧ same_links g g'
    ∧ (∀ r, r ∈ ret → rtc (linked g) root r)
    ∧ (∀ r, r ∈ ret → (depth_at g' r ≤ fd * 2 + 1)%Z).
Proof.
  intros Hfresh Hres Hroot Hc Hi.
  destruct (resolve_all_links g0 g Hfresh Hres) as [Hlinks _].
  assert (∀ n r, r ∈ neighbours_at g n → (r < length g)%nat) as Hvalid
    by (intros n r Hr; by destruct (Hlinks n r Hr)).
  set (Q := λ r : nat, (r < length g)%nat ∧ rtc (linked g) root r).
  destruct (bfs_loop_terminates int config v fd g Q Hc Hi) with
    (fuel := length g) (g := g) (visited := [root]) (queue := [root])
    (ret := @nil nat) as (g' & ret & Hrun & Hsame & _ & HQ).
  - intros n r [_ Hn] Hr. split; [by eapply Hvalid|].
    eapply rtc_r; [exact Hn|exact Hr].
  - by intros r [? _].
  - apply same_links_refl.
  - apply NoDup_singleton.
  - done.
  - intros r ->%list_elem_of_singleton. by split.
  - simpl. lia.
  - exists g', ret. split; [done|]. split; [done|]. split.
    + intros r Hr. by destruct (HQ r Hr).
    + eapply (bfs_loop_depths int config v fd Hc Hi); [exact Hvalid| | |exact Hrun].
      * by intros r Hr.
      * by intros r ?%elem_of_nil.
Qed.

Lemma bfs_returns_linked_nodes_within_cutoff_witness :
  ∃ g g' ret,
    resolve_all cousins_tokenized = Ok g
    ∧ bfs int_ascii g 7%nat (familydepth "1") = Some (Ok (g', ret))
    ∧ ret = [7; 3; 2; 6; 5; 1; 0]%nat
    ∧ (∀ r, r ∈ ret → (depth_at g' r ≤ 3)%Z).
Proof.
  destruct (resolve_all cousins_tokenized) as [g|e] eqn:E;
    [|vm_compute in E; discriminate].
  destruct (bfs_returns_linked_nodes_within_cutoff int_ascii cousins_tokenized
              g 7%nat (familydepth "1") (lit "1") 1%Z)
    as (g' & ret & Hrun & _ & _ & Hd).
  - repeat (constructor; [split; reflexivity|]). constructor.
  - exact E.
  - vm_compute in E. injection E as <-. simpl. lia.
  - vm_compute. reflexivity.
  - reflexivity.
  - exists g, g', ret. split; [reflexivity|]. split; [exact Hrun|].
    split; [|exact Hd].
    vm_compute in E. injection E as <-. vm_compute in Hrun.
    by injection Hrun as <- <-.
Defined.

(** * UTF-8 *)

Ltac div_lia := zify; Z.to_euclidean_division_equations; lia.

(** Decides the comparisons of the goal from the hypotheses. *)
Ltac decide_tests :=
  repeat match goal with
         | |- context [?a =? ?b] => destruct (N.eqb_spec a b); try lia
         end;
  repeat match goal with
         | |- context [?a <? ?b] => destruct (N.ltb_spec a b); try lia
         | |- context [?a <=? ?b] => destruct (N.leb_spec a b); try lia
         end.

Lemma utf8_1 (c : N) (rest : bytes) :
  c < 128 → utf8_code_points (c :: rest) = cons c <$> utf8_code_points rest.
Proof. intros. cbn [utf8_code_points]. by decide_tests. Qed.

Lemma utf8_2 (b0 b1 : N) (rest : bytes) :
  194 <= b0 <= 223 → 128 <= b1 <= 191 →
  utf8_code_points (b0 :: b1 :: rest)
  = cons ((b0 - 192) * 64 + (b1 - 128)) <$> utf8_code_points rest.
Proof.
  intros. cbn [utf8_code_points]. unfold in_range, is_cont. by decide_tests.
Qed.

Lemma utf8_3 (b0 b1 b2 : N) (rest : bytes) :
  224 <= b0 <= 239 → 128 <= b1 <= 191 → 128 <= b2 <= 191 →
  (b0 = 224 → 160 <= b1) → (b0 = 237 → b1 <= 159) →
  utf8_code_points (b0 :: b1 :: b2 :: rest)
  = cons ((b0 - 224) * 4096 + (b1 - 128) * 64 + (b2 - 128))
      <$> utf8_code_points rest.
Proof.
  intros. cbn [utf8_code_points]. unfold in_range, is_cont. by decide_tests.
Qed.

Lemma utf8_4 (b0 b1 b2 b3 : N) (rest : bytes) :
  240 <= b0 <= 244 → 128 <= b1 <= 191 → 128 <= b2 <= 191 →
  128 <= b3 <= 191 →
  (b0 = 240 → 144 <= b1) → (b0 = 244 → b1 <= 143) →
  utf8_code_points (b0 :: b1 :: b2 :: b3 :: rest)
  = cons ((b0 - 240) * 262144 + (b1 - 128) * 4096 + (b2 - 128) * 64
          + (b3 - 128)) <$> utf8_code_points rest.
Proof.
  intros. cbn [utf8_code_points]. unfold in_range, is_cont. by decide_tests.
Qed.

(** Decoding what [encode_char] produced gives the code point back. *)
Lemma utf8_encode_char (c : N) (bs rest : bytes) :
  encode_char c = Some bs →
  utf8_code_points (bs ++ rest) = cons c <$> utf8_code_points rest.
Proof.
  unfold encode_char, in_range.
  destruct (N.ltb_spec c 128); [intros [= <-]; by apply utf8_1|].
  destruct (N.ltb_spec c 2048).
  { intros [= <-]. cbn [app]. rewrite utf8_2 by div_lia.
    f_equal. f_equal. div_lia. }
  destruct (N.leb_spec 55296 c), (N.leb_spec c 57343); cbn [andb];
    try done; try lia;
    (destruct (N.ltb_spec c 65536);
     [intros [= <-]; cbn [app]; rewrite utf8_3 by div_lia;
      f_equal; f_equal; div_lia|]);
    (destruct (N.ltb_spec c 1114112); [|done]);
    intros [= <-]; cbn [app]; rewrite utf8_4 by div_lia;
    f_equal; f_equal; div_lia.
Qed.

Lemma decode_to_bytes (s : str) (b : bytes) :
  to_bytes s = Ok b → decode_utf8 b = Ok s.
Proof.
  unfold decode_utf8. revert b. induction s as [|c s IH]; intros b.
  - by intros [= <-].
  - cbn [to_bytes]. destruct (encode_char c) as [bs|] eqn:E; [|done].
    intros (rest & Hrest & [= <-])%bind_Ok.
    rewrite (utf8_encode_char c bs rest E).
    specialize (IH rest Hrest). by destruct (utf8_code_points rest) as [s'|];
      [injection IH as ->|].
Qed.

(** Equality of two encodings, byte by byte. *)
Ltac bytes_eq :=
  f_equal; repeat (apply (f_equal2 cons); [div_lia|]); reflexivity.

Ltac decoded_parts :=
  split; [reflexivity|]; split; [simpl; lia|]; split; [reflexivity|];
  split; [assumption|].

(** What the decoder reads first: the encoding of the first code point. *)
Lemma utf8_decode_first (b0 : N) (r0 : bytes) (s : str) :
  utf8_code_points (b0 :: r0) = Some s →
  ∃ c bs rest s',
    b0 :: r0 = bs ++ rest ∧ (length rest < length (b0 :: r0))%nat
    ∧ s = c :: s' ∧ utf8_code_points rest = Some s'
    ∧ encode_char c = Some bs.
Proof.
  cbn [utf8_code_points]. unfold in_range, is_cont.
  destruct (N.ltb_spec b0 128).
  { destruct (utf8_code_points r0) as [l|] eqn:El; [|done]. intros [= <-].
    exists b0, [b0], r0, l. decoded_parts.
    unfold encode_char. by decide_tests. }
  destruct (N.leb_spec 194 b0); cbn [andb];
    [|destruct (N.leb_spec 224 b0), (N.leb_spec 240 b0); cbn [andb];
      try lia; done].
  destruct (N.leb_spec b0 223); cbn [andb].
  { destruct r0 as [|b1 r1]; [done|].
    destruct (N.leb_spec 128 b1), (N.leb_spec b1 191); cbn [andb]; try done.
    destruct (utf8_code_points r1) as [l|] eqn:El; [|done]. intros [= <-].
    exists ((b0 - 192) * 64 + (b1 - 128)), [b0; b1], r1, l.
    decoded_parts. unfold encode_char. decide_tests. bytes_eq. }
  destruct (N.leb_spec 224 b0); [|lia]. cbn [andb].
  destruct (N.leb_spec b0 239); cbn [andb].
  { destruct r0 as [|b1 [|b2 r2]]; try done.
    destruct (N.eqb_spec b0 224), (N.eqb_spec b0 237); try lia;
      (match goal with
       | |- context [?lo <=? b1] => destruct (N.leb_spec lo b1)
       end; cbn [andb]; [|done]);
      (match goal with
       | |- context [b1 <=? ?hi] => destruct (N.leb_spec b1 hi)
       end; cbn [andb]; [|done]);
      (destruct (N.leb_spec 128 b2), (N.leb_spec b2 191); cbn [andb];
       try done);
      (destruct (utf8_code_points r2) as [l|] eqn:El; [|done]);
      intros [= <-];
      exists ((b0 - 224) * 4096 + (b1 - 128) * 64 + (b2 - 128)),
        [b0; b1; b2], r2, l;
      decoded_parts;
      unfold encode_char, in_range; decide_tests; bytes_eq. }
  destruct (N.leb_spec 240 b0); [|lia]. cbn [andb].
  destruct (N.leb_spec b0 244); cbn [andb]; [|done].
  destruct r0 as [|b1 [|b2 [|b3 r3]]]; try done.
  destruct (N.eqb_spec b0 240), (N.eqb_spec b0 244); try lia;
    (match goal with
     | |- context [?lo <=? b1] => destruct (N.leb_spec lo b1)
     end; cbn [andb]; [|done]);
    (match goal with
     | |- context [b1 <=? ?hi] => destruct (N.leb_spec b1 hi)
     end; cbn [andb]; [|done]);
    (destruct (N.leb_spec 128 b2), (N.leb_spec b2 191); cbn [andb];
     try done);
    (destruct (N.leb_spec 128 b3), (N.leb_spec b3 191); cbn [andb];
     try done);
    (destruct (utf8_code_points r3) as [l|] eqn:El; [|done]);
    intros [= <-];
    exists ((b0 - 240) * 262144 + (b1 - 128) * 4096 + (b2 - 128) * 64
            + (b3 - 128)), [b0; b1; b2; b3], r3, l;
    decoded_parts;
    unfold encode_char, in_range; decide_tests; bytes_eq.
Qed.

Lemma to_bytes_decode (b : bytes) (s : str) :
  decode_utf8 b = Ok s → to_bytes s = Ok b.
Proof.
  unfold decode_utf8. remember (length b) as n eqn:Hn.
  revert b s Hn. induction n as [n IH] using lt_wf_ind. intros b s ->.
  destruct b as [|b0 r0].
  - by intros [= <-].
  - destruct (utf8_code_points (b0 :: r0)) as [s0|] eqn:E; [|done].
    intros [= <-].
    destruct (utf8_decode_first b0 r0 s0 E)
      as (c & bs & rest & s' & Heq & Hlen & -> & Hrest & Henc).
    cbn [to_bytes]. rewrite Henc.
    rewrite (IH (length rest) Hlen rest s' eq_refl) by (by rewrite Hrest).
    cbn [mbind result_mbind result_bind]. by rewrite Heq.
Qed.

(** X11.  UTF-8 round trips: the bytes [to_bytes] gives decode to the text
    they encode, and every text decoded from a byte string encodes, without
    error, to that byte string. *)
Theorem utf8_round_trip (s : str) (b : bytes) :
  (to_bytes s = Ok b → decode_utf8 b = Ok s)
  ∧ (decode_utf8 b = Ok s → to_bytes s = Ok b).
Proof. split; [apply decode_to_bytes|apply to_bytes_decode]. Qed.

Lemma utf8_round_trip_witness :
  to_bytes [65279; 233; 8364; 128512] 
  = Ok [239; 187; 191; 195; 169; 226; 130; 172; 240; 159; 152; 128]
  ∧ decode_utf8 [239; 187; 191; 195; 169; 226; 130; 172; 240; 159; 152; 128]
    = Ok [65279; 233; 8364; 128512].
Proof.
  assert (to_bytes [65279; 233; 8364; 128512]
          = Ok [239; 187; 191; 195; 169; 226; 130; 172; 240; 159; 152; 128])
    as H by reflexivity.
  split; [exact H|]. by apply (utf8_round_trip _ _).
Defined.

(** * Further properties of the serializer *)

Lemma to_bytes_raises (s : str) (e : exn) :
  to_bytes s = Raise e → e = UnicodeEncodeError.
Proof.
  induction s as [|c s IH]; [done|]. cbn [to_bytes].
  destruct (encode_char c) as [bs|]; [|congruence].
  destruct (to_bytes s) as [rest|e']; [done|]. intros [= <-]. by apply IH.
Qed.

Lemma write_Ok (stream out : bytes) (s : str) :
  write stream s = Ok out → ∃ b, to_bytes s = Ok b ∧ out = stream ++ b.
Proof. unfold write. intros (b & Hb & [= <-])%bind_Ok. eauto. Qed.

Lemma write_raises (stream : bytes) (s : str) (e : exn) :
  write stream s = Raise e → e = UnicodeEncodeError.
Proof.
  unfold write. destruct (to_bytes s) as [b|e'] eqn:E; [done|].
  intros [= <-]. by eapply to_bytes_raises.
Qed.

(** A loop of writes only appends to the stream. *)
Lemma for_each_extends {A} (body : bytes → A → result bytes) (xs : list A)
    (stream out : bytes) :
  (∀ s x o, body s x = Ok o → ∃ b, o = s ++ b) →
  for_each body xs stream = Ok out → ∃ b, out = stream ++ b.
Proof.
  intros Hbody. revert stream. induction xs as [|x xs IH]; intros stream.
  - intros [= <-]. exists []. by rewrite app_nil_r.
  - cbn [for_each]. intros (s1 & H1 & H2)%bind_Ok.
    destruct (Hbody _ _ _ H1) as [b1 ->]. destruct (IH _ H2) as [b2 ->].
    exists (b1 ++ b2). by rewrite app_assoc.
Qed.

Lemma family_nodes_loop (g : list Node) (subgraph : list nat) (stream : bytes) :
  for_each (λ stream node,
              match g !! node with
              | Some (NFamily fam) =>
                  write stream (fam_identifier fam
                                ++ lit " [shape=point, width=0.1];" ++ [10])
              | _ => Ok stream
              end) subgraph stream
  = for_each write (family_declaration <$> families g subgraph) stream.
Proof.
  unfold families. revert stream.
  induction subgraph as [|r sub IH]; intros stream; [done|].
  cbn [for_each omap list_omap].
  destruct (g !! r) as [[ind|fam]|]; cbn [mbind result_mbind result_bind];
    try apply IH.
  cbn [option_bind fmap list_fmap for_each]. fold (family_declaration fam).
  destruct (write stream (family_declaration fam)) as [s1|e];
    cbn [mbind result_mbind result_bind]; [apply IH|done].
Qed.

(** X12.  The family section of a document is a blank line, one point-shaped
    declaration per family of the subgraph in subgraph order (individuals
    contribute nothing), and a blank line. *)
Theorem store_family_nodes_declares_families (g : list Node)
    (subgraph : list nat) (stream : bytes) :
  store_family_nodes g subgraph stream
  = (b ← to_bytes ([10] ++ concat (family_declaration <$> families g subgraph)
                   ++ [10]);
     Ok (stream ++ b)).
Proof.
  unfold store_family_nodes.
  change (write stream [10]) with (@Ok bytes (stream ++ [10])).
  cbn [mbind result_mbind result_bind].
  rewrite family_nodes_loop, write_all, !to_bytes_app.
  change (to_bytes [10]) with (@Ok bytes [10]).
  cbn [mbind result_mbind result_bind].
  destruct (to_bytes (concat _)) as [d|e];
    cbn [mbind result_mbind result_bind]; [|done].
  unfold write. change (to_bytes [10]) with (@Ok bytes [10]).
  cbn [mbind result_mbind result_bind]. by rewrite <- !app_assoc.
Qed.

Lemma bind_Raise {A B} (f : A → result B) (m : result A) (e : exn) :
  (m ≫= f) = Raise e → m = Raise e ∨ ∃ a, m = Ok a ∧ f a = Raise e.
Proof. destruct m as [a|e']; simpl; [eauto|]. intros [= <-]. by left. Qed.

Lemma to_bytes_ascii (s : str) : isascii s = true → to_bytes s = Ok s.
Proof.
  induction s as [|c s IH]; [done|]. cbn [isascii forallb].
  intros [Hc Hs]%andb_true_iff. cbn [to_bytes]. unfold encode_char.
  rewrite Hc. fold (isascii s) in Hs. by rewrite (IH Hs).
Qed.

Lemma write_ascii (stream : bytes) (s : str) :
  isascii s = true → write stream s = Ok (stream ++ s).
Proof. intros H. unfold write. by rewrite (to_bytes_ascii s H). Qed.

Lemma get_color_raises (upper_ext : str → str) (i : Individual) (e : exn) :
  get_color upper_ext i = Raise e → e = KeyError.
Proof. unfold get_color. destruct (color_table !! _); congruence. Qed.

Lemma get_label_raises (lower_ext : str → str) (path_exists : bytes → bool)
    (module_dir : str) (i : Individual) (image_dir name_order : str) (e : exn) :
  get_label lower_ext path_exists module_dir i image_dir name_order = Raise e →
  e = UnicodeEncodeError.
Proof.
  unfold get_label, label_image_path.
  destruct (to_bytes _) as [b|e'] eqn:E;
    cbn [mbind result_mbind result_bind].
  - by destruct (negb (path_exists b)).
  - intros [= <-]. by eapply to_bytes_raises.
Qed.

Section ExportFacts.
Variables upper_ext lower_ext : str → str.
Variable path_exists : bytes → bool.
Variable module_dir : str.
Variable realpath_dirname : str → result str.

Lemma store_individual_node_extends (config : gmap str str) (stream out : bytes)
    (i : Individual) :
  store_individual_node upper_ext lower_ext path_exists module_dir
    realpath_dirname config stream i = Ok out →
  ∃ b, out = stream ++ b.
Proof.
  unfold store_individual_node.
  intros (s1 & (b1 & _ & ->)%write_Ok & H)%bind_Ok.
  apply bind_Ok in H as (image_dir_abs & _ & H).
  apply bind_Ok in H as (label & _ & H).
  apply bind_Ok in H as (s2 & (b2 & _ & ->)%write_Ok & H).
  apply bind_Ok in H as (color & _ & (b3 & _ & ->)%write_Ok).
  exists (b1 ++ b2 ++ b3). by rewrite <- !app_assoc.
Qed.

Lemma store_individual_node_raises (config : gmap str str) (stream : bytes)
    (i : Individual) (e : exn) :
  store_individual_node upper_ext lower_ext path_exists module_dir
    realpath_dirname config stream i = Raise e →
  e = KeyError ∨ e = UnicodeEncodeError
  ∨ realpath_dirname (config_get config (lit "input") []) = Raise e.
Proof.
  unfold store_individual_node.
  intros [H|(s1 & _ & H)]%bind_Raise;
    [right; left; by eapply write_raises|].
  apply bind_Raise in H as [H|(image_dir_abs & _ & H)].
  { right. right. unfold get_data_abspath in H.
    destruct (isabs _); [done|].
    by apply bind_Raise in H as [H|(dir & _ & [=])]. }
  apply bind_Raise in H as [H|(label & _ & H)];
    [right; left; by eapply get_label_raises|].
  apply bind_Raise in H as [H|(s2 & _ & H)];
    [right; left; by eapply write_raises|].
  apply bind_Raise in H as [H|(color & _ & H)];
    [left; by eapply get_color_raises|].
  right. left. by eapply write_raises.
Qed.

Lemma store_to_stream_extends (g : list Node) (subgraph : list nat)
    (stream out : bytes) (config : gmap str str) :
  store_to_stream upper_ext lower_ext path_exists module_dir
    realpath_dirname g subgraph stream config = Ok out →
  ∃ body, out = stream ++ document_head ++ body ++ document_tail.
Proof.
  unfold store_to_stream.
  do 5 (rewrite !write_ascii by reflexivity;
        cbn [mbind result_mbind result_bind]).
  intros (s1 & H1 & H)%bind_Ok.
  apply bind_Ok in H as (s2 & H2 & H). apply bind_Ok in H as (s3 & H3 & H).
  apply write_Ok in H as (tb & Htb & ->).
  assert (tb = document_tail) as -> by (by vm_compute in Htb; injection Htb).
  apply for_each_extends in H1 as [b1 ->].
  2:{ intros s r o. destruct (g !! r) as [[i|f]|];
        [apply store_individual_node_extends| |];
        intros [= <-]; exists []; by rewrite app_nil_r. }
  unfold store_family_nodes in H2.
  apply bind_Ok in H2 as (t1 & (c1 & _ & ->)%write_Ok & H2).
  apply bind_Ok in H2 as (t2 & H2 & (c3 & _ & ->)%write_Ok).
  rewrite family_nodes_loop, write_all in H2.
  apply bind_Ok in H2 as (c2 & _ & [= <-]).
  rewrite store_edges_write, write_all in H3.
  apply bind_Ok in H3 as (b3 & _ & [= <-]).
  exists (b1 ++ c1 ++ c2 ++ c3 ++ b3). unfold document_head.
  by rewrite <- !app_assoc.
Qed.

Lemma store_to_stream_raises (g : list Node) (subgraph : list nat)
    (stream : bytes) (config : gmap str str) (e : exn) :
  store_to_stream upper_ext lower_ext path_exists module_dir
    realpath_dirname g subgraph stream config = Raise e →
  e = KeyError ∨ e = UnicodeEncodeError
  ∨ realpath_dirname (config_get config (lit "input") []) = Raise e.
Proof.
  unfold store_to_stream.
  do 5 (rewrite !write_ascii by reflexivity;
        cbn [mbind result_mbind result_bind]).
  intros [H|(s1 & _ & H)]%bind_Raise.
  { eapply (for_each_raises _
              (λ e, e = KeyError ∨ e = UnicodeEncodeError
                    ∨ realpath_dirname (config_get config (lit "input") [])
                      = Raise e));
      [|exact H].
    intros s r e' Hr. cbv beta in Hr.
    repeat case_match; try discriminate Hr.
    exact (store_individual_node_raises _ _ _ _ Hr). }
  right. left. apply bind_Raise in H as [H|(s2 & _ & H)].
  { unfold store_family_nodes in H.
    apply bind_Raise in H as [H|(t1 & _ & H)]; [by eapply write_raises|].
    apply bind_Raise in H as [H|(t2 & _ & H)]; [|by eapply write_raises].
    rewrite family_nodes_loop, write_all in H.
    apply bind_Raise in H as [H|(c2 & _ & H)]; [|done].
    by eapply to_bytes_raises. }
  apply bind_Raise in H as [H|(s3 & _ & H)]; [|by eapply write_raises].
  rewrite store_edges_write, write_all in H.
  apply bind_Raise in H as [H|(c2 & _ & H)]; [|done].
  by eapply to_bytes_raises.
Qed.

(** X13.  A document that [store_to_stream] completes is the stream it was
    given followed by the fixed head (generator comment, [digraph], opening
    brace, orthogonal splines, blank line), the three sections, and the
    closing brace line.  When it does not complete, the failure is a
    [KeyError] (a sex without colour), a [UnicodeEncodeError], or the
    exception that [os.path.realpath] raised on the input path. *)
Theorem store_to_stream_frame (g : list Node) (subgraph : list nat)
    (stream : bytes) (config : gmap str str) :
  (∀ out,
     store_to_stream upper_ext lower_ext path_exists module_dir
       realpath_dirname g subgraph stream config = Ok out →
     ∃ body, out = stream ++ document_head ++ body ++ document_tail)
  ∧ (∀ e,
       store_to_stream upper_ext lower_ext path_exists module_dir
         realpath_dirname g subgraph stream config = Raise e →
       e = KeyError ∨ e = UnicodeEncodeError
       ∨ realpath_dirname (config_get config (lit "input") []) = Raise e).
Proof.
  split; [intros out|intros e].
  - apply store_to_stream_extends.
  - apply store_to_stream_raises.
Qed.
End ExportFacts.
(** * The API: [convert] *)

(** On a graph with resolved links the traversal ends, from any root of the
    store and under any configuration. *)
Lemma bfs_total (int : str → option Z) (g : list Node) (root : nat)
    (config : gmap str str) :
  links_resolved g → (root < length g)%nat →
  ∃ r, bfs int g root config = Some r.
Proof.
  intros Hlinks Hroot. unfold bfs.
  destruct (config !! lit "familydepth") as [v|] eqn:Hc.
  2:{ destruct (length g) as [|fuel]; [lia|]. cbn [bfs_loop]. rewrite Hc. eauto. }
  destruct (int v) as [fd|] eqn:Hi.
  2:{ destruct (length g) as [|fuel]; [lia|]. cbn [bfs_loop].
      rewrite Hc, Hi. eauto. }
  destruct (bfs_loop_terminates int config v fd g
              (λ r, (r < length g)%nat) Hc Hi) with
    (fuel := length g) (g := g) (visited := [root]) (queue := [root])
    (ret := @nil nat) as (g' & ret & Hrun & _).
  - intros n r _ Hr. by destruct (Hlinks n r Hr).
  - done.
  - apply same_links_refl.
  - apply NoDup_singleton.
  - done.
  - by intros r ->%list_elem_of_singleton.
  - simpl. lia.
  - rewrite Hrun. eauto.
Qed.

Section ConvertFacts.
Variable int : str → option Z.
Variables upper_ext lower_ext : str → str.
Variable path_exists : bytes → bool.
Variable module_dir : str.
Variable realpath_dirname : str → result str.

Lemma load_config_Ok (config : gmap str str) (input : bytes) (g : list Node) :
  load_config int config input = Ok g ↔
  (∃ path, config !! lit "input" = Some path) ∧ load int input = Ok g.
Proof.
  unfold load_config, tokenize, load.
  destruct (config !! lit "input") as [path|]; split.
  - intros H. split; [eauto|done].
  - by intros [_ H].
  - done.
  - by intros [[path [=]] _].
Qed.

(** X14.  [convert] always ends.  When it completes, the configuration
    holds the [input] and [rootfamily] keys, the input loads into a graph in
    which exactly one node carries the root family id, and the output is
    what the output stream held followed by a whole document (head, body,
    closing brace).  When the input loads and the root family id is empty,
    carried by no node or carried by several, [convert] fails with an
    assertion error and writes nothing. *)
Theorem convert_contract (config : gmap str str) (input output : bytes) :
  (∃ r, convert int upper_ext lower_ext path_exists module_dir
          realpath_dirname config input output = Some r)
  ∧ (∀ out,
       convert int upper_ext lower_ext path_exists module_dir
         realpath_dirname config input output = Some (Ok out) →
       ∃ path id g body,
         config !! lit "input" = Some path
         ∧ config !! lit "rootfamily" = Some id
         ∧ load int input = Ok g
         ∧ resolvable g id
         ∧ out = output ++ document_head ++ body ++ document_tail)
  ∧ (∀ path id g,
       config !! lit "input" = Some path →
       config !! lit "rootfamily" = Some id →
       load int input = Ok g →
       ¬ resolvable g id →
       convert int upper_ext lower_ext path_exists module_dir
         realpath_dirname config input output = Some (Raise AssertionError)).
Proof.
  unfold convert. split; [|split].
  - destruct (load_config int config input) as [g|e] eqn:Hload; [|eauto].
    destruct (config !! lit "rootfamily") as [id|]; [|eauto].
    destruct (graph_find g id) as [[root|]|e] eqn:Hfind; [|eauto..].
    apply load_config_Ok in Hload as [_ Hload].
    unfold load in Hload.
    apply bind_Ok in Hload as ([self' g0] & Htok & Hres).
    destruct (resolve_all_links g0 g) as [Hlinks _];
      [by eapply tokenize_unresolved|done|].
    apply graph_find_Ok_iff in Hfind
      as [[_ [=]]|(_ & r & [= <-] & (n & Hn & _) & _)].
    destruct (bfs_total int g root config Hlinks) as [[[g' sub]|e] ->];
      [by eapply lookup_lt_Some|eauto..].
  - intros out.
    destruct (load_config int config input) as [g|e] eqn:Hload; [|done].
    destruct (config !! lit "rootfamily") as [id|]; [|done].
    destruct (graph_find g id) as [[root|]|e] eqn:Hfind; [|done..].
    destruct (bfs int g root config) as [[[g' sub]|e]|]; [|done..].
    intros [= Hstore]. unfold store in Hstore.
    destruct (config !! lit "output"); [|done].
    apply load_config_Ok in Hload as [[path Hpath] Hload].
    apply store_to_stream_extends in Hstore as [body ->].
    exists path, id, g, body. repeat (split; [done|]). split; [|done].
    apply graph_find_Ok_iff in Hfind
      as [[_ [=]]|(Hne & r & [= <-] & Hn & Huniq)].
    split; [done|]. by exists root.
  - intros path id g Hpath -> Hload Hno.
    rewrite (proj2 (load_config_Ok config input g)) by eauto.
    destruct (graph_find g id) as [[root|]|e] eqn:Hfind.
    + exfalso. apply Hno.
      apply graph_find_Ok_iff in Hfind
        as [[_ [=]]|(Hne & r & [= <-] & Hn & Huniq)].
      split; [done|]. by exists root.
    + done.
    + by rewrite (graph_find_raises g id e Hfind).
Qed.

End ConvertFacts.

Lemma convert_contract_witness :
  (∃ out,
     convert int_ascii unused_case_mapping unused_case_mapping no_file []
       data_dir
       {[ lit "input" := lit "-"; lit "output" := lit "-";
          lit "rootfamily" := lit "F1"; lit "familydepth" := lit "0" ]}
       couple [] = Some (Ok out)
     ∧ ∃ body, out = document_head ++ body ++ document_tail)
  ∧ convert int_ascii unused_case_mapping unused_case_mapping no_file []
      data_dir
      {[ lit "input" := lit "-"; lit "output" := lit "-";
         lit "rootfamily" := lit "F9"; lit "familydepth" := lit "0" ]}
      couple [] = Some (Raise AssertionError).
Proof.
  split.
  - destruct (convert int_ascii unused_case_mapping unused_case_mapping no_file
                [] data_dir
                {[ lit "input" := lit "-"; lit "output" := lit "-";
                   lit "rootfamily" := lit "F1"; lit "familydepth" := lit "0" ]}
                couple []) as [[out|e]|] eqn:E;
      [|vm_compute in E; discriminate..].
    exists out. split; [reflexivity|].
    destruct (convert_contract int_ascii unused_case_mapping
                unused_case_mapping no_file [] data_dir
                {[ lit "input" := lit "-"; lit "output" := lit "-";
                   lit "rootfamily" := lit "F1"; lit "familydepth" := lit "0" ]}
                couple []) as (_ & H & _).
    destruct (H out E) as (_ & _ & _ & body & _ & _ & _ & _ & ->).
    by exists body.
  - destruct (convert_contract int_ascii unused_case_mapping
                unused_case_mapping no_file [] data_dir
                {[ lit "input" := lit "-"; lit "output" := lit "-";
                   lit "rootfamily" := lit "F9"; lit "familydepth" := lit "0" ]}
                couple []) as (_ & _ & H).
    destruct (load int_ascii couple) as [g|e] eqn:E;
      [|vm_compute in E; discriminate].
    apply (H (lit "-") (lit "F9") g); [reflexivity|reflexivity|reflexivity|].
    intros [_ (r & (n & Hn & Hid) & _)].
    vm_compute in E. injection E as <-.
    destruct r as [|[|[|r]]]; vm_compute in Hn;
      try discriminate Hn; injection Hn as <-; vm_compute in Hid;
      discriminate Hid.
Defined.
(** * Encoding never fails on what was decoded *)

Lemma encodable_to_bytes (s : str) : encodable s ↔ ∃ b, to_bytes s = Ok b.
Proof.
  unfold encodable. induction s as [|c s IH]; cbn [to_bytes].
  - split; [eauto|constructor].
  - rewrite Forall_cons, IH. destruct (encode_char c) as [bs|].
    + split.
      * intros [_ [b ->]]. simpl. eauto.
      * intros [b (r & Hr & _)%bind_Ok]. split; eauto.
    + split; [by intros [[? [=]] _]|by intros [? [=]]].
Qed.

Lemma encodable_app (a b : str) : encodable a → encodable b → encodable (a ++ b).
Proof. intros. by apply Forall_app. Qed.

Lemma encodable_ascii (s : str) : isascii s = true → encodable s.
Proof. intros H. apply encodable_to_bytes. rewrite to_bytes_ascii; eauto. Qed.

Lemma encodable_decoded (b : bytes) (s : str) :
  decode_utf8 b = Ok s → encodable s.
Proof. intros H%to_bytes_decode. apply encodable_to_bytes. eauto. Qed.

Lemma encodable_slice (s : str) (a b : option Z) :
  encodable s → encodable (slice s a b).
Proof. intros H. unfold slice. by apply Forall_take, Forall_drop. Qed.

Lemma lstrip_with_Forall (P : N → Prop) (sp : N → bool) (s : list N) :
  Forall P s → Forall P (lstrip_with sp s).
Proof.
  induction 1 as [|c s Hc Hs IH]; simpl; [done|].
  destruct (sp c); [done|by constructor].
Qed.

Lemma encodable_strip (s : str) : encodable s → encodable (strip s).
Proof.
  intros H. unfold strip, strip_with, encodable.
  apply Forall_rev, lstrip_with_Forall, Forall_rev.
  by apply lstrip_with_Forall.
Qed.

Lemma encodable_split_on (sep : N) (s : str) :
  encodable s → Forall encodable (split_on sep s).
Proof.
  induction 1 as [|c s Hc Hs IH]; cbn [split_on].
  - repeat constructor.
  - destruct (c =? sep); [constructor; [constructor|done]|].
    destruct (split_on sep s) as [|w ws].
    + repeat constructor. done.
    + apply Forall_cons in IH as [Hw Hws].
      constructor; [by constructor|done].
Qed.

Lemma encodable_join (sep : str) (parts : list str) :
  encodable sep → Forall encodable parts → encodable (join sep parts).
Proof.
  intros Hsep. induction 1 as [|p ps Hp Hps IH]; cbn [join]; [constructor|].
  destruct ps as [|q ps]; [done|]. by repeat apply encodable_app.
Qed.

Lemma encodable_nth (l : list str) (k : nat) :
  Forall encodable l → encodable (nth k l []).
Proof.
  intros H. revert k. induction H as [|p ps Hp Hps IH]; intros [|k]; simpl;
    first [done | by constructor | apply IH].
Qed.

Lemma encodable_first_of (l : list str) :
  Forall encodable l → encodable (first_of l).
Proof. intros [|p ps Hp Hps]; [constructor|done]. Qed.

Lemma encodable_last_of (l : list str) :
  Forall encodable l → encodable (last_of l).
Proof.
  unfold last_of. induction 1 as [|p ps Hp Hps IH]; simpl; [constructor|].
  by destruct ps.
Qed.

Lemma parse_level_encodable (int : str → option Z) (line rest : str) (level : Z) :
  encodable line → parse_level int line = Ok (level, rest) → encodable rest.
Proof.
  intros Hl. unfold parse_level. destruct (int _); [|done]. intros [= _ <-].
  apply encodable_join; [by apply encodable_ascii|].
  unfold slice. by apply Forall_take, Forall_drop, encodable_split_on.
Qed.
Lemma update_individual_encodable (s : GedcomImport) (f : Individual → Individual) :
  (∀ i, encodable_node (NIndividual i) → encodable_node (NIndividual (f i))) →
  importer_encodable s → importer_encodable (update_individual s f).
Proof.
  intros Hf. unfold importer_encodable, update_individual, in_progress.
  destruct (individual s) as [i|] eqn:E; [|by rewrite E]. simpl. rewrite ?E. simpl.
  rewrite !Forall_app, !Forall_cons. intros (Hg & Hi & Hfam).
  split; [done|]. split; [by apply Hf|done].
Qed.

Lemma update_family_encodable (s : GedcomImport) (f : Family → Family) :
  (∀ fam, encodable_node (NFamily fam) → encodable_node (NFamily (f fam))) →
  importer_encodable s → importer_encodable (update_family s f).
Proof.
  intros Hf. unfold importer_encodable, update_family, in_progress.
  destruct (family s) as [fam|] eqn:E; [|by rewrite E]. simpl. rewrite ?E. simpl.
  rewrite !Forall_app, !Forall_cons. intros (Hg & Hind & (Hfam & _)).
  split; [done|]. split; [done|]. split; [by apply Hf|constructor].
Qed.

Ltac node_texts :=
  unfold encodable_node;
  cbn [written_texts ind_identifier forename surname sex config birth death
       fam_identifier set_note set_birth set_death ind_set_identifier
       set_famc_id set_famc set_fams_ids set_fams_list ind_set_depth
       set_forename set_surname set_sex set_config fam_set_identifier
       set_wife_id set_wife set_husb_id set_husb set_child_ids set_child_list
       fam_set_depth set_depth Individual_init Family_init];
  rewrite ?Forall_cons;
  intuition auto using encodable_slice, encodable_strip, encodable_nth,
    encodable_first_of, encodable_last_of, encodable_split_on.

Lemma handle_level1_encodable (s : GedcomImport) (line : str) :
  encodable line → importer_encodable s → importer_encodable (handle_level1 s line).
Proof.
  intros Hl Hs. unfold handle_level1.
  assert (importer_encodable (reset_flags s)) as Ht
    by (unfold reset_flags; by repeat case_match).
  revert Ht. generalize (reset_flags s). clear Hs. intros t Ht.
  assert (importer_encodable (handle_individual_config t line)) as Hc.
  { unfold handle_individual_config.
    chain_of_ifs importer_encodable; auto.
    apply update_individual_encodable; [|done]. intros i. node_texts. }
  revert Hc. generalize (handle_individual_config t line). intros c Hc.
  pose proof update_individual_encodable as Hi.
  pose proof update_family_encodable as Hf.
  chain_of_ifs importer_encodable; auto;
    repeat (apply Hi; [intros i; try case_match; node_texts|]); auto;
    try (apply Hf; [intros fam; node_texts|]); auto.
Qed.

Lemma handle_level2_encodable (s : GedcomImport) (rest : str) :
  encodable rest → importer_encodable s → importer_encodable (handle_level2 s rest).
Proof.
  intros Hl Hs. unfold handle_level2.
  chain_of_ifs importer_encodable; auto;
    (apply update_individual_encodable; [intros i; node_texts|done]).
Qed.

Lemma handle_level0_encodable (s : GedcomImport) (line : str) :
  encodable line → importer_encodable s → importer_encodable (handle_level0 s line).
Proof.
  unfold importer_encodable. intros Hl Hs.
  rewrite handle_level0_graph. apply Forall_app. split; [done|].
  unfold handle_level0, in_progress.
  destruct (individual s) as [i|] eqn:Ei, (family s) as [f|] eqn:Ef;
    cbn [individual family set_individual set_family graph_append graph];
    rewrite ?Ef;
    cbn [individual family set_individual set_family graph_append graph];
    repeat case_match; simpl; rewrite ?Ei, ?Ef; simpl;
    repeat (apply Forall_cons; split); try apply Forall_nil;
    node_texts; constructor.
Qed.

Lemma handle_line_encodable (int : str → option Z) (s s' : GedcomImport)
    (lb : bytes) :
  importer_encodable s → handle_line int s lb = Ok s' →
  importer_encodable s'.
Proof.
  intros Hs. unfold handle_line.
  intros (line & Hline%encodable_decoded & H)%bind_Ok.
  destruct line as [|c line]; [by injection H as <-|].
  apply bind_Ok in H as ([level rest] & Hp & [= <-]).
  apply parse_level_encodable in Hp; [|done].
  unfold dispatch. repeat case_match; auto using handle_level0_encodable,
    handle_level1_encodable, handle_level2_encodable.
Qed.

Lemma tokenize_encodable (int : str → option Z) (stream : bytes)
    (self' : GedcomImport) (g : list Node) :
  tokenize_from_stream int GedcomImport_init stream = Ok (self', g) →
  Forall encodable_node g.
Proof.
  intros [Hrun ->]%tokenize_run.
  assert (importer_encodable self') as H.
  { apply (for_each_invariant (handle_line int) (λ _, importer_encodable)
             (bytes_split_crlf stream []) GedcomImport_init self');
      [constructor| |done].
    intros _ lb s1 s2. apply handle_line_encodable. }
  unfold importer_encodable in H. by apply Forall_app in H as [? _].
Qed.
Lemma written_texts_erase (n : Node) :
  written_texts (erase_refs n) = written_texts n.
Proof. by destruct n. Qed.

Lemma written_texts_set_depth (n : Node) (d : Z) :
  written_texts (set_depth n d) = written_texts n.
Proof. by destruct n. Qed.

Lemma resolve_all_encodable (g g' : list Node) :
  resolve_all g = Ok g' → Forall encodable_node g → Forall encodable_node g'.
Proof.
  intros (Hlen & _ & Hnodes)%resolve_all_Ok Hg.
  apply Forall_lookup. intros i n' Hn'.
  destruct (g !! i) as [n|] eqn:Hn.
  - destruct (Hnodes i n Hn) as (n1 & Hn1 & Hr).
    assert (n1 = n') as -> by congruence.
    apply resolve_node_erase in Hr.
    pose proof (Forall_lookup_1 _ g i n Hg Hn) as Henc.
    unfold encodable_node in *.
    by rewrite <- written_texts_erase, Hr, written_texts_erase.
  - apply lookup_ge_None in Hn. apply lookup_lt_Some in Hn'. lia.
Qed.

Lemma assign_depths_encodable (node : nat) (g : list Node) (new : list nat) :
  Forall encodable_node g → Forall encodable_node (assign_depths node g new).
Proof.
  unfold assign_depths. revert g.
  induction new as [|r new IH]; intros g Hg; [done|]. simpl. apply IH.
  unfold set_depth_at. apply Forall_alter; [done|].
  intros n _ Hn. unfold encodable_node. by rewrite written_texts_set_depth.
Qed.

Lemma bfs_loop_encodable (int : str → option Z) (config : gmap str str)
    (fuel : nat) :
  ∀ g visited queue ret g' ret',
    Forall encodable_node g →
    bfs_loop int fuel config g visited queue ret = Some (Ok (g', ret')) →
    Forall encodable_node g'.
Proof.
  induction fuel as [|fuel IH]; intros g visited queue ret g' ret' Hg;
    destruct queue as [|node queue]; try (by intros [= <- <-]); try done.
  cbn [bfs_loop].
  destruct (config !! lit "familydepth") as [v|]; [|done].
  destruct (int v) as [fd|]; [|done].
  destruct (fd * 2 + 1 <? depth_at g node)%Z; [by intros [= <- <-]|].
  rewrite foldl_visit. apply IH. by apply assign_depths_encodable.
Qed.

Lemma bfs_loop_raises (int : str → option Z) (config : gmap str str)
    (fuel : nat) :
  ∀ g visited queue ret e,
    bfs_loop int fuel config g visited queue ret = Some (Raise e) →
    e = KeyError ∨ e = ValueError.
Proof.
  induction fuel as [|fuel IH]; intros g visited queue ret e;
    destruct queue as [|node queue]; try done.
  cbn [bfs_loop].
  destruct (config !! lit "familydepth") as [v|]; [|intros [= <-]; by left].
  destruct (int v) as [fd|]; [|intros [= <-]; by right].
  destruct (fd * 2 + 1 <? depth_at g node)%Z; [done|].
  rewrite foldl_visit. apply IH.
Qed.

Lemma handle_line_raises (int : str → option Z) (s : GedcomImport) (lb : bytes)
    (e : exn) :
  handle_line int s lb = Raise e → e = UnicodeDecodeError ∨ e = ValueError.
Proof.
  unfold handle_line, decode_utf8, parse_level.
  destruct (utf8_code_points _) as [[|c line]|];
    cbn [mbind result_mbind result_bind]; [done| |intros [= <-]; by left].
  destruct (int _); cbn [mbind result_mbind result_bind]; [done|].
  intros [= <-]. by right.
Qed.

Lemma load_raises (int : str → option Z) (input : bytes) (e : exn) :
  load int input = Raise e →
  e = UnicodeDecodeError ∨ e = ValueError ∨ e = AssertionError.
Proof.
  unfold load, tokenize_from_stream.
  intros [H|([s g] & _ & H)]%bind_Raise.
  - apply bind_Raise in H as [H|(s & _ & [=])].
    apply (for_each_raises _ (λ e, e = UnicodeDecodeError ∨ e = ValueError))
      in H; [tauto|].
    intros s x e'. apply handle_line_raises.
  - right. right. revert H. unfold resolve_all.
    apply (for_each_raises resolve_at (λ e, e = AssertionError)).
    intros t i e'. rewrite resolve_at_node.
    destruct (t !! i) as [n|]; [|done].
    destruct (resolve_node t n) as [n'|e0] eqn:E; [done|].
    intros [= <-]. by eapply resolve_node_raises.
Qed.

Lemma load_encodable (int : str → option Z) (input : bytes) (g : list Node) :
  load int input = Ok g → Forall encodable_node g.
Proof.
  unfold load. intros ([self' g0] & Htok & Hres)%bind_Ok.
  eapply resolve_all_encodable; [done|]. by eapply tokenize_encodable.
Qed.
Lemma encodable_no_raise (s : str) (e : exn) :
  encodable s → to_bytes s ≠ Raise e.
Proof. intros [b Hb]%encodable_to_bytes. by rewrite Hb. Qed.

Lemma write_encodable (stream : bytes) (s : str) (e : exn) :
  encodable s → write stream s ≠ Raise e.
Proof.
  intros [b Hb]%encodable_to_bytes. unfold write. by rewrite Hb.
Qed.

Lemma encodable_concat (l : list str) :
  Forall encodable l → encodable (concat l).
Proof.
  induction 1 as [|p ps Hp Hps IH]; [constructor|]. by apply encodable_app.
Qed.

Lemma path_join_encodable (a b : str) :
  encodable a → encodable b → encodable (path_join a b).
Proof.
  intros Ha Hb. unfold path_join. repeat case_match; try done;
    repeat apply encodable_app; try done; by apply encodable_ascii.
Qed.

Lemma identifier_at_encodable (g : list Node) (r : nat) :
  Forall encodable_node g → encodable (identifier_at g r).
Proof.
  intros Hg. unfold identifier_at. destruct (g !! r) as [n|] eqn:Hn;
    [|constructor].
  pose proof (Forall_lookup_1 _ g r n Hg Hn) as H. unfold encodable_node in H.
  destruct n as [i|f]; by apply Forall_cons in H as [H _].
Qed.

Lemma color_encodable (upper_ext : str → str) (i : Individual) (color : str) :
  get_color upper_ext i = Ok color → encodable color.
Proof.
  unfold get_color, color_table.
  destruct (_ !! _) as [c|] eqn:E; [|done]. intros [= <-].
  apply lookup_insert_Some in E as [[_ <-]|[_ E]];
    [by apply encodable_ascii|].
  apply lookup_insert_Some in E as [[_ <-]|[_ E]];
    [by apply encodable_ascii|].
  apply lookup_insert_Some in E as [[_ <-]|[_ E]];
    [by apply encodable_ascii|].
  by rewrite lookup_empty in E.
Qed.

Section EncodingFacts.
Variable int : str → option Z.
Variables upper_ext lower_ext : str → str.
Variable path_exists : bytes → bool.
Variable module_dir : str.
Variable realpath_dirname : str → result str.
Hypothesis module_dir_encodable : encodable module_dir.
Hypothesis lower_ext_encodable : ∀ s, encodable s → encodable (lower_ext s).

Lemma lower_encodable (s : str) : encodable s → encodable (lower lower_ext s).
Proof.
  intros Hs. unfold lower. destruct (isascii s) eqn:E; [|by apply lower_ext_encodable].
  apply encodable_ascii. unfold isascii in *. rewrite forallb_forall in *.
  intros c (x & <- & Hx)%in_map_iff. specialize (E x Hx).
  unfold ascii_lower, in_range.
  destruct (N.leb_spec 65 x), (N.leb_spec x 90); simpl;
    apply N.ltb_lt in E; apply N.ltb_lt; lia.
Qed.

Lemma get_label_encodable (i : Individual) (image_dir name_order : str) :
  encodable_node (NIndividual i) → encodable image_dir →
  ∃ label,
    get_label lower_ext path_exists module_dir i image_dir name_order = Ok label
    ∧ encodable label.
Proof.
  unfold encodable_node, written_texts. rewrite !Forall_cons.
  intros (Hid & Hfore & Hsur & Hsex & Hbirth & Hdeath & _) Hdir.
  assert (∀ s, isascii s = true → encodable s) as Hlit
    by apply encodable_ascii.
  unfold get_label, label_image_path.
  set (path := path_join image_dir _ ++ _).
  assert (encodable path) as Hpath.
  { unfold path. repeat apply encodable_app; auto.
    apply path_join_encodable; [done|]. repeat apply encodable_app; auto. }
  destruct (proj1 (encodable_to_bytes path) Hpath) as [b ->].
  cbn [mbind result_mbind result_bind].
  set (image := if negb (path_exists b) then _ else _).
  assert (∃ p, image = Ok p ∧ encodable p) as (p & -> & Hp).
  { unfold image. destruct (negb (path_exists b)); [|eauto].
    eexists. split; [done|]. unfold get_abspath.
    assert (encodable (if nonempty (sex i) then lower lower_ext (sex i)
                       else lit "u")) as Hs
      by (destruct (nonempty (sex i)); [by apply lower_encodable|by apply Hlit]).
    revert Hs. generalize (if nonempty (sex i) then lower lower_ext (sex i)
                          else lit "u"). intros sx Hs.
    destruct (isabs _); [|apply path_join_encodable; [done|]];
      repeat apply encodable_app; auto. }
  cbn [mbind result_mbind result_bind]. eexists. split; [done|].
  unfold dquote. destruct (str_eqb name_order (lit "big"));
    repeat apply encodable_app; auto.
Qed.

Lemma store_individual_node_encodable (config : gmap str str) (stream : bytes)
    (i : Individual) (e : exn) :
  encodable_node (NIndividual i) →
  encodable (config_get config (lit "imagedir") []) →
  (∃ dir, realpath_dirname (config_get config (lit "input") []) = Ok dir
          ∧ encodable dir) →
  store_individual_node upper_ext lower_ext path_exists module_dir
    realpath_dirname config stream i = Raise e →
  e = KeyError.
Proof.
  intros Hi Himg (dir & Hreal & Hdir). unfold store_individual_node.
  assert (encodable (ind_identifier i)) as Hid
    by (unfold encodable_node in Hi; by apply Forall_cons in Hi as [? _]).
  intros [H|(s1 & _ & H)]%bind_Raise.
  { exfalso. revert H. apply write_encodable.
    apply encodable_app; [done|by apply encodable_ascii]. }
  assert (∃ p, get_data_abspath realpath_dirname
                 (config_get config (lit "input") [])
                 (config_get config (lit "imagedir") []) = Ok p
               ∧ encodable p) as (p & Hp & Hpe).
  { unfold get_data_abspath. destruct (isabs _); [eauto|].
    rewrite Hreal. cbn [mbind result_mbind result_bind].
    eexists. split; [done|]. by apply path_join_encodable. }
  cbv zeta in H. rewrite Hp in H. cbn [mbind result_mbind result_bind] in H.
  destruct (get_label_encodable i p
              (config_get config (lit "nameorder") (lit "little")) Hi Hpe)
    as (label & Hlabel & Hl).
  rewrite Hlabel in H. cbn [mbind result_mbind result_bind] in H.
  apply bind_Raise in H as [H|(s2 & _ & H)].
  { exfalso. revert H. apply write_encodable.
    repeat apply encodable_app; try done; by apply encodable_ascii. }
  apply bind_Raise in H as [H|(color & Hcolor & H)];
    [by eapply get_color_raises|].
  exfalso. revert H. apply write_encodable.
  apply color_encodable in Hcolor.
  repeat apply encodable_app; try done; by apply encodable_ascii.
Qed.

Lemma store_to_stream_encodable (g : list Node) (subgraph : list nat)
    (stream : bytes) (config : gmap str str) (e : exn) :
  Forall encodable_node g →
  encodable (config_get config (lit "imagedir") []) →
  (∃ dir, realpath_dirname (config_get config (lit "input") []) = Ok dir
          ∧ encodable dir) →
  store_to_stream upper_ext lower_ext path_exists module_dir
    realpath_dirname g subgraph stream config = Raise e →
  e = KeyError.
Proof.
  intros Hg Himg Hdir. unfold store_to_stream.
  do 5 (rewrite !write_ascii by reflexivity;
        cbn [mbind result_mbind result_bind]).
  intros [H|(s1 & _ & H)]%bind_Raise.
  { eapply (for_each_raises _ (λ e, e = KeyError)); [|exact H].
    intros s r e' Hr. cbv beta in Hr.
    destruct (g !! r) as [[i|f]|] eqn:Hn; try discriminate Hr.
    eapply store_individual_node_encodable; [|done|done|exact Hr].
    by eapply (Forall_lookup_1 _ g). }
  exfalso. apply bind_Raise in H as [H|(s2 & _ & H)].
  { unfold store_family_nodes in H.
    apply bind_Raise in H as [H|(t1 & _ & H)];
      [by apply write_encodable in H; [|apply encodable_ascii]|].
    apply bind_Raise in H as [H|(t2 & _ & H)];
      [|by apply write_encodable in H; [|apply encodable_ascii]].
    rewrite family_nodes_loop, write_all in H.
    apply bind_Raise in H as [H|(c2 & _ & H)]; [|done].
    revert H. apply encodable_no_raise, encodable_concat.
    apply Forall_fmap, Forall_forall. intros fam Hfam. simpl.
    unfold families in Hfam. apply list_elem_of_omap in Hfam as (r & _ & Hr).
    destruct (g !! r) as [[i|f]|] eqn:Hn; try discriminate Hr.
    injection Hr as ->. unfold family_declaration.
    apply encodable_app; [|by apply encodable_ascii].
    pose proof (Forall_lookup_1 _ g r _ Hg Hn) as H.
    unfold encodable_node in H. by apply Forall_cons in H as [? _]. }
  apply bind_Raise in H as [H|(s3 & _ & H)];
    [|by apply write_encodable in H; [|apply encodable_ascii]].
  rewrite store_edges_write, write_all in H.
  apply bind_Raise in H as [H|(c2 & _ & H)]; [|done].
  revert H. apply encodable_no_raise, encodable_concat.
  apply Forall_fmap, Forall_forall. intros p _. simpl.
  unfold edge_of, edge_text.
  repeat apply encodable_app; try (by apply identifier_at_encodable);
    by apply encodable_ascii.
Qed.

(** X15.  What was decoded can be encoded: take a graph that [load]
    returned and the subgraph that [bfs] selected in it.  When the directory
    of the module, the image directory of the configuration and the directory
    that [os.path.realpath] gives for the input path are encodable text and
    lower-casing keeps text encodable, [store_to_stream] fails on that
    subgraph with nothing but a [KeyError] (a sex without colour): never
    with a [UnicodeEncodeError], whatever bytes the input held. *)
Theorem export_of_loaded_graph_encodes (config : gmap str str)
    (input stream : bytes) (g g' : list Node) (root : nat)
    (subgraph : list nat) (dir : str) (e : exn) :
  load int input = Ok g →
  bfs int g root config = Some (Ok (g', subgraph)) →
  encodable (config_get config (lit "imagedir") []) →
  realpath_dirname (config_get config (lit "input") []) = Ok dir →
  encodable dir →
  store_to_stream upper_ext lower_ext path_exists module_dir realpath_dirname
    g' subgraph stream config = Raise e →
  e = KeyError.
Proof.
  intros Hload Hbfs Himg Hreal Hdir.
  apply store_to_stream_encodable; [|done|by exists dir].
  apply bfs_loop_encodable in Hbfs; [done|]. by eapply load_encodable.
Qed.
End EncodingFacts.

Lemma export_of_loaded_graph_encodes_witness :
  ∃ g g' subgraph,
    load int_ascii couple = Ok g
    ∧ bfs int_ascii g 2%nat (couple_config "F1") = Some (Ok (g', subgraph))
    ∧ ∀ e,
        store_to_stream unused_case_mapping unused_case_mapping no_file []
          data_dir g' subgraph [] (couple_config "F1") = Raise e →
        e = KeyError.
Proof.
  destruct (load int_ascii couple) as [g|e0] eqn:Hload;
    [|vm_compute in Hload; discriminate].
  destruct (bfs int_ascii g 2%nat (couple_config "F1"))
    as [[[g' subgraph]|e0]|] eqn:Hbfs;
    [|vm_compute in Hload; injection Hload as <-;
      vm_compute in Hbfs; discriminate..].
  exists g, g', subgraph. split; [reflexivity|]. split; [exact Hbfs|].
  intros e.
  apply (export_of_loaded_graph_encodes int_ascii unused_case_mapping
           unused_case_mapping no_file [] data_dir)
    with (input := couple) (g := g) (root := 2%nat) (dir := lit "/data").
  - constructor.
  - by intros s Hs.
  - exact Hload.
  - exact Hbfs.
  - assert (config_get (couple_config "F1") (lit "imagedir") [] = []) as ->
      by reflexivity.
    constructor.
  - reflexivity.
  - apply encodable_ascii. reflexivity.
Defined.

(** * Names *)

Lemma split_on_none (sep : N) (w : str) : sep ∉ w → split_on sep w = [w].
Proof.
  induction w as [|c w IH]; intros Hw; simpl; [done|].
  apply not_elem_of_cons in Hw as [Hc Hw].
  destruct (c =? sep) eqn:E; [apply N.eqb_eq in E; congruence|].
  by rewrite (IH Hw).
Qed.

Lemma handle_level1_name (s : GedcomImport) (i : Individual) (text : str) :
  individual s = Some i →
  individual (handle_level1 s (lit "NAME " ++ text))
  = Some (let tokens := split_on 47 text in
          let i := set_forename i (strip (first_of tokens)) in
          if (1 <? length tokens)%nat
          then set_surname i (strip (nth 1 tokens [])) else i).
Proof.
  intros Hi. unfold handle_level1.
  pose proof (reset_flags_individual s) as Hr. rewrite Hi in Hr.
  revert Hr. generalize (reset_flags s). intros t Ht.
  assert (first_of (split_on 32 (lit "NAME " ++ text)) = lit "NAME") as ->.
  { change (lit "NAME " ++ text) with ([78; 65; 77; 69] ++ 32 :: text).
    rewrite split_on_prefix; [reflexivity|]. rewrite !elem_of_cons.
    intros [?|[?|[?|[?|?%elem_of_nil]]]]; done. }
  assert (slice (lit "NAME " ++ text) (Some 5%Z) None = text) as ->
    by apply slice_from_5.
  eval_lits. unfold str_eqb.
  repeat (rewrite bool_decide_eq_false_2 by discriminate).
  rewrite bool_decide_eq_true_2 by reflexivity. rewrite Ht.
  cbn [truthy andb]. cbv zeta. unfold update_individual. rewrite Ht.
  cbn [individual set_individual].
  by destruct (1 <? length (split_on 47 text))%nat;
    cbn [individual set_individual].
Qed.

(** X16.  A level-1 NAME line on an individual: the text before the first
    slash, stripped, becomes the forename and the text between the first two
    slashes, stripped, the surname, whatever follows the second slash; a
    name without a slash sets the forename and leaves the surname as it
    was. *)
Theorem name_line_sets_names (s : GedcomImport) (i : Individual) :
  individual s = Some i →
  (∀ given sur rest, 47 ∉ given → 47 ∉ sur →
     individual (dispatch s 1 (lit "NAME " ++ given ++ [47] ++ sur
                               ++ [47] ++ rest))
     = Some (set_surname (set_forename i (strip given)) (strip sur)))
  ∧ (∀ given sur, 47 ∉ given → 47 ∉ sur →
       individual (dispatch s 1 (lit "NAME " ++ given ++ [47] ++ sur))
       = Some (set_surname (set_forename i (strip given)) (strip sur)))
  ∧ (∀ given, 47 ∉ given →
       individual (dispatch s 1 (lit "NAME " ++ given))
       = Some (set_forename i (strip given))).
Proof.
  intros Hi. split; [|split].
  - intros given sur rest Hg Hs.
    rewrite dispatch_level1, (handle_level1_name s i _ Hi). cbv zeta.
    change (given ++ [47] ++ sur ++ [47] ++ rest)
      with (given ++ 47 :: (sur ++ 47 :: rest)).
    rewrite (split_on_prefix 47 given _ Hg), (split_on_prefix 47 sur _ Hs).
    destruct (split_on_cons 47 rest) as (w & ws & ->). reflexivity.
  - intros given sur Hg Hs.
    rewrite dispatch_level1, (handle_level1_name s i _ Hi). cbv zeta.
    change (given ++ [47] ++ sur) with (given ++ 47 :: sur).
    rewrite (split_on_prefix 47 given _ Hg), (split_on_none 47 sur Hs).
    reflexivity.
  - intros given Hg.
    rewrite dispatch_level1, (handle_level1_name s i _ Hi). cbv zeta.
    by rewrite (split_on_none 47 given Hg).
Qed.

Lemma name_line_sets_names_witness :
  individual (dispatch importer_at_P2 1 (lit "NAME Bob /B/"))
  = Some (set_surname
            (set_forename (ind_set_identifier Individual_init (lit "P2"))
                          (lit "Bob"))
            (lit "B")).
Proof.
  destruct (name_line_sets_names importer_at_P2
              (ind_set_identifier Individual_init (lit "P2")) eq_refl)
    as [H _].
  apply (H (lit "Bob ") (lit "B") []); vm_compute;
    intros Hin; repeat (apply elem_of_cons in Hin as [Hin|Hin];
                        [discriminate Hin|]);
    by apply elem_of_nil in Hin.
Defined.
(** * Notes, from the bytes of a line *)

Lemma join_cons (sep p q : str) (qs : list str) :
  join sep (p :: q :: qs) = p ++ sep ++ join sep (q :: qs).
Proof. reflexivity. Qed.

Lemma join_split_on (sep : N) (s : str) : join [sep] (split_on sep s) = s.
Proof.
  induction s as [|c s IH]; [done|]. cbn [split_on].
  destruct (split_on_cons sep s) as (w & ws & Hs). rewrite Hs in *.
  destruct (c =? sep) eqn:E.
  - apply N.eqb_eq in E as ->. by rewrite join_cons, IH.
  - destruct ws as [|w' ws]; [simpl in *; by rewrite IH|].
    rewrite join_cons. rewrite join_cons in IH. by rewrite <- IH.
Qed.

Lemma lstrip_with_head (sp : N → bool) (c : N) (l : list N) :
  sp c = false → lstrip_with sp (c :: l) = c :: l.
Proof. intros H. simpl. by rewrite H. Qed.

(** A piece whose first and last bytes are not white space is not changed
    by stripping. *)
Lemma bytes_strip_keeps (c z : N) (l : bytes) :
  bytes_isspace c = false → bytes_isspace z = false →
  bytes_strip (c :: l ++ [z]) = c :: l ++ [z].
Proof.
  intros Hc Hz. unfold bytes_strip, strip_with.
  rewrite (lstrip_with_head _ c _ Hc).
  change (c :: l ++ [z]) with ((c :: l) ++ [z]).
  rewrite rev_app_distr. cbn [rev app].
  rewrite (lstrip_with_head _ z _ Hz).
  change (z :: rev l ++ [c]) with ([z] ++ rev (c :: l)).
  by rewrite rev_app_distr, rev_involutive.
Qed.

Lemma encode_char_nonempty (c : N) (bs : bytes) :
  encode_char c = Some bs → bs ≠ [].
Proof. unfold encode_char. repeat case_match; by intros [= <-]. Qed.

Lemma to_bytes_nil (s : str) : to_bytes s = Ok [] → s = [].
Proof.
  destruct s as [|c s]; [done|]. cbn [to_bytes].
  destruct (encode_char c) as [bs|] eqn:E; [|done].
  apply encode_char_nonempty in E.
  intros (r & _ & [= H])%bind_Ok. by destruct bs.
Qed.

Lemma parse_level_note (int : str → option Z) (text : str) :
  int (lit "1") = Some 1%Z →
  parse_level int (lit "1 NOTE " ++ text) = Ok (1%Z, lit "NOTE " ++ text).
Proof.
  intros Hint. unfold parse_level.
  change (lit "1 NOTE " ++ text) with ([49] ++ 32 :: ([78; 79; 84; 69] ++ 32 :: text)).
  rewrite split_on_prefix
    by (rewrite !elem_of_cons; intros [?|?%elem_of_nil]; done).
  rewrite split_on_prefix
    by (rewrite !elem_of_cons; intros [?|[?|[?|[?|?%elem_of_nil]]]]; done).
  cbn [first_of hd]. change (startswith [49] BOM) with false. cbv iota.
  change [49] with (lit "1"). rewrite Hint. rewrite slice_from_1.
  destruct (split_on_cons 32 text) as (w & ws & Hs).
  pose proof (join_split_on 32 text) as Hj. rewrite Hs in *.
  by rewrite join_cons, Hj.
Qed.

Lemma parse_level_bare_note (int : str → option Z) :
  int (lit "1") = Some 1%Z →
  parse_level int (lit "1 NOTE") = Ok (1%Z, lit "NOTE").
Proof.
  intros Hint. unfold parse_level.
  change (split_on 32 (lit "1 NOTE")) with [lit "1"; lit "NOTE"].
  cbn [first_of hd]. change (startswith (lit "1") BOM) with false.
  cbv iota. by rewrite Hint.
Qed.

Lemma handle_line_note (int : str → option Z) (s : GedcomImport)
    (text : str) (tb : bytes) :
  int (lit "1") = Some 1%Z →
  to_bytes text = Ok tb →
  (∀ z, last tb = Some z → bytes_isspace z = false) →
  handle_line int s (lit "1 NOTE " ++ tb)
  = Ok (dispatch s 1 (lit "NOTE " ++ text)).
Proof.
  intros Hint Htb Hlast. unfold handle_line.
  destruct (last tb) as [z|] eqn:Hz.
  - apply last_Some in Hz as [tb' ->].
    change (lit "1 NOTE " ++ tb' ++ [z])
      with (49 :: ([32; 78; 79; 84; 69; 32] ++ tb' ++ [z])).
    rewrite (assoc_L (++) _ tb' [z]).
    rewrite bytes_strip_keeps; [|done|by apply Hlast].
    rewrite <- (assoc_L (++) _ tb' [z]).
    change (49 :: ([32; 78; 79; 84; 69; 32] ++ tb' ++ [z]))
      with (lit "1 NOTE " ++ tb' ++ [z]).
    rewrite (decode_to_bytes (lit "1 NOTE " ++ text)).
    2:{ rewrite to_bytes_app, Htb. by rewrite to_bytes_ascii. }
    cbn [mbind result_mbind result_bind].
    rewrite (parse_level_note int text Hint). reflexivity.
  - apply last_None in Hz as ->. apply to_bytes_nil in Htb as ->.
    change (decode_utf8 (bytes_strip (lit "1 NOTE " ++ [])))
      with (Ok (lit "1 NOTE")).
    cbn [mbind result_mbind result_bind].
    rewrite (parse_level_bare_note int Hint). reflexivity.
Qed.

(** C3, as the code has it.  A level-1 NOTE line replaces the note of the
    individual under construction, it does not append to it.  Take a piece
    of the stream made of [1 NOTE ], and the UTF-8 bytes of a text that does
    not end in a white space byte (the tokenizer strips white space at both
    ends of a piece): the note becomes that text, whatever it was before,
    line feeds inside the text included.  A piece whose level is neither 0
    nor 1, a level-2 continuation line included, leaves the note as it
    is. *)
Theorem note_line_replaces_note (int : str → option Z) (s : GedcomImport)
    (i : Individual) (text : str) (tb : bytes) :
  int (lit "1") = Some 1%Z →
  individual s = Some i →
  to_bytes text = Ok tb →
  (∀ z, last tb = Some z → bytes_isspace z = false) →
  (∃ s', handle_line int s (lit "1 NOTE " ++ tb) = Ok s'
         ∧ current_note s' = Some text)
  ∧ (∀ lb level rest,
       parsed_line int lb = Ok (Some (level, rest)) →
       level ≠ 0%Z → level ≠ 1%Z →
       ∃ s', handle_line int s lb = Ok s'
             ∧ current_note s' = current_note s).
Proof.
  intros Hint Hi Htb Hlast. split.
  - eexists. split; [by apply handle_line_note|].
    rewrite dispatch_level1. by apply (handle_level1_note s i).
  - intros lb level rest Hp H0 H1. rewrite handle_line_parsed, Hp.
    cbn [mbind result_mbind result_bind]. eexists. split; [done|].
    unfold dispatch.
    destruct (level =? 0)%Z eqn:E0; [apply Z.eqb_eq in E0; done|].
    destruct (level =? 1)%Z eqn:E1; [apply Z.eqb_eq in E1; done|].
    destruct (level =? 2)%Z; [apply handle_level2_note|done].
Qed.

Lemma note_line_replaces_note_witness :
  ∃ s',
    handle_line int_ascii importer_at_P2 (lit "1 NOTE " ++ three_line_text)
      = Ok s'
    ∧ current_note s' = Some three_line_text
    ∧ line_feeds three_line_text = 2%nat.
Proof.
  destruct (note_line_replaces_note int_ascii importer_at_P2
              (ind_set_identifier Individual_init (lit "P2"))
              three_line_text three_line_text)
    as [(s' & Hrun & Hnote) _].
  - reflexivity.
  - reflexivity.
  - reflexivity.
  - intros z Hz. vm_compute in Hz. injection Hz as <-. reflexivity.
  - exists s'. split; [exact Hrun|]. split; [exact Hnote|reflexivity].
Defined.
(** * Edges of a traversed subgraph *)

Lemma discovered_or (seen l : list nat) (x : nat) :
  x ∈ l → x ∈ seen ∨ x ∈ discovered seen l.
Proof.
  revert seen. induction l as [|r l IH]; intros seen; simpl.
  - by intros ?%elem_of_nil.
  - intros [->|Hx]%elem_of_cons.
    + case_bool_decide; [by left|]. right. by left.
    + case_bool_decide as Hr; [by apply IH|].
      destruct (IH (seen ++ [r]) Hx) as [[?| ->%list_elem_of_singleton]%elem_of_app|?].
      * by left.
      * right. by left.
      * right. by right.
Qed.

Lemma set_depth_at_kind (g : list Node) (r r' : nat) (d : Z) :
  is_family (set_depth_at g r d) r' = is_family g r'.
Proof.
  unfold is_family. rewrite set_depth_at_lookup.
  case_decide; [|done]. by destruct (g !! r') as [[i|f]|].
Qed.

Lemma assign_depths_kind (node : nat) (g : list Node) (new : list nat) (r : nat) :
  is_family (assign_depths node g new) r = is_family g r.
Proof.
  unfold assign_depths. revert g.
  induction new as [|x new IH]; intros g; [done|]. simpl.
  by rewrite IH, set_depth_at_kind.
Qed.

Lemma bfs_loop_kind (int : str → option Z) (config : gmap str str)
    (fuel : nat) :
  ∀ g visited queue ret g' ret',
    bfs_loop int fuel config g visited queue ret = Some (Ok (g', ret')) →
    ∀ r, is_family g' r = is_family g r.
Proof.
  induction fuel as [|fuel IH]; intros g visited queue ret g' ret';
    destruct queue as [|node queue]; try (by intros [= <- <-]); try done.
  cbn [bfs_loop].
  destruct (config !! lit "familydepth") as [v|]; [|done].
  destruct (int v) as [fd|]; [|done].
  destruct (fd * 2 + 1 <? depth_at g node)%Z; [by intros [= <- <-]|].
  rewrite foldl_visit. intros H r. rewrite (IH _ _ _ _ _ _ H).
  apply assign_depths_kind.
Qed.

(** Where the loop stops, the families it returned have all their
    neighbours among the returned nodes. *)
Lemma closed_at_exit (g0 g : list Node) (fd : Z) (visited queue ret : list nat) :
  visited = ret ++ queue →
  (∀ y, y ∈ queue → (fd * 2 + 1 < depth_at g y)%Z) →
  (∀ x, x ∈ ret → (depth_at g x ≤ fd * 2 + 1)%Z) →
  (∀ r r', r ∈ ret → r' ∈ neighbours_at g0 r →
     r' ∈ visited ∧ (depth_at g r' ≤ depth_at g r + 1)%Z) →
  (∀ r, r ∈ visited → Z.even (depth_at g r) = is_family g0 r) →
  ∀ r r', r ∈ ret → is_family g0 r = true → r' ∈ neighbours_at g0 r →
    r' ∈ ret.
Proof.
  intros -> Hq Hk Hn Hp r r' Hr Hfam Hr'.
  destruct (Hn r r' Hr Hr') as [[?|Hin]%elem_of_app Hd]; [done|].
  exfalso. specialize (Hq r' Hin). specialize (Hk r Hr).
  assert (Z.even (depth_at g r) = true) as He
    by (rewrite Hp; [done|]; rewrite elem_of_app; by left).
  apply Z.even_spec in He as [m He]. lia.
Qed.

Lemma bfs_loop_closed (int : str → option Z) (config : gmap str str)
    (v : str) (fd : Z) (g0 : list Node) :
  config !! lit "familydepth" = Some v → int v = Some fd →
  alternating g0 →
  (∀ n r, r ∈ neighbours_at g0 n → (r < length g0)%nat) →
  ∀ fuel g visited queue ret qa qb dcur g' ret',
    same_links g0 g →
    visited = ret ++ queue →
    queue = qa ++ qb →
    (∀ y, y ∈ qa → depth_at g y = dcur) →
    (∀ y, y ∈ qb → depth_at g y = (dcur + 1)%Z) →
    (∀ x, x ∈ ret → (depth_at g x ≤ dcur)%Z) →
    (∀ x, x ∈ ret → (depth_at g x ≤ fd * 2 + 1)%Z) →
    (∀ r r', r ∈ ret → r' ∈ neighbours_at g0 r →
       r' ∈ visited ∧ (depth_at g r' ≤ depth_at g r + 1)%Z) →
    (∀ r, r ∈ visited → Z.even (depth_at g r) = is_family g0 r) →
    bfs_loop int fuel config g visited queue ret = Some (Ok (g', ret')) →
    ∀ r r', r ∈ ret' → is_family g0 r = true → r' ∈ neighbours_at g0 r →
      r' ∈ ret'.
Proof.
  intros Hc Hi Halt Hvalid. induction fuel as [|fuel IH];
    intros g visited queue ret qa qb dcur g' ret' Hlinks Hvis Hsplit
           Hqa Hqb Hret Hk Hn Hp;
    destruct queue as [|node rest]; try done.
  - intros [= <- <-].
    eapply (closed_at_exit g0 g fd visited []); try done.
    by intros y ?%elem_of_nil.
  - intros [= <- <-].
    eapply (closed_at_exit g0 g fd visited []); try done.
    by intros y ?%elem_of_nil.
  - rewrite (bfs_loop_step int fuel config g visited rest ret node v fd Hc Hi).
    (* the queue, seen from its head *)
    assert (∃ qa' qb0,
              rest = qa' ++ qb0
              ∧ (∀ y, y ∈ qa' → depth_at g y = depth_at g node)
              ∧ (∀ y, y ∈ qb0 → depth_at g y = (depth_at g node + 1)%Z)
              ∧ (∀ x, x ∈ ret → (depth_at g x ≤ depth_at g node)%Z))
      as (qa' & qb0 & -> & Hqa' & Hqb0 & Hret').
    { destruct qa as [|y qa].
      - simpl in Hsplit. subst qb. exists rest, [].
        assert (depth_at g node = (dcur + 1)%Z) as Hd by (apply Hqb; by left).
        split; [by rewrite app_nil_r|]. split; [|split].
        + intros y Hy. rewrite Hd. apply Hqb. by right.
        + by intros y ?%elem_of_nil.
        + intros x Hx. specialize (Hret x Hx). lia.
      - injection Hsplit as <- ->. exists qa, qb.
        assert (depth_at g node = dcur) as Hd by (apply Hqa; by left).
        split; [done|]. split; [|split].
        + intros y' Hy. rewrite Hd. apply Hqa. by right.
        + intros y' Hy. rewrite Hd. by apply Hqb.
        + intros x Hx. rewrite Hd. by apply Hret. }
    destruct (fd * 2 + 1 <? depth_at g node)%Z eqn:Hcut.
    { intros [= <- <-]. apply Z.ltb_lt in Hcut.
      eapply (closed_at_exit g0 g fd visited (node :: qa' ++ qb0)); try done.
      intros y [->|[Hy|Hy]%elem_of_app]%elem_of_cons; [done|..].
      - rewrite (Hqa' y Hy). done.
      - rewrite (Hqb0 y Hy). lia. }
    apply Z.ltb_ge in Hcut.
    destruct Hlinks as [Hlen Hsame]. destruct (Hsame node) as [Hnb _].
    rewrite Hnb.
    set (new := discovered visited (neighbours_at g0 node)).
    assert (node ∈ visited) as Hnode
      by (subst visited; rewrite elem_of_app; right; by left).
    assert (∀ x, x ∈ new → x ∈ neighbours_at g0 node ∧ x ∉ visited) as Hnew
      by (intros x; apply discovered_elem).
    assert (node ∉ new) as Hnn by (intros [_ ?]%Hnew; done).
    assert (∀ x, x ∈ new → (x < length g)%nat) as Hnv
      by (intros x [? _]%Hnew; rewrite Hlen; by eapply Hvalid).
    pose proof (assign_depths_depth node g new) as Hdepth.
    assert (∀ x, x ∈ visited →
              depth_at (assign_depths node g new) x = depth_at g x) as Hold.
    { intros x Hx. rewrite Hdepth by done.
      rewrite bool_decide_eq_false_2; [done|]. intros [_ ?]%Hnew. done. }
    assert (∀ x, x ∈ new →
              depth_at (assign_depths node g new) x
              = (depth_at g node + 1)%Z) as Hfresh.
    { intros x Hx. rewrite Hdepth by done.
      by rewrite bool_decide_eq_true_2. }
    assert (∀ x, x ∈ ret → x ∈ visited) as Hrv
      by (intros x Hx; subst visited; rewrite elem_of_app; by left).
    assert (∀ x, x ∈ qa' ++ qb0 → x ∈ visited) as Hqv.
    { intros x Hx. subst visited. rewrite elem_of_app. right. by right. }
    apply (IH _ _ _ _ qa' (qb0 ++ new) (depth_at g node)).
    + eapply same_links_trans; [by split|apply assign_depths_links].
    + subst visited. rewrite <- ?app_assoc. simpl. by rewrite <- ?app_assoc.
    + by rewrite <- ?app_assoc.
    + intros y Hy. rewrite Hold; [by apply Hqa'|].
      apply Hqv. rewrite elem_of_app. by left.
    + intros y [Hy|Hy]%elem_of_app; [|by apply Hfresh].
      rewrite Hold; [by apply Hqb0|]. apply Hqv. rewrite elem_of_app. by right.
    + intros x [Hx| ->%list_elem_of_singleton]%elem_of_app.
      * rewrite Hold by auto. by apply Hret'.
      * by rewrite Hold.
    + intros x [Hx| ->%list_elem_of_singleton]%elem_of_app.
      * rewrite Hold by auto. by apply Hk.
      * by rewrite Hold.
    + intros r r' [Hr| ->%list_elem_of_singleton]%elem_of_app Hr'.
      * destruct (Hn r r' Hr Hr') as [Hin Hle].
        split; [rewrite elem_of_app; by left|].
        rewrite !Hold by auto. done.
      * rewrite (Hold node Hnode).
        destruct (discovered_or visited _ r' Hr') as [Hin|Hin].
        -- split; [rewrite elem_of_app; by left|]. rewrite (Hold r' Hin).
           subst visited.
           apply elem_of_app in Hin as [Hin|Hin]; [specialize (Hret' r' Hin); lia|].
           apply elem_of_cons in Hin as [->|Hin]; [lia|].
           apply elem_of_app in Hin as [Hin|Hin].
           ++ rewrite (Hqa' r' Hin). lia.
           ++ rewrite (Hqb0 r' Hin). lia.
        -- split; [rewrite elem_of_app; by right|].
           fold new in Hin. rewrite (Hfresh r' Hin). lia.
    + intros r [Hr|Hr]%elem_of_app.
      * rewrite (Hold r Hr). by apply Hp.
      * rewrite (Hfresh r Hr). destruct (Hnew r Hr) as [Hnbr _].
        rewrite (Halt node r Hnbr), <- (Hp node Hnode).
        rewrite Z.even_add. by destruct (Z.even (depth_at g node)).
Qed.
Lemma bfs_family_root_closed (int : str → option Z) (g0 g : list Node)
    (root : nat) (config : gmap str str) (v : str) (fd : Z) :
  Forall unresolved g0 → resolve_all g0 = Ok g →
  alternating g → is_family g root = true →
  config !! lit "familydepth" = Some v → int v = Some fd →
  ∃ g' ret,
    bfs int g root config = Some (Ok (g', ret)) ∧ edges_inside g' ret.
Proof.
  intros Hfresh Hres Halt Hroot Hc Hi.
  destruct (resolve_all_links g0 g Hfresh Hres) as [Hlinks Hzero].
  assert (∀ n r, r ∈ neighbours_at g n → (r < length g)%nat) as Hvalid
    by (intros n r Hr; by destruct (Hlinks n r Hr)).
  assert (root < length g)%nat as Hlt.
  { unfold is_family in Hroot. destruct (g !! root) eqn:E; [|done].
    by eapply lookup_lt_Some. }
  destruct (bfs_loop_terminates int config v fd g
              (λ r, (r < length g)%nat) Hc Hi) with
    (fuel := length g) (g := g) (visited := [root]) (queue := [root])
    (ret := @nil nat) as (g' & ret & Hrun & Hsame & _ & _).
  - intros n r _ Hr. by eapply Hvalid.
  - done.
  - apply same_links_refl.
  - apply NoDup_singleton.
  - done.
  - by intros r ->%list_elem_of_singleton.
  - simpl. lia.
  - exists g', ret. split; [exact Hrun|].
    pose proof (bfs_loop_closed int config v fd g Hc Hi Halt Hvalid
                  (length g) g [root] [root] [] [root] [] 0%Z g' ret
                  (same_links_refl g) eq_refl eq_refl) as Hclosed.
    assert (∀ r r', r ∈ ret → is_family g r = true →
              r' ∈ neighbours_at g r → r' ∈ ret) as Hcl.
    { apply Hclosed; try (by intros ? ?%elem_of_nil);
        try (by intros ? ? ?%elem_of_nil); [| |exact Hrun].
      - by intros y ->%list_elem_of_singleton.
      - intros r ->%list_elem_of_singleton. by rewrite Hzero, Hroot. }
    clear Hclosed.
    apply Forall_forall. intros [a b] Hin. unfold relationships in Hin.
    apply list_elem_of_In, in_flat_map in Hin as (r & Hr%list_elem_of_In & Hp).
    destruct (g' !! r) as [[i|fam]|] eqn:Hg'; try done.
    apply list_elem_of_In in Hp.
    assert (is_family g r = true) as Hfam.
    { rewrite <- (bfs_loop_kind _ _ _ _ _ _ _ _ _ Hrun r).
      unfold is_family. by rewrite Hg'. }
    assert (∀ x, x ∈ get_neighbours (NFamily fam) → x ∈ ret) as Hnb.
    { intros x Hx. apply (Hcl r x Hr Hfam).
      destruct Hsame as [_ Hsame]. destruct (Hsame r) as [<- _].
      unfold neighbours_at. by rewrite Hg'. }
    cbn [get_neighbours] in Hnb. unfold family_relationships in Hp.
    rewrite !elem_of_app, !list_elem_of_fmap in Hp. simpl.
    destruct Hp as [(w & [= -> ->] & Hw)|[(h & [= -> ->] & Hh)|(c & [= -> ->] & Hc')]].
    + split; [|done]. apply Hnb. rewrite elem_of_app. by left.
    + split; [|done]. apply Hnb. rewrite !elem_of_app. right. by left.
    + split; [done|]. apply Hnb. rewrite !elem_of_app. right. by right.
Qed.

(** C4, as the code has it.  For every subgraph, the edge section is the
    text of one edge line per resolved wife, husband and child reference of
    every family of the subgraph, in subgraph order (wife, husband, then the
    children), and every line ends without arrowhead; the writer does not
    test that the other end of a reference is in the subgraph.  When the
    subgraph is what [bfs] returns from a root that is a family, on a
    resolved graph whose links alternate between families and individuals,
    both ends of every edge written are nodes of the subgraph. *)
Theorem store_edges_writes_every_relationship :
  (∀ (g : list Node) (subgraph : list nat) (stream : bytes),
     store_edges g subgraph stream =
       (b ← to_bytes (concat (edge_of g <$> relationships g subgraph));
        Ok (stream ++ b))
     ∧ Forall (λ line, endswith line no_arrowhead = true)
              (edge_of g <$> relationships g subgraph))
  ∧ (∀ (int : str → option Z) (g0 g : list Node) (root : nat)
       (config : gmap str str) (v : str) (fd : Z),
       Forall unresolved g0 → resolve_all g0 = Ok g →
       alternating g → is_family g root = true →
       config !! lit "familydepth" = Some v → int v = Some fd →
       ∃ g' ret,
         bfs int g root config = Some (Ok (g', ret)) ∧ edges_inside g' ret).
Proof.
  split.
  - intros g subgraph stream. split.
    + by rewrite store_edges_write, write_all.
    + apply Forall_fmap, Forall_forall. intros [a b] _. simpl.
      unfold edge_of, edge_text, no_arrowhead.
      rewrite !app_assoc. rewrite <- (app_assoc _ (lit " [dir=none];") [10]).
      apply endswith_app.
  - apply bfs_family_root_closed.
Qed.

Lemma store_edges_writes_every_relationship_witness :
  ∃ g' ret,
    bfs int_ascii couple_with_child_graph 3%nat (familydepth "0")
      = Some (Ok (g', ret))
    ∧ edges_inside g' ret.
Proof.
  destruct store_edges_writes_every_relationship as [_ H].
  apply (H int_ascii couple_with_child_tokenized couple_with_child_graph
           3%nat (familydepth "0") (lit "0") 0%Z).
  - repeat (constructor; [split; reflexivity|]). constructor.
  - vm_compute. reflexivity.
  - intros r r' Hr.
    destruct r as [|[|[|[|r]]]]; vm_compute in Hr;
      repeat (apply elem_of_cons in Hr as [->|Hr]; [reflexivity|]);
      by apply elem_of_nil in Hr.
  - reflexivity.
  - reflexivity.
  - reflexivity.
Defined.

(** The links have to alternate: where a family lists a family as its
    child, the traversal from the root family F1 with family depth 0 keeps
    F1, P1 and F2 but not P2, the child of F2, and the edge from F2 to P2
    leaves the subgraph. *)
Lemma family_as_child_leaks :
  ∃ g',
    bfs int_ascii family_as_child_graph 2%nat (familydepth "0")
      = Some (Ok (g', [2; 0; 3]%nat))
    ∧ ¬ edges_inside g' [2; 0; 3]%nat.
Proof.
  eexists. split; [vm_compute; reflexivity|].
  intros H. unfold edges_inside in H. vm_compute in H.
  apply Forall_cons in H as [_ H]. apply Forall_cons in H as [_ H].
  apply Forall_cons in H as [[_ H] _].
  repeat (apply elem_of_cons in H as [H|H]; [discriminate H|]).
  by apply elem_of_nil in H.
Qed.
